(** * Grindery Nexus web3 connector: a shallow embedding of [src/web3.ts]

    The development follows the source file top to bottom:
    - [JsString]: the string primitives the parsers rely on ([trim],
      [split], [toLowerCase], the character classes of the regular
      expressions);
    - [JsObject]: the properties of a plain object, its own and those of
      [Object.prototype], as the operator [in] and an assignment see
      them;
    - [JsNumber]: the numbers of the fee computation;
    - [Decl]: [parseEventDeclaration], [parseFunctionDeclaration] and
      [isSameAddress];
    - [TxTrigger]: the header handler of [NewTransactionTrigger];
    - [EventTrigger]: topic construction, the log handler and the header
      handler of [NewEventTrigger];
    - [Call]: unit normalisation, fee computation and dispatch of
      [callSmartContract].

    The properties are proved after the definitions, in the same order;
    [Sample] is a small instance of the environment on which concrete
    inputs are run.

    Conventions.  JavaScript strings are [string]s whose characters are
    code units below 256.  The numbers of [callSmartContract] are IEEE 754
    doubles, in the representation and with the operations of the
    Standard Library's [SpecFloat] at a precision of 53 bits; block
    numbers, which are only compared and incremented, are integers.  An
    object received as input is a plain object: it has its own
    properties, kept in a finite map, and those of [Object.prototype].
    The functions of [web3.eth.abi] and the requests to the node are
    parameters that always answer, and the quantities in the answers of
    the node are integers below [2^53], as web3 hands them over; the
    pending block has a base fee.  Every
    subscription handler runs to completion before the next message is
    delivered. *)

From Stdlib Require Import ZArith Ascii String List Bool Lia.
From Stdlib Require Import Floats.SpecFloat.
From stdpp Require Import base option list strings gmap.
From Equations Require Import Equations.

Import ListNotations.
Local Open Scope Z_scope.
Local Open Scope list_scope.

(** ** JavaScript string primitives *)

Module JsString.

Definition chars (s : string) : list ascii := list_ascii_of_string s.
Definition str (l : list ascii) : string := string_of_list_ascii l.

Definition code (c : ascii) : N := N_of_ascii c.

Definition in_range (lo hi : N) (c : ascii) : bool :=
  ((lo <=? code c) && (code c <=? hi))%N.

(** The class [\s], which is also the set [String.prototype.trim] strips:
    TAB, LF, VT, FF, CR, SPACE and NBSP are its members below 256. *)
Definition is_space (c : ascii) : bool :=
  in_range 9 13 c || (code c =? 32)%N || (code c =? 160)%N.

(** The class [[a-zA-Z0-9_]]. *)
Definition is_word (c : ascii) : bool :=
  in_range 97 122 c || in_range 65 90 c || in_range 48 57 c
  || (code c =? 95)%N.

(** The class [[^)]]. *)
Definition not_rparen (c : ascii) : bool := negb (Ascii.eqb c ")").

(** The characters [.] does not match: LF and CR below 256. *)
Definition is_line_terminator (c : ascii) : bool :=
  (code c =? 10)%N || (code c =? 13)%N.

Definition is_blank (c : ascii) : bool := Ascii.eqb c " ".

Section Spans.
Context {A : Type} (p : A -> bool).

Fixpoint take_while (l : list A) : list A :=
  match l with
  | [] => []
  | x :: r => if p x then x :: take_while r else []
  end.

Fixpoint drop_while (l : list A) : list A :=
  match l with
  | [] => []
  | x :: r => if p x then drop_while r else l
  end.

(** A list that does not start with an element of the class. *)
Definition stops (l : list A) : Prop :=
  match l with [] => True | x :: _ => p x = false end.
End Spans.

(** [String.prototype.trim]. *)
Definition trim (l : list ascii) : list ascii :=
  rev (drop_while is_space (rev (drop_while is_space l))).

(** [s.split(",")]: the pieces between the separators; an empty input
    yields one empty piece. *)
Fixpoint split_on (sep : ascii) (l : list ascii) : list (list ascii) :=
  match l with
  | [] => [[]]
  | c :: r =>
      if Ascii.eqb c sep then [] :: split_on sep r
      else match split_on sep r with
           | h :: t => (c :: h) :: t
           | [] => [[c]]
           end
  end.

(** [s.split(/\s+/)]: the pieces between maximal runs of white space.
    [in_ws] records that the previous character belonged to a run and
    [cur] is the piece being read, reversed. *)
Fixpoint split_ws_from (in_ws : bool) (cur : list ascii) (l : list ascii)
  : list (list ascii) :=
  match l with
  | [] => [rev cur]
  | c :: r =>
      if is_space c
      then if in_ws then split_ws_from true cur r
           else rev cur :: split_ws_from true [] r
      else split_ws_from false (c :: cur) r
  end.

Definition split_ws (l : list ascii) : list (list ascii) :=
  split_ws_from false [] l.

(** [String.prototype.toLowerCase] on code units below 256: the ASCII
    capitals and the Latin-1 capitals other than the multiplication
    sign move up by 32. *)
Definition lower_char (c : ascii) : ascii :=
  if in_range 65 90 c || (in_range 192 222 c && negb (code c =? 215)%N)
  then ascii_of_N (code c + 32) else c.

Definition toLowerCase (s : string) : string := str (map lower_char (chars s)).

(** [/^0x/.test(s)]. *)
Definition has_0x (s : string) : bool :=
  match chars s with
  | c0 :: c1 :: _ => Ascii.eqb c0 "0" && Ascii.eqb c1 "x"
  | _ => false
  end.

(** The white-space separated tokens of a text: its maximal runs of
    characters outside [\s]. *)
Fixpoint tokens_from (cur : list ascii) (l : list ascii) : list (list ascii) :=
  match l with
  | [] => match cur with [] => [] | _ => [rev cur] end
  | c :: r =>
      if is_space c
      then match cur with [] => tokens_from [] r | _ => rev cur :: tokens_from [] r end
      else tokens_from (c :: cur) r
  end.

Definition tokens (l : list ascii) : list (list ascii) := tokens_from [] l.

Definition spaces (l : list ascii) : Prop := Forall (fun c => is_space c = true) l.

(** A text with no white space at either end. *)
Definition trimmed (l : list ascii) : Prop :=
  stops is_space l /\ stops is_space (rev l).

End JsString.

(** ** Plain objects *)

Module JsObject.

(** The names every plain object inherits from [Object.prototype]. *)
Definition Object_prototype : list string :=
  [ "constructor"; "__defineGetter__"; "__defineSetter__"; "hasOwnProperty";
    "__lookupGetter__"; "__lookupSetter__"; "isPrototypeOf";
    "propertyIsEnumerable"; "toString"; "valueOf"; "__proto__";
    "toLocaleString" ]%string.

Definition inherited (name : string) : bool :=
  existsb (String.eqb name) Object_prototype.

Section Properties.
Context {value : Type}.

(** What [Object.prototype] holds under a name it has, seen as a
    value. *)
Variable prototype_value : string -> value.

(** [obj[name]] when [name in obj] holds, for the plain object whose
    own properties are [own]: an own property comes first, then the
    prototype; [None] is the case where [name in obj] is false. *)
Definition get (own : gmap string value) (name : string) : option value :=
  match own !! name with
  | Some v => Some v
  | None => if inherited name then Some (prototype_value name) else None
  end.
End Properties.

(** The own properties after [obj[name] = v], for an object made by the
    literal [{}] and changed by such assignments only: [__proto__] is
    the setter of the prototype and adds no property. *)
Definition assign {value : Type} (name : string) (v : value)
           (own : gmap string value) : gmap string value :=
  if String.eqb name "__proto__" then own else <[name := v]> own.

End JsObject.

(** ** Numbers *)

Module JsNumber.

Definition number : Type := spec_float.
Definition prec : Z := 53.
Definition emax : Z := 1024.
Definition NaN : number := S754_nan.

(** The number an integer literal, or the decimal notation of an
    integer given to [Number], stands for: the nearest double, the one
    with the even mantissa when two are as near. *)
Definition of_Z (z : Z) : number := binary_normalize prec emax z 0 false.

Definition add : number -> number -> number := SFadd prec emax.
Definition sub : number -> number -> number := SFsub prec emax.
Definition mul : number -> number -> number := SFmul prec emax.
Definition div : number -> number -> number := SFdiv prec emax.

(** [x < y]; false when either is [NaN]. *)
Definition lt : number -> number -> bool := SFltb.

(** The truth value of a number: zero and [NaN] are false. *)
Definition truthy (x : number) : bool :=
  match x with
  | S754_zero _ | S754_nan => false
  | _ => true
  end.

(** The largest integer not above [(-1)^s * m * 2^e]. *)
Definition integer_below (s : bool) (m : positive) (e : Z) : Z :=
  Z.shiftl (cond_Zopp s (Zpos m)) e.

(** [Math.floor] and [Math.ceil]; a zero result keeps the sign of the
    argument. *)
Definition Math_floor (x : number) : number :=
  match x with
  | S754_finite s m e => binary_normalize prec emax (integer_below s m e) 0 s
  | _ => x
  end.

Definition Math_ceil (x : number) : number :=
  match x with
  | S754_finite s m e =>
      binary_normalize prec emax (- integer_below (negb s) m e) 0 s
  | _ => x
  end.

(** [Math.min] of two numbers: [NaN] when either is, and the negative
    zero is the smaller of the two zeros. *)
Definition Math_min (x y : number) : number :=
  match SFcompare x y with
  | None => NaN
  | Some Lt => x
  | Some Gt => y
  | Some Eq =>
      match x, y with
      | S754_zero sx, S754_zero sy => S754_zero (sx || sy)
      | _, _ => x
      end
  end.

(** The literal [1.1]. *)
Definition one_tenth_more : number :=
  S754_finite false 4953959590107546 (-52).

(** [Math.ceil(gas * 1.1 + 1000)] *)
Definition gas_with_margin (gas : number) : number :=
  Math_ceil (add (mul gas one_tenth_more) (of_Z 1000)).

(** [String(x)] is the decimal notation of an integer: [x] is finite,
    has no fraction and is below [10^21] in magnitude, from where on
    the text has an exponent. *)
Definition plain_integer (x : number) : bool :=
  match x with
  | S754_zero _ => true
  | S754_finite _ m e =>
      if 0 <=? e then Zpos m * 2 ^ e <? 10 ^ 21
      else (Zpos m mod 2 ^ (- e) =? 0) && (Zpos m / 2 ^ (- e) <? 10 ^ 21)
  | _ => false
  end.

(** A quantity in an answer of the node, which web3 turns into a
    number and refuses beyond 53 bits. *)
Definition is_safe (z : Z) : bool := (0 <=? z) && (z <? 2 ^ 53).

Record safe_integer : Type :=
  { safe_value : Z; safe_range : is_safe safe_value = true }.

Definition of_safe (n : safe_integer) : number := of_Z (safe_value n).

(** *** Notions the properties of numbers are stated with

    The value of a finite number in units of [2^-1074], the least
    positive double. *)
Definition units (x : number) : Z :=
  match x with
  | S754_finite s m e => cond_Zopp s (Zpos m * 2 ^ (e + 1074))
  | _ => 0
  end.

(** A finite number in the one representation the operations return:
    53 binary digits, fewer at the least exponent. *)
Definition canonical (x : number) : Prop := valid_binary prec emax x = true.

Definition finite_or_zero (x : number) : Prop :=
  match x with
  | S754_zero _ => True
  | S754_finite _ _ _ => canonical x
  | _ => False
  end.

Definition well_formed (x : number) : Prop :=
  match x with
  | S754_nan => False
  | S754_finite _ _ _ => canonical x
  | _ => True
  end.

Definition finite_positive (x : number) : Prop :=
  exists m e, x = S754_finite false m e /\ canonical x.

(** [x] is positive infinity or a finite number not below the integer
    [v]. *)
Definition at_least (v : Z) (x : number) : Prop :=
  x = S754_infinity false \/
  exists m e, x = S754_finite false m e /\ canonical x /\
              v * 2 ^ 1074 <= Zpos m * 2 ^ (e + 1074).

(** Positive zero, a positive finite number or positive infinity. *)
Definition not_negative (x : number) : Prop :=
  match x with
  | S754_zero false | S754_infinity false | S754_finite false _ _ => True
  | _ => False
  end.

(** What the rounding of [(-1)^s * M * 2^E] can be: infinity when the
    exponent it needs is out of range, or a canonical number with the
    exponent [fexp] prescribes, or the next one when the mantissa is
    carried to [2^52], and less than one unit of that exponent away. *)
Inductive rounding (s : bool) (M : positive) (E : Z) : number -> Prop :=
| rounding_overflow :
    971 <= fexp prec emax (Zpos (digits2_pos M) + E) ->
    rounding s M E (S754_infinity s)
| rounding_finite m e :
    canonical (S754_finite s m e) ->
    fexp prec emax (Zpos (digits2_pos M) + E) <= e
    <= fexp prec emax (Zpos (digits2_pos M) + E) + 1 ->
    (e = fexp prec emax (Zpos (digits2_pos M) + E) + 1 -> Zpos m = 2 ^ 52) ->
    Zpos M * 2 ^ (E + 1074)
    < Zpos m * 2 ^ (e + 1074)
      + 2 ^ (fexp prec emax (Zpos (digits2_pos M) + E) + 1074) ->
    Zpos m * 2 ^ (e + 1074)
    <= Zpos M * 2 ^ (E + 1074)
       + 2 ^ (fexp prec emax (Zpos (digits2_pos M) + E) + 1074) ->
    (fexp prec emax (Zpos (digits2_pos M) + E) <= E ->
     Zpos m * 2 ^ (e + 1074) = Zpos M * 2 ^ (E + 1074)) ->
    rounding s M E (S754_finite s m e).

End JsNumber.

(** ** Errors and the result of fallible code *)

(** A field of the input of [callSmartContract] once the loop over the
    three keys has run: missing, a number, or the string [toWei]
    returned, which is the decimal notation of an integer and is kept
    here as that integer. *)
Inductive weifield : Type :=
| WAbsent
| WNum (x : JsNumber.number)
| WString (wei : Z).

(** One constructor for each [throw] of the source, and for the errors
    of the unit conversions it calls. *)
Inductive exn : Type :=
| InvalidEventDeclaration
    (* "Invalid event declaration" *)
| InvalidEventParameter (p : string)
    (* "Invalid event declaration: Invalid parameter " + p *)
| InvalidFunctionDeclaration
    (* "Invalid function declaration" *)
| InvalidFunctionParameter (p : string)
    (* "Invalid function declaration: Invalid parameter " + p *)
| MissingParameter (name : string)
    (* "Missing parameter " + name *)
| InvalidNumberValue (s : string)
    (* thrown by toWei of web3-utils on a text that is not a number *)
| InvalidWeiValue (v : weifield)
    (* thrown by fromWei of web3-utils on String(v) when that text is not
       the decimal notation of an integer *)
| GasLimitTooLow (gasLimit : weifield) (needed : JsNumber.number)
    (* "Gas limit of " + fromWei(String(gasLimit)) + " is too low, need
       at least " + fromWei(String(needed)) *).

Inductive outcome (A : Type) : Type :=
| Return (a : A)
| Throw (e : exn).
Arguments Return {A} a.
Arguments Throw {A} e.

#[export] Instance outcome_ret : MRet outcome := fun A a => Return a.
#[export] Instance outcome_bind : MBind outcome := fun A B f m =>
  match m with
  | Return a => f a
  | Throw e => Throw e
  end.

Definition throws {A} (m : outcome A) : Prop :=
  match m with Throw _ => True | Return _ => False end.

(** [Array.prototype.map] with a callback that may throw: the callback
    runs on the elements from left to right and the first exception
    ends the traversal. *)
Fixpoint map_throwing {A B} (f : A -> outcome B) (l : list A) : outcome (list B) :=
  match l with
  | [] => Return []
  | x :: r => y ← f x; ys ← map_throwing f r; Return (y :: ys)
  end.

(** ** Declaration parsers and address comparison *)

Module Decl.
Import JsString.

Record EventInput : Type :=
  { in_indexed : bool; in_type : string; in_name : string }.

(** [{ name, inputs, type: "event", anonymous: false }] *)
Record EventAbi : Type :=
  { ev_name : string; ev_inputs : list EventInput }.

Record FunctionInput : Type :=
  { fin_type : string; fin_name : string }.

Inductive StateMutability : Type := pure | view | payable | nonpayable.

(** [{ name, inputs, constant, payable, stateMutability, type: "function" }] *)
Record FunctionAbi : Type :=
  { fn_name : string;
    fn_inputs : list FunctionInput;
    fn_constant : bool;
    fn_payable : bool;
    fn_stateMutability : StateMutability }.

(** *** The two regular expressions

    Both start with [^\s*(KEYWORD +)?([a-zA-Z0-9_]+)\s*\(([^)]+)\)];
    [exec_head] is the part after the optional keyword group. It returns
    the two captures and the unread rest. *)
Definition exec_head (s : list ascii)
  : option (list ascii * list ascii * list ascii) :=
  match take_while is_word s with
  | [] => None
  | name =>
      match drop_while is_space (drop_while is_word s) with
      | "("%char :: r =>
          match take_while not_rparen r with
          | [] => None
          | params =>
              match drop_while not_rparen r with
              | ")"%char :: rest => Some (name, params, rest)
              | _ => None
              end
          end
      | _ => None
      end
  end.

Fixpoint strip_prefix (pre s : list ascii) : option (list ascii) :=
  match pre, s with
  | [], _ => Some s
  | a :: pre', b :: s' => if Ascii.eqb a b then strip_prefix pre' s' else None
  | _ :: _, [] => None
  end.

(** The group [(KEYWORD +)]: the keyword and the longest run of one or
    more spaces. *)
Definition exec_keyword (kw : string) (s : list ascii) : option (list ascii) :=
  match strip_prefix (chars kw) s with
  | Some (c :: r) => if is_blank c then Some (drop_while is_blank r) else None
  | _ => None
  end.

(** The pattern from the name on: the head, then [tail] on what is
    left. *)
Definition exec_rest {T} (tail : list ascii -> option T) (t : list ascii)
  : option (list ascii * list ascii * T) :=
  match exec_head t with
  | Some (name, params, rest) =>
      match tail rest with
      | Some x => Some (name, params, x)
      | None => None
      end
  | None => None
  end.

(** The common driver: leading white space, then the keyword group is
    tried first and given up when the rest does not match with it. *)
Definition exec_decl {T} (kw : string) (tail : list ascii -> option T)
           (s : list ascii) : option (list ascii * list ascii * T) :=
  let s1 := drop_while is_space s in
  match exec_keyword kw s1 with
  | Some t => match exec_rest tail t with
              | Some r => Some r
              | None => exec_rest tail s1
              end
  | None => exec_rest tail s1
  end.

(** [\s*;?\s*$] *)
Definition event_tail (rest : list ascii) : option unit :=
  let r := drop_while is_space rest in
  let r' := match r with
            | ";"%char :: t => t
            | _ => r
            end in
  match drop_while is_space r' with
  | [] => Some tt
  | _ :: _ => None
  end.

(** The end of the function pattern: white space, then a last group that
    captures every remaining character up to the end of the input; the
    group uses the dot, which matches no line terminator. *)
Definition function_tail (rest : list ascii) : option (list ascii) :=
  let r := drop_while is_space rest in
  if forallb (fun c => negb (is_line_terminator c)) r then Some r else None.

(** [/^\s*(event +)?([a-zA-Z0-9_]+)\s*\(([^)]+)\)\s*;?\s*$/.exec(s)],
    reduced to the captures [m[2]] and [m[3]]. *)
Definition exec_event_re (s : string) : option (list ascii * list ascii) :=
  match exec_decl "event" event_tail (chars s) with
  | Some (name, params, _) => Some (name, params)
  | None => None
  end.

(** The pattern of [parseFunctionDeclaration], with the keyword
    [function] and the end described at [function_tail], reduced to
    [m[2]], [m[3]] and [m[4]]. *)
Definition exec_function_re (s : string)
  : option (list ascii * list ascii * list ascii) :=
  exec_decl "function" function_tail (chars s).

Definition nth_part (i : nat) (parts : list (list ascii)) : string :=
  str (nth i parts []).

(** The callback of [m[3].split(",").map(...)] in
    [parseEventDeclaration]. *)
Definition event_parameter (p : list ascii) : outcome EventInput :=
  let parts := split_ws (trim p) in
  if negb (length parts =? 2)%nat && negb (length parts =? 3)%nat
  then Throw (InvalidEventParameter (str p))
  else if (length parts =? 3)%nat && negb (String.eqb (nth_part 1 parts) "indexed")
  then Throw (InvalidEventParameter (str p))
  else Return {| in_indexed := (length parts =? 3)%nat;
                 in_type := nth_part 0 parts;
                 in_name := nth_part (length parts - 1) parts |}.

Definition parseEventDeclaration (eventDeclaration : string) : outcome EventAbi :=
  match exec_event_re eventDeclaration with
  | None => Throw InvalidEventDeclaration
  | Some (name, params) =>
      inputs ← map_throwing event_parameter (split_on "," params);
      Return {| ev_name := str name; ev_inputs := inputs |}
  end.

(** The callback of [m[3].split(",").map(...)] in
    [parseFunctionDeclaration]. *)
Definition function_parameter (p : list ascii) : outcome FunctionInput :=
  let parts := split_ws (trim p) in
  if (length parts <? 2)%nat
  then Throw (InvalidFunctionParameter (str p))
  else Return {| fin_type := nth_part 0 parts;
                 fin_name := nth_part (length parts - 1) parts |}.

(** [suffixes.includes(word)] *)
Definition includes (word : string) (suffixes : list (list ascii)) : bool :=
  existsb (fun t => String.eqb (str t) word) suffixes.

Definition parseFunctionDeclaration (functionDeclaration : string)
  : outcome FunctionAbi :=
  match exec_function_re functionDeclaration with
  | None => Throw InvalidFunctionDeclaration
  | Some (name, params, suffix) =>
      inputs ← map_throwing function_parameter (split_on "," params);
      let suffixes := split_ws (trim suffix) in
      Return {| fn_name := str name;
                fn_inputs := inputs;
                fn_constant := includes "view" suffixes;
                fn_payable := includes "payable" suffixes;
                fn_stateMutability :=
                  if includes "pure" suffixes then pure
                  else if includes "view" suffixes then view
                  else if includes "payable" suffixes then payable
                  else nonpayable |}
  end.

(** *** What the patterns accept, said without the matcher

    [head_shape s name params rest]: [s] is a name, white space, an
    opening parenthesis, a non-empty text free of closing parentheses,
    a closing parenthesis and [rest]. *)
Definition word_chars (l : list ascii) : Prop :=
  l <> [] /\ Forall (fun c => is_word c = true) l.

Definition param_chars (l : list ascii) : Prop :=
  l <> [] /\ Forall (fun c => not_rparen c = true) l.

Definition head_shape (s name params rest : list ascii) : Prop :=
  exists ws, spaces ws /\ word_chars name /\ param_chars params /\
             s = name ++ ws ++ "("%char :: params ++ ")"%char :: rest.

(** Nothing, or the keyword followed by one or more spaces. *)
Definition keyword_shape (kw : string) (k : list ascii) : Prop :=
  k = [] \/ exists n, k = chars kw ++ repeat " "%char (S n).

(** White space, the optional keyword, the head, and a rest [tail]
    accepts. *)
Definition decl_shape {T} (kw : string) (tail : list ascii -> option T)
           (s name params : list ascii) (x : T) : Prop :=
  exists ws0 k t rest,
    s = ws0 ++ k ++ t /\ spaces ws0 /\ keyword_shape kw k /\
    head_shape t name params rest /\ tail rest = Some x.

(** White space, an optional semicolon, white space. *)
Definition event_end (rest : list ascii) : Prop :=
  exists ws2 semi ws3,
    rest = ws2 ++ semi ++ ws3 /\ spaces ws2 /\ spaces ws3 /\
    (semi = [] \/ semi = [";"%char]).

(** The shape of an event declaration: optional [event] keyword, name,
    parenthesised parameter text, optional semicolon. *)
Definition event_shape (s name params : list ascii) : Prop :=
  exists ws0 k t rest,
    s = ws0 ++ k ++ t /\ spaces ws0 /\ keyword_shape "event" k /\
    head_shape t name params rest /\ event_end rest.

(** The parameters of a parameter text, said without the splitting:
    texts with no comma in them, at least one, that give the parameter
    text back when they are written one after the other with a comma
    between two of them. *)
Fixpoint joined (pieces : list (list ascii)) : list ascii :=
  match pieces with
  | [] => []
  | q :: rest =>
      match rest with
      | [] => q
      | _ :: _ => q ++ ","%char :: joined rest
      end
  end.

Definition comma_separated (params : list ascii) (pieces : list (list ascii))
  : Prop :=
  pieces <> [] /\ Forall (fun q => ~ In ","%char q) pieces /\
  params = joined pieces.

(** A parameter text that is refused: it does not have two or three
    tokens, or it has three and the middle one is not [indexed]. *)
Definition bad_parameter (q : list ascii) : Prop :=
  let ts := tokens q in
  ~ (length ts = 2 \/ length ts = 3)%nat \/
  (length ts = 3%nat /\ nth 1 ts [] <> chars "indexed").

(** The input a parameter text stands for. *)
Definition describes (q : list ascii) (input : EventInput) : Prop :=
  let ts := tokens q in
  in_type input = str (hd [] ts) /\
  in_name input = str (List.last ts []) /\
  in_indexed input = bool_decide (length ts = 3%nat).

(** The truth value of a string. *)
Definition truthy_string (s : string) : bool := negb (String.eqb s EmptyString).

(** [isSameAddress(a, b)]; [None] stands for [null] or [undefined]. *)
Definition isSameAddress (a b : option string) : bool :=
  match a, b with
  | Some a, Some b =>
      if negb (truthy_string a) || negb (truthy_string b) then false
      else if has_0x a && has_0x b
      then String.eqb (toLowerCase a) (toLowerCase b)
      else String.eqb a b
  | _, _ => false
  end.

End Decl.

(** ** NewTransactionTrigger *)

Module TxTrigger.
Import JsString Decl.

(** The fields of a transaction the handler reads; [tx_to] is [null] for
    a contract creation. *)
Record Transaction : Type :=
  { tx_hash : string; tx_from : string; tx_to : option string }.

(** The answer of [web3.eth.getBlock(n, true)]; [transactions] may be
    missing. *)
Record BlockWithTransactions : Type :=
  { blk_number : Z; blk_transactions : option (list Transaction) }.

(** [this.fields] *)
Record Fields : Type :=
  { chain : string; from : option string; to : option string }.

Definition truthy_field (f : option string) : bool :=
  match f with
  | Some s => truthy_string s
  | None => false
  end.

(** What one run of the header handler did: the value left in
    [lastBlock], the block numbers passed to [getBlock] and the
    transactions passed to [sendNotification], both in call order. *)
Record Handled : Type :=
  { lastBlock : Z; fetched : list Z; notified : list Transaction }.

Section Handler.
Variable getBlock : Z -> BlockWithTransactions.
Variable fields : Fields.

(** The body of the [for] loop: [true] when the transaction reaches
    [sendNotification]. *)
Definition forwarded (transaction : Transaction) : bool :=
  if truthy_field (from fields)
     && negb (isSameAddress (Some (tx_from transaction)) (from fields))
  then false
  else if truthy_field (to fields)
          && negb (isSameAddress (tx_to transaction) (to fields))
  then false
  else true.

(** The [while] loop of the handler. *)
Equations? catch_up (last number : Z) : Handled
  by wf (Z.to_nat (number - 2 - last)) lt :=
  catch_up last number with Z_lt_dec last (number - 2) => {
    | right _ => {| lastBlock := last; fetched := []; notified := [] |}
    | left _ with blk_transactions (getBlock (last + 1)) => {
        | None => {| lastBlock := last + 1; fetched := [last + 1];
                     notified := [] |}
        | Some transactions =>
            let r := catch_up (last + 1) number in
            {| lastBlock := lastBlock r;
               fetched := (last + 1) :: fetched r;
               notified := List.filter forwarded transactions ++ notified r |}
      }
  }.
Proof. lia. Qed.

(** The ["data"] callback of the [newBlockHeaders] subscription, for
    a header whose number is [number]. *)
Definition on_header (last number : Z) : Handled :=
  if number =? 0 then {| lastBlock := last; fetched := []; notified := [] |}
  else if last <=? 0 then {| lastBlock := number; fetched := []; notified := [] |}
  else catch_up last number.

(** A run of the trigger over the headers it receives, starting from
    [let lastBlock = -1]. *)
Fixpoint run_from (last : Z) (headers : list Z) : Handled :=
  match headers with
  | [] => {| lastBlock := last; fetched := []; notified := [] |}
  | number :: rest =>
      let h := on_header last number in
      let r := run_from (lastBlock h) rest in
      {| lastBlock := lastBlock r;
         fetched := fetched h ++ fetched r;
         notified := notified h ++ notified r |}
  end.

Definition run (headers : list Z) : Handled := run_from (-1) headers.
End Handler.

(** The comparison the filter is said to make, written without the
    helpers of the code.  A text starts with [0x]: *)
Definition starts_0x (s : string) : Prop :=
  exists rest, s = String "0" (String "x" rest).

(** [d] is the small letter of the capital [c]: the capitals are A to
    Z and, in Latin-1, the letters from 192 to 222 without the
    multiplication sign at 215, and the small letter is 32 further. *)
Definition small_of (c d : ascii) : bool :=
  let n := N_of_ascii c in
  ((((65 <=? n) && (n <=? 90))
    || ((192 <=? n) && (n <=? 222) && negb (n =? 215)))
   && (N_of_ascii d =? n + 32))%N.

(** Two characters that are the same up to case. *)
Definition same_letter (c d : ascii) : bool :=
  Ascii.eqb c d || small_of c d || small_of d c.

(** Two texts that are the same up to the case of their letters. *)
Definition caseless (a b : string) : Prop :=
  Forall2 (fun c d => same_letter c d = true)
          (list_ascii_of_string a) (list_ascii_of_string b).

(** Two texts that both start with [0x] are equal up to letter case,
    any other two values are equal when they are the same value. *)
Definition same_value (a : option string) (b : string) : Prop :=
  match a with
  | Some a =>
      (starts_0x a /\ starts_0x b /\ caseless a b) \/
      (~ (starts_0x a /\ starts_0x b) /\ a = b)
  | None => False
  end.

End TxTrigger.

(** ** NewEventTrigger *)

Module EventTrigger.
Import JsString Decl.

(** [Log] of web3-core, with the [removed] flag the node adds. *)
Record Log : Type :=
  { address : string;
    data : string;
    topics : list string;
    logIndex : Z;
    transactionIndex : Z;
    transactionHash : string;
    blockHash : string;
    blockNumber : Z;
    removed : bool }.

Section Trigger.
(** The values handled by the ABI coder and the three functions of
    [web3.eth.abi] the trigger calls. [decodeLog inputs data topics]
    is read at a parameter name. *)
Variable value : Type.
Variable encodeEventSignature : EventAbi -> string.
Variable encodeParameter : string -> value -> string.
Variable decodeLog : list EventInput -> string -> list string -> string -> value.

(** What [Object.prototype] holds under its names, as the coder
    receives it. *)
Variable prototype_value : string -> value.

(** The own properties of [this.fields.parameterFilters] *)
Variable parameterFilters : gmap string value.

(** [this.fields.parameterFilters[name]] when
    [name in this.fields.parameterFilters] *)
Definition filter_of (name : string) : option value :=
  JsObject.get prototype_value parameterFilters name.

(** What a property of a notification holds. *)
Inductive field : Type :=
| RawEvent (logEntry : Log)
| Decoded (v : value).

(** The loop that builds [topics] from [inputs]. *)
Definition push_topic (topics : list (option string)) (input : EventInput)
  : list (option string) :=
  if in_indexed input
  then topics ++ [match filter_of (in_name input) with
                  | Some value => Some (encodeParameter (in_type input) value)
                  | None => None
                  end]
  else topics.

Definition build_topics (eventInfo : EventAbi) : list (option string) :=
  fold_left push_topic (ev_inputs eventInfo)
            [Some (encodeEventSignature eventInfo)].

(** The ["data"] callback of the [logs] subscription. *)
Definition on_log (pendingLogs : list Log) (logEntry : Log) : list Log :=
  if removed logEntry
  then List.filter
         (fun x => negb (String.eqb (blockHash x) (blockHash logEntry)))
         pendingLogs
  else pendingLogs ++ [logEntry].

(** The inner loop over [inputs] for one confirmed entry. The result
    carries the names whose two encodings were compared, in order,
    and [event] when the loop ran to its end; [None] is the [return]
    of the mismatch branch. *)
Fixpoint check_inputs (inputs : list EventInput) (decoded : string -> value)
         (compared : list string) (event : gmap string value)
  : list string * option (gmap string value) :=
  match inputs with
  | [] => (compared, Some event)
  | input :: rest =>
      let name := in_name input in
      match filter_of name with
      | None => check_inputs rest decoded compared event
      | Some expected =>
          if negb (String.eqb (encodeParameter (in_type input) (decoded name))
                              (encodeParameter (in_type input) expected))
          then (compared ++ [name], None)
          else check_inputs rest decoded (compared ++ [name])
                            (JsObject.assign name (decoded name) event)
      end
  end.

(** The object literal with [_rawEvent] first and the spread of
    [event] after it: a property of [event] wins over [_rawEvent]. *)
Definition notification (logEntry : Log) (event : gmap string value)
  : gmap string field :=
  (Decoded <$> event) ∪ {[ "_rawEvent"%string := RawEvent logEntry ]}.

Definition process_entry (inputs : list EventInput) (logEntry : Log)
  : list string * option (gmap string field) :=
  let decoded := decodeLog inputs (data logEntry) (tl (topics logEntry)) in
  match check_inputs inputs decoded [] ∅ with
  | (compared, Some event) => (compared, Some (notification logEntry event))
  | (compared, None) => (compared, None)
  end.

(** The state of one run of the header callback: whether it reached the
    last statement, the entries it kept pending and the notifications
    it sent. *)
Record Pass : Type :=
  { completed : bool;
    newPendingLogs : list Log;
    sent : list (gmap string field) }.

(** The [for] loop over [logs]. *)
Fixpoint pass_loop (inputs : list EventInput) (number : Z) (logs : list Log)
         (newPending : list Log) (sent : list (gmap string field)) : Pass :=
  match logs with
  | [] => {| completed := true; newPendingLogs := newPending; sent := sent |}
  | logEntry :: rest =>
      if blockNumber logEntry >? number - 2
      then pass_loop inputs number rest (newPending ++ [logEntry]) sent
      else match snd (process_entry inputs logEntry) with
           | None =>
               {| completed := false; newPendingLogs := newPending; sent := sent |}
           | Some n => pass_loop inputs number rest newPending (sent ++ [n])
           end
  end.

(** The ["data"] callback of the [newBlockHeaders] subscription: the
    new value of [pendingLogs] and the notifications sent. *)
Definition on_header (inputs : list EventInput) (pendingLogs : list Log)
           (number : Z) : list Log * list (gmap string field) :=
  if number =? 0 then (pendingLogs, [])
  else
    let logs := pendingLogs in
    let pendingLogs := [] in
    let p := pass_loop inputs number logs [] [] in
    if completed p
    then (pendingLogs ++ newPendingLogs p, sent p)
    else (pendingLogs, sent p).

(** The messages the two subscriptions deliver. *)
Inductive message : Type :=
| LogData (logEntry : Log)
| HeaderData (number : Z).

Definition deliver (inputs : list EventInput) (pendingLogs : list Log)
           (m : message) : list Log * list (gmap string field) :=
  match m with
  | LogData logEntry => (on_log pendingLogs logEntry, [])
  | HeaderData number => on_header inputs pendingLogs number
  end.

Fixpoint deliver_all (inputs : list EventInput) (pendingLogs : list Log)
         (ms : list message) : list Log * list (gmap string field) :=
  match ms with
  | [] => (pendingLogs, [])
  | m :: rest =>
      let '(pending1, sent1) := deliver inputs pendingLogs m in
      let '(pending2, sent2) := deliver_all inputs pending1 rest in
      (pending2, sent1 ++ sent2)
  end.

(** The entries a message list appends to the buffer. *)
Definition arrivals (ms : list message) : list Log :=
  omap (fun m => match m with
                 | LogData logEntry =>
                     if removed logEntry then None else Some logEntry
                 | HeaderData _ => None
                 end) ms.

(** The names of the inputs that are filtered, in declaration
    order: those that are own keys of the filters or names of
    [Object.prototype]. *)
Definition filtered_names (inputs : list EventInput) : list string :=
  List.filter (fun n => bool_decide (is_Some (parameterFilters !! n))
                        || JsObject.inherited n)
              (map in_name inputs).

(** The value a filtered name is compared with: the own property of
    the filters, and the one of the prototype when there is none. *)
Definition expected_of (name : string) : value :=
  default (prototype_value name) (parameterFilters !! name).

(** An input whose decoded value does not encode like the filter
    value of its name. *)
Definition mismatches (decoded : string -> value) (input : EventInput) : Prop :=
  In (in_name input) (filtered_names [input]) /\
  encodeParameter (in_type input) (decoded (in_name input))
  <> encodeParameter (in_type input) (expected_of (in_name input)).

End Trigger.

Arguments RawEvent {value} logEntry.
Arguments Decoded {value} v.

End EventTrigger.

(** ** callSmartContract *)

Module Call.
Import JsString Decl.

(** An optional field of the input that holds a number or a string. *)
Inductive jsfield : Type :=
| Absent
| Num (x : JsNumber.number)
| Str (s : string).

(** *** [web3.utils.toWei] on a string

    web3-utils checks the text against an optional minus sign followed
    by digits and dots, splits it at the dot, pads the fraction to the
    decimals of the unit and returns the decimal notation of
    [whole * 10^decimals + fraction]. *)
Definition is_digit (c : ascii) : bool := in_range 48 57 c.

Definition BN (digits : list ascii) : Z :=
  fold_left (fun acc c => 10 * acc + (Z.of_N (code c) - 48)) digits 0.

Definition ether : nat := 18.
Definition gwei : nat := 9.

Definition toWei (s : string) (decimals : nat) : outcome Z :=
  let '(negative, body) :=
    match chars s with
    | "-"%char :: r => (true, r)
    | l => (false, l)
    end in
  if match body with [] => true | _ => false end
     || negb (forallb (fun c => is_digit c || Ascii.eqb c ".") body)
  then Throw (InvalidNumberValue s)
  else if bool_decide (body = ["."%char])
  then Throw (InvalidNumberValue s)
  else
    match split_on "." body with
    | whole :: more =>
        match more with
        | _ :: _ :: _ => Throw (InvalidNumberValue s)
        | _ =>
            let fraction := match more with [f] => f | _ => [] end in
            let whole := match whole with [] => ["0"%char] | _ => whole end in
            let fraction := match fraction with [] => ["0"%char] | _ => fraction end in
            if (decimals <? length fraction)%nat
            then Throw (InvalidNumberValue s)
            else
              let padded := fraction ++ repeat "0"%char (decimals - length fraction) in
              let wei := BN whole * 10 ^ Z.of_nat decimals + BN padded in
              Return (if negative then - wei else wei)
        end
    | [] => Throw (InvalidNumberValue s)
    end.

(** One round of the loop over ["gasLimit"], ["maxFeePerGas"] and
    ["maxPriorityFeePerGas"]. *)
Definition normalise (f : jsfield) : outcome weifield :=
  match f with
  | Absent => Return WAbsent
  | Num x => Return (WNum x)
  | Str s => wei ← toWei s ether; Return (WString wei)
  end.

(** The truth value of a field: a missing field, the zeros and [NaN]
    are false, a string in decimal notation is never empty and is
    true. *)
Definition truthy (f : weifield) : bool :=
  match f with
  | WAbsent => false
  | WNum x => JsNumber.truthy x
  | WString _ => true
  end.

(** [Number(f)]; [Number(undefined)] is [NaN]. *)
Definition Number (f : weifield) : JsNumber.number :=
  match f with
  | WAbsent => JsNumber.NaN
  | WNum x => x
  | WString wei => JsNumber.of_Z wei
  end.

(** The strings [web3.utils.toWei("30", "gwei")] and
    [web3.utils.toWei("75", "gwei")], as the integers they denote. *)
Definition wei_of (m : outcome Z) : Z :=
  match m with Return w => w | Throw _ => 0 end.
Definition floor_tip : Z := Eval vm_compute in wei_of (toWei "30" gwei).
Definition default_tip : Z := Eval vm_compute in wei_of (toWei "75" gwei).

Record Fees : Type :=
  { minFee : JsNumber.number;
    maxFeePerGas : JsNumber.number;
    maxPriorityFeePerGas : JsNumber.number }.

(** [fromWei(String(f), "ether")] returns: the text [String(f)] is the
    decimal notation of an integer. *)
Definition printable (f : weifield) : bool :=
  match f with
  | WAbsent => false
  | WNum x => JsNumber.plain_integer x
  | WString _ => true
  end.

(** The [throw] of the fee check.  Its message is built first, from
    [fromWei(String(input.fields.gasLimit), "ether")] and then from
    [fromWei(String(minFee * txConfig.gas), "ether")]; a conversion
    that fails throws its own error in place of the message. *)
Definition insufficient {A} (gasLimit : weifield) (needed : JsNumber.number)
  : outcome A :=
  if negb (printable gasLimit) then Throw (InvalidWeiValue gasLimit)
  else if negb (JsNumber.plain_integer needed)
  then Throw (InvalidWeiValue (WNum needed))
  else Throw (GasLimitTooLow gasLimit needed).

(** The lines from [const minFee] to the assignment of
    [txConfig.maxPriorityFeePerGas]; [gas] is [txConfig.gas]. *)
Definition compute_fees (baseFee gas : JsNumber.number)
           (gasLimit maxPriorityFee : weifield) : outcome Fees :=
  let minFee := JsNumber.add baseFee (JsNumber.of_Z floor_tip) in
  let maxTip := if truthy maxPriorityFee then maxPriorityFee
                else WString default_tip in
  let maxFee := if truthy gasLimit
                then JsNumber.Math_floor (JsNumber.div (Number gasLimit) gas)
                else JsNumber.add baseFee (Number maxTip) in
  if JsNumber.lt maxFee minFee
  then insufficient gasLimit (JsNumber.mul minFee gas)
  else Return {| minFee := minFee;
                 maxFeePerGas := maxFee;
                 maxPriorityFeePerGas :=
                   JsNumber.Math_min
                     (Number maxTip)
                     (JsNumber.sub (JsNumber.sub maxFee baseFee)
                                   (JsNumber.of_Z 1)) |}.

(** [TransactionConfig]; the last three fields are unset in the draft
    that is passed to [estimateGas]. *)
Record TransactionConfig : Type :=
  { tx_from : string;
    tx_to : string;
    tx_data : string;
    tx_nonce : Z;
    tx_gas : option JsNumber.number;
    tx_maxFeePerGas : option JsNumber.number;
    tx_maxPriorityFeePerGas : option JsNumber.number }.

Section CallSmartContract.
(** The values of call parameters, the answers of the node and the
    receipt of a sent transaction. *)
Variable value : Type.
Variable receipt : Type.
(** What [Object.prototype] holds under its names, as a parameter
    value. *)
Variable prototype_value : string -> value.
Variable encodeFunctionCall : FunctionAbi -> list value -> string.
Variable account_address : string.
Variable getTransactionCount : string -> Z.
(** [web3.eth.estimateGas], whose answer web3 turns into a number *)
Variable estimateGas : TransactionConfig -> JsNumber.safe_integer.
(** [block.baseFeePerGas] of the pending block, on a chain whose
    blocks have a base fee *)
Variable baseFeePerGas : JsNumber.safe_integer.
Variable eth_call : TransactionConfig -> string.
Variable sendTransaction : TransactionConfig -> receipt.

Record InputFields : Type :=
  { chain : string;
    contractAddress : string;
    functionDeclaration : string;
    parameters : gmap string value;
    f_maxFeePerGas : jsfield;
    f_maxPriorityFeePerGas : jsfield;
    gasLimit : jsfield;
    dryRun : bool }.

Inductive payload : Type :=
| Simulated (returnValue : string) (estimatedGas : JsNumber.number)
            (minFee : JsNumber.number)
| Sent (result : receipt).

(** The node request made by the last step. *)
Inductive request : Type :=
| EthCall (txConfig : TransactionConfig)
| EthSendTransaction (txConfig : TransactionConfig).

(** The loop that fills [paramArray]: [i.name in parameters] and
    [parameters[i.name]] see the own properties of the object and
    those of [Object.prototype]. *)
Definition collect_parameters (fields : InputFields) (inputs : list FunctionInput)
  : outcome (list value) :=
  map_throwing
    (fun i => match JsObject.get prototype_value (parameters fields) (fin_name i) with
              | None => Throw (MissingParameter (fin_name i))
              | Some v => Return v
              end) inputs.

Definition read_only (functionInfo : FunctionAbi) : bool :=
  fn_constant functionInfo
  || match fn_stateMutability functionInfo with pure => true | _ => false end.

(** The draft transaction: sender, destination, call data and nonce. *)
Definition draft (fields : InputFields) (functionInfo : FunctionAbi)
           (paramArray : list value) : TransactionConfig :=
  {| tx_from := account_address;
     tx_to := contractAddress fields;
     tx_data := encodeFunctionCall functionInfo paramArray;
     tx_nonce := getTransactionCount account_address;
     tx_gas := None;
     tx_maxFeePerGas := None;
     tx_maxPriorityFeePerGas := None |}.

(** The assignments to [txConfig.gas], [txConfig.maxFeePerGas] and
    [txConfig.maxPriorityFeePerGas]. *)
Definition priced (txConfig : TransactionConfig) (gas : JsNumber.number)
           (fees : Fees) : TransactionConfig :=
  {| tx_from := tx_from txConfig;
     tx_to := tx_to txConfig;
     tx_data := tx_data txConfig;
     tx_nonce := tx_nonce txConfig;
     tx_gas := Some gas;
     tx_maxFeePerGas := Some (maxFeePerGas fees);
     tx_maxPriorityFeePerGas := Some (maxPriorityFeePerGas fees) |}.

Definition callSmartContract (fields : InputFields) : outcome (request * payload) :=
  functionInfo ← parseFunctionDeclaration (functionDeclaration fields);
  paramArray ← collect_parameters fields (fn_inputs functionInfo);
  let txConfig := draft fields functionInfo paramArray in
  gasLimit' ← normalise (gasLimit fields);
  _ ← normalise (f_maxFeePerGas fields);
  maxPriorityFee' ← normalise (f_maxPriorityFeePerGas fields);
  let gas := JsNumber.of_safe (estimateGas txConfig) in
  let txGas := JsNumber.gas_with_margin gas in
  let baseFee := JsNumber.of_safe baseFeePerGas in
  fees ← compute_fees baseFee txGas gasLimit' maxPriorityFee';
  let txConfig := priced txConfig txGas fees in
  if read_only functionInfo || dryRun fields
  then Return (EthCall txConfig, Simulated (eth_call txConfig) gas (minFee fees))
  else Return (EthSendTransaction txConfig, Sent (sendTransaction txConfig)).

(** An invocation reaches the fee computation when the declaration
    parses, every parameter is present and the three unit conversions
    succeed. *)
Definition reaches_fees (fields : InputFields) (functionInfo : FunctionAbi)
           (paramArray : list value) (budget tip : weifield) : Prop :=
  parseFunctionDeclaration (functionDeclaration fields) = Return functionInfo /\
  collect_parameters fields (fn_inputs functionInfo) = Return paramArray /\
  normalise (gasLimit fields) = Return budget /\
  (exists m, normalise (f_maxFeePerGas fields) = Return m) /\
  normalise (f_maxPriorityFeePerGas fields) = Return tip.

(** The tip the caller asks for and the cap on the fee per unit of
    gas, read off the input fields: a missing field and a number
    that is zero or [NaN] select the default, a string is converted
    from ether to wei and then to the nearest number.  [gas] is the
    final gas limit and [baseFee] the base fee. *)
Definition desired_tip_of (f : jsfield) : JsNumber.number :=
  match f with
  | Absent => JsNumber.of_Z (75 * 10 ^ 9)
  | Num x => if JsNumber.truthy x then x else JsNumber.of_Z (75 * 10 ^ 9)
  | Str s => JsNumber.of_Z (wei_of (toWei s ether))
  end.

Definition cap_of (baseFee : JsNumber.number) (budget : jsfield)
           (gas desired : JsNumber.number) : JsNumber.number :=
  match budget with
  | Absent => JsNumber.add baseFee desired
  | Num x => if JsNumber.truthy x
             then JsNumber.Math_floor (JsNumber.div x gas)
             else JsNumber.add baseFee desired
  | Str s => JsNumber.Math_floor
               (JsNumber.div (JsNumber.of_Z (wei_of (toWei s ether))) gas)
  end.

(** The transaction configuration a request carries. *)
Definition config_of (r : request) : TransactionConfig :=
  match r with
  | EthCall t => t
  | EthSendTransaction t => t
  end.

(** The same input with another [maxPriorityFeePerGas]. *)
Definition with_tip (tip : jsfield) (fields : InputFields) : InputFields :=
  {| chain := chain fields;
     contractAddress := contractAddress fields;
     functionDeclaration := functionDeclaration fields;
     parameters := parameters fields;
     f_maxFeePerGas := f_maxFeePerGas fields;
     f_maxPriorityFeePerGas := tip;
     gasLimit := gasLimit fields;
     dryRun := dryRun fields |}.

End CallSmartContract.

Arguments Simulated {receipt} returnValue estimatedGas minFee.
Arguments Sent {receipt} result.
Arguments chain {value} _.
Arguments contractAddress {value} _.
Arguments functionDeclaration {value} _.
Arguments parameters {value} _.
Arguments f_maxFeePerGas {value} _.
Arguments f_maxPriorityFeePerGas {value} _.
Arguments gasLimit {value} _.
Arguments dryRun {value} _.
Arguments with_tip {value} tip fields.
Arguments config_of r : simpl nomatch.

End Call.

(** ** A small instance of the environment

    The theorems below hold for every ABI coder and every node.  Concrete
    inputs are run against this instance: values are strings, a value is
    encoded by lowering its letters, an indexed input decodes to the topic
    of its rank and any other input to the data of the log; a function
    of [Object.prototype] is the text of its name in brackets. *)

Module Sample.
Import JsString Decl.

Definition encodeEventSignature (eventInfo : EventAbi) : string :=
  ev_name eventInfo.

Definition encodeParameter (type : string) (v : string) : string :=
  toLowerCase v.

Definition prototype_value (name : string) : string :=
  ("[" ++ name ++ "]")%string.

Fixpoint decodeLog (inputs : list EventInput) (data : string)
         (topics : list string) (name : string) : string :=
  match inputs with
  | [] => EmptyString
  | input :: rest =>
      if in_indexed input
      then if String.eqb (in_name input) name then hd EmptyString topics
           else decodeLog rest data (tl topics) name
      else if String.eqb (in_name input) name then data
           else decodeLog rest data topics name
  end.

Definition log (hash : string) (number : Z) (topics : list string)
           (data : string) : EventTrigger.Log :=
  {| EventTrigger.address := "0xc0ffee";
     EventTrigger.data := data;
     EventTrigger.topics := topics;
     EventTrigger.logIndex := 0;
     EventTrigger.transactionIndex := 0;
     EventTrigger.transactionHash := "0x7a";
     EventTrigger.blockHash := hash;
     EventTrigger.blockNumber := number;
     EventTrigger.removed := false |}.

(** [Transfer(address indexed from, address indexed to, uint256 value)] *)
Definition transfer_inputs : list EventInput :=
  [ {| in_indexed := true; in_type := "address"; in_name := "from" |};
    {| in_indexed := true; in_type := "address"; in_name := "to" |};
    {| in_indexed := false; in_type := "uint256"; in_name := "value" |} ].

Definition to_abc : gmap string string := {[ "to" := "0xABC" ]}.

(** A filter on the amount, which is not indexed: the node delivers
    the transfers of every amount. *)
Definition value_9 : gmap string string := {[ "value" := "9" ]}.

(** A transfer to [0xdef] in block 10 and one to [0xabc] in block 12. *)
Definition log_def_10 : EventTrigger.Log :=
  log "0xb10" 10 ["Transfer"; "0x111"; "0xdef"] "7".
Definition log_abc_12 : EventTrigger.Log :=
  log "0xb12" 12 ["Transfer"; "0x111"; "0xabc"] "9".
Definition log_abc_10 : EventTrigger.Log :=
  log "0xb10" 10 ["Transfer"; "0x111"; "0xabc"] "8".
(** A transfer of 9 in block 10. *)
Definition log_nine_10 : EventTrigger.Log :=
  log "0xb10" 10 ["Transfer"; "0x111"; "0xdef"] "9".

(** The node reports block [0xb10] as removed. *)
Definition removed_b10 : EventTrigger.Log :=
  {| EventTrigger.address := "0xc0ffee";
     EventTrigger.data := "7";
     EventTrigger.topics := ["Transfer"; "0x111"; "0xdef"];
     EventTrigger.logIndex := 0;
     EventTrigger.transactionIndex := 0;
     EventTrigger.transactionHash := "0x7a";
     EventTrigger.blockHash := "0xb10";
     EventTrigger.blockNumber := 10;
     EventTrigger.removed := true |}.

(** [Stored(uint256 _rawEvent)], a filter on its parameter and a log
    that matches it. *)
Definition stored_inputs : list EventInput :=
  [ {| in_indexed := false; in_type := "uint256"; in_name := "_rawEvent" |} ].
Definition raw_is_5 : gmap string string := {[ "_rawEvent" := "5" ]}.
Definition log_stored : EventTrigger.Log := log "0xb10" 10 ["Stored"] "5".

(** [Set(uint256 indexed toString)] and [Set(uint256 valueOf)]: a
    parameter with a name of [Object.prototype]. *)
Definition toString_inputs : list EventInput :=
  [ {| in_indexed := true; in_type := "uint256"; in_name := "toString" |} ].
Definition valueOf_inputs : list EventInput :=
  [ {| in_indexed := false; in_type := "uint256"; in_name := "valueOf" |} ].
Definition log_set : EventTrigger.Log := log "0xb10" 10 ["Set"] "5".

Definition pass :=
  EventTrigger.on_header string encodeParameter decodeLog prototype_value.
Definition process :=
  EventTrigger.process_entry string encodeParameter decodeLog prototype_value.

(** A chain whose block 12 comes without its transaction list. *)
Definition getBlock (n : Z) : TxTrigger.BlockWithTransactions :=
  {| TxTrigger.blk_number := n;
     TxTrigger.blk_transactions :=
       if n =? 12 then None
       else Some [ {| TxTrigger.tx_hash := "0x01";
                      TxTrigger.tx_from := "0xAbC";
                      TxTrigger.tx_to := Some "0xdef" |};
                   {| TxTrigger.tx_hash := "0x02";
                      TxTrigger.tx_from := "0x123";
                      TxTrigger.tx_to := None |} ] |}.

Definition from_abc : TxTrigger.Fields :=
  {| TxTrigger.chain := "eip155:1";
     TxTrigger.from := Some "0xabc";
     TxTrigger.to := None |}.

(** A filter on a sender written without [0x]. *)
Definition from_plain : TxTrigger.Fields :=
  {| TxTrigger.chain := "eip155:1";
     TxTrigger.from := Some "abc";
     TxTrigger.to := None |}.

(** The node and the signer of [callSmartContract]. *)
Definition encodeFunctionCall (f : FunctionAbi) (args : list string) : string :=
  String.concat "," (fn_name f :: args).

(** A quantity of the node, zero when the integer is out of range. *)
Definition safe_of (z : Z) : JsNumber.safe_integer :=
  match JsNumber.is_safe z as b
        return JsNumber.is_safe z = b -> JsNumber.safe_integer with
  | true => fun H => {| JsNumber.safe_value := z; JsNumber.safe_range := H |}
  | false => fun _ => {| JsNumber.safe_value := 0; JsNumber.safe_range := eq_refl |}
  end eq_refl.

(** A node that estimates [estimate] units of gas for every
    transaction and whose pending block has the base fee [baseFee]. *)
Definition call_with (estimate baseFee : Z) :=
  Call.callSmartContract string string prototype_value encodeFunctionCall "0x51"
    (fun _ => 7) (fun _ => safe_of estimate) (safe_of baseFee)
    (fun _ => "0x01") (fun _ => "0x7a").

Definition call (baseFee : Z) := call_with 50000 baseFee.

Definition fields : Call.InputFields string :=
  {| Call.chain := "eip155:1";
     Call.contractAddress := "0xc0ffee";
     Call.functionDeclaration := "function transfer(address to, uint256 amount)";
     Call.parameters := {[ "to" := "0xabc"; "amount" := "10" ]};
     Call.f_maxFeePerGas := Call.Absent;
     Call.f_maxPriorityFeePerGas := Call.Absent;
     Call.gasLimit := Call.Absent;
     Call.dryRun := false |}.

(** The same input with a budget of 0.01 ether. *)
Definition fields_budget : Call.InputFields string :=
  {| Call.chain := "eip155:1";
     Call.contractAddress := "0xc0ffee";
     Call.functionDeclaration := "function transfer(address to, uint256 amount)";
     Call.parameters := {[ "to" := "0xabc"; "amount" := "10" ]};
     Call.f_maxFeePerGas := Call.Absent;
     Call.f_maxPriorityFeePerGas := Call.Absent;
     Call.gasLimit := Call.Num (JsNumber.of_Z (10 ^ 16));
     Call.dryRun := false |}.

(** The same input with a budget of 0.014430129999999999 ether, given
    as a string. *)
Definition fields_tight : Call.InputFields string :=
  {| Call.chain := "eip155:1";
     Call.contractAddress := "0xc0ffee";
     Call.functionDeclaration := "function transfer(address to, uint256 amount)";
     Call.parameters := {[ "to" := "0xabc"; "amount" := "10" ]};
     Call.f_maxFeePerGas := Call.Absent;
     Call.f_maxPriorityFeePerGas := Call.Absent;
     Call.gasLimit := Call.Str "0.014430129999999999";
     Call.dryRun := false |}.

(** The same input with the budget [b]. *)
Definition budgeted (b : Call.jsfield) : Call.InputFields string :=
  {| Call.chain := "eip155:1";
     Call.contractAddress := "0xc0ffee";
     Call.functionDeclaration := "function transfer(address to, uint256 amount)";
     Call.parameters := {[ "to" := "0xabc"; "amount" := "10" ]};
     Call.f_maxFeePerGas := Call.Absent;
     Call.f_maxPriorityFeePerGas := Call.Absent;
     Call.gasLimit := b;
     Call.dryRun := false |}.

(** The number 1.5 *)
Definition one_and_a_half : JsNumber.number :=
  JsNumber.div (JsNumber.of_Z 3) (JsNumber.of_Z 2).

Definition transfer_info : FunctionAbi :=
  {| fn_name := "transfer";
     fn_inputs := [ {| fin_type := "address"; fin_name := "to" |};
                    {| fin_type := "uint256"; fin_name := "amount" |} ];
     fn_constant := false;
     fn_payable := false;
     fn_stateMutability := nonpayable |}.

(** The request [call (100 gwei) fields] ends with. *)
Definition sent_config : Call.TransactionConfig :=
  {| Call.tx_from := "0x51";
     Call.tx_to := "0xc0ffee";
     Call.tx_data := "transfer,0xabc,10";
     Call.tx_nonce := 7;
     Call.tx_gas := Some (JsNumber.of_Z 56001);
     Call.tx_maxFeePerGas := Some (JsNumber.of_Z 175000000000);
     Call.tx_maxPriorityFeePerGas := Some (JsNumber.of_Z 74999999999) |}.

End Sample.


(** ** The endpoint of [getWeb3] *)

Module Endpoint.
Import JsString.

(** [CHAIN_MAPPING], in the order of the source. *)
Definition CHAIN_MAPPING : list (string * string) :=
  [ ("eip155:1", "eth");
    ("eip155:42161", "arbitrum");
    ("eip155:100", "gnosis");
    ("eip155:137", "polygon");
    ("eip155:42220", "celo");
    ("eip155:43114", "avalanche");
    ("eip155:56", "bsc");
    ("eip155:250", "fantom");
    ("eip155:245022934", "solana");
    ("eip155:80001", "wss://rpc-mumbai.matic.today/") ]%string.

(** [CHAIN_MAPPING[chain]] *)
Fixpoint mapping (table : list (string * string)) (chain : string) : option string :=
  match table with
  | [] => None
  | (k, v) :: rest => if String.eqb k chain then Some v else mapping rest chain
  end.

(** [s.includes(needle)] *)
Fixpoint starts_with (needle s : list ascii) : bool :=
  match needle, s with
  | [], _ => true
  | a :: needle', b :: s' => Ascii.eqb a b && starts_with needle' s'
  | _ :: _, [] => false
  end.

Fixpoint includes_text (needle s : list ascii) : bool :=
  starts_with needle s
  || match s with
     | [] => false
     | _ :: s' => includes_text needle s'
     end.

(** Read through [CHAIN_MAPPING[chain]], a name of [Object.prototype]
    gives a value that is neither [undefined] nor a string: the
    optional chain goes on, finds no [includes] on it and calls
    [undefined], a [TypeError]. *)
Definition Object_prototype : list string := JsObject.Object_prototype.

Definition inherited (chain : string) : bool :=
  existsb (String.eqb chain) Object_prototype.

(** The [url] of [getWeb3(chain)], or [None] when its computation
    throws the [TypeError]; a [chain] of [None] is a call without
    argument, for which the default ["eth"] is taken, and [ankr_key] is
    the text the template makes of [process.env.ANKR_KEY]. *)
Definition url (chain : option string) (ankr_key : string) : option string :=
  let chain := default "eth"%string chain in
  match mapping CHAIN_MAPPING chain with
  | Some mapped =>
      Some (if includes_text (chars "://") (chars mapped) then mapped
            else ("wss://rpc.ankr.com/"
                    ++ (if String.eqb mapped EmptyString then chain else mapped)
                    ++ "/ws/" ++ ankr_key)%string)
  | None =>
      if inherited chain then None
      else Some ("wss://rpc.ankr.com/" ++ chain ++ "/ws/" ++ ankr_key)%string
  end.

End Endpoint.

(** ** What the function pattern accepts, and well-formed descriptors *)

Module FunctionDecl.
Import JsString Decl.

(** The end of a function declaration: white space, then a last text
    with no white space in front and no line terminator in it. *)
Definition function_end (rest suffix : list ascii) : Prop :=
  exists ws,
    spaces ws /\ rest = ws ++ suffix /\ stops is_space suffix /\
    Forall (fun c => is_line_terminator c = false) suffix.

(** The shape of a function declaration: optional [function] keyword,
    name, parenthesised parameter text, and the modifiers. *)
Definition function_shape (s name params suffix : list ascii) : Prop :=
  exists ws0 k t rest,
    s = ws0 ++ k ++ t /\ spaces ws0 /\ keyword_shape "function" k /\
    head_shape t name params rest /\ function_end rest suffix.

(** A parameter text with fewer than two tokens. *)
Definition short_parameter (q : list ascii) : Prop :=
  (length (tokens q) < 2)%nat.

(** The input a parameter text of a function stands for: the first
    token is the type and the last one the name, whatever lies
    between them. *)
Definition describes_function (q : list ascii) (input : FunctionInput) : Prop :=
  fin_type input = str (hd [] (tokens q)) /\
  fin_name input = str (List.last (tokens q) []).

(** The mutability the modifiers select. *)
Definition mutability_of (modifiers : list (list ascii)) (m : StateMutability) : Prop :=
  match m with
  | pure => In (chars "pure") modifiers
  | view => In (chars "view") modifiers /\ ~ In (chars "pure") modifiers
  | payable => In (chars "payable") modifiers /\ ~ In (chars "view") modifiers
               /\ ~ In (chars "pure") modifiers
  | nonpayable => ~ In (chars "payable") modifiers /\ ~ In (chars "view") modifiers
                  /\ ~ In (chars "pure") modifiers
  end.

(** A token: a non-empty text without white space, comma or closing
    parenthesis. *)
Definition clean (s : string) : Prop :=
  chars s <> [] /\
  Forall (fun c => is_space c = false /\ c <> ","%char /\ c <> ")"%char) (chars s).

(** The number of occurrences of a character. *)
Definition occurrences (c : ascii) (l : list ascii) : nat :=
  length (List.filter (Ascii.eqb c) l).

End FunctionDecl.

(** ** Variations of the input of [callSmartContract] *)

Module CallInput.
Import Call.

(** The same input with another parameter bag. *)
Definition with_parameters {value} (ps : gmap string value)
           (fields : InputFields value) : InputFields value :=
  {| chain := chain fields;
     contractAddress := contractAddress fields;
     functionDeclaration := functionDeclaration fields;
     parameters := ps;
     f_maxFeePerGas := f_maxFeePerGas fields;
     f_maxPriorityFeePerGas := f_maxPriorityFeePerGas fields;
     gasLimit := gasLimit fields;
     dryRun := dryRun fields |}.

(** The same input with another [maxFeePerGas]. *)
Definition with_maxFee {value} (m : jsfield)
           (fields : InputFields value) : InputFields value :=
  {| chain := chain fields;
     contractAddress := contractAddress fields;
     functionDeclaration := functionDeclaration fields;
     parameters := parameters fields;
     f_maxFeePerGas := m;
     f_maxPriorityFeePerGas := f_maxPriorityFeePerGas fields;
     gasLimit := gasLimit fields;
     dryRun := dryRun fields |}.

End CallInput.

(** ** More concrete inputs *)

Module MoreSamples.
Import Decl.

(** [balanceOf], declared with a visibility, [view] and a return type. *)
Definition balanceOf_declaration : string :=
  "function balanceOf(address owner) public view returns (uint256)".

Definition balanceOf_info : FunctionAbi :=
  {| fn_name := "balanceOf";
     fn_inputs := [ {| fin_type := "address"; fin_name := "owner" |} ];
     fn_constant := true;
     fn_payable := false;
     fn_stateMutability := view |}.

Definition transfer_event_declaration : string :=
  "event Transfer(address indexed from, address indexed to, uint256 value);".

Definition transfer_event : EventAbi :=
  {| ev_name := "Transfer"; ev_inputs := Sample.transfer_inputs |}.

(** A node that has the transaction list of every block. *)
Definition getBlock_full (n : Z) : TxTrigger.BlockWithTransactions :=
  {| TxTrigger.blk_number := n;
     TxTrigger.blk_transactions :=
       Some [ {| TxTrigger.tx_hash := "0x01";
                 TxTrigger.tx_from := "0xAbC";
                 TxTrigger.tx_to := Some "0xdef" |} ] |}.

(** A filter on a name that is not a parameter of [Transfer]. *)
Definition amount_9 : gmap string string := {[ "amount" := "9" ]}.

(** Filters on [to], which is indexed, and on [value], which is not. *)
Definition to_abc_value_9 : gmap string string :=
  {[ "to" := "0xABC"; "value" := "9" ]}.

(** The parameters of [Sample.fields] and one the declaration does not
    name. *)
Definition parameters_with_memo : gmap string string :=
  {[ "to" := "0xabc"; "amount" := "10"; "memo" := "rent" ]}.

End MoreSamples.

(** * Properties *)

(** ** Reasoning about [outcome] *)

Lemma bind_Return {A B} (m : outcome A) (k : A -> outcome B) (b : B) :
  (m ≫= k) = Return b -> exists a, m = Return a /\ k a = Return b.
Proof. destruct m as [a|e]; simpl; [eauto | discriminate]. Qed.

Lemma bind_Throw {A B} (m : outcome A) (k : A -> outcome B) (e : exn) :
  (m ≫= k) = Throw e ->
  m = Throw e \/ exists a, m = Return a /\ k a = Throw e.
Proof. destruct m as [a|e']; simpl; [eauto | intros [= ->]; now left]. Qed.

Lemma throws_bind {A B} (m : outcome A) (k : A -> outcome B) :
  throws (m ≫= k) <-> throws m \/ exists a, m = Return a /\ throws (k a).
Proof.
  destruct m as [a|e]; simpl; split; intros H.
  - right; eauto.
  - destruct H as [[]|(a' & [= <-] & H)]; exact H.
  - now left.
  - exact I.
Qed.

(** ** Plain objects *)

Module JsObjectFacts.
Import JsObject.

Lemma inherited_spec name : inherited name = true <-> In name Object_prototype.
Proof.
  unfold inherited. rewrite existsb_exists. split.
  - intros (x & Hx & E). apply String.eqb_eq in E. now subst x.
  - intros H. exists name. split; [assumption|apply String.eqb_refl].
Qed.

Section Lookup.
Context {value : Type} (prototype_value : string -> value).
Variable own : gmap string value.

(** A name is in an object when it is an own key or a name of the
    prototype. *)
Lemma get_is_Some name :
  is_Some (get prototype_value own name)
  <-> is_Some (own !! name) \/ In name Object_prototype.
Proof.
  unfold get. rewrite <- inherited_spec. destruct (own !! name) as [v|].
  - split; [intros _; left; eauto|intros _; eauto].
  - destruct (inherited name); split.
    + intros _. now right.
    + intros _. eauto.
    + intros [? [=]].
    + intros [[? [=]]|[=]].
Qed.

Lemma get_None name :
  get prototype_value own name = None
  <-> own !! name = None /\ ~ In name Object_prototype.
Proof.
  rewrite <- inherited_spec. unfold get. destruct (own !! name) as [v|].
  - split; [discriminate|intros [[=] _]].
  - destruct (inherited name); split.
    + discriminate.
    + intros [_ H]. now exfalso; apply H.
    + intros _. split; [reflexivity|discriminate].
    + reflexivity.
Qed.
End Lookup.

End JsObjectFacts.

(** ** Spans, [trim] and the two ways of cutting a text at white space *)

Module JsStringFacts.
Import JsString.

Section SpanFacts.
Context {A : Type} (p : A -> bool).

Lemma take_drop_while l : take_while p l ++ drop_while p l = l.
Proof.
  induction l as [|x r IH]; simpl; [reflexivity|].
  destruct (p x); simpl; [now rewrite IH | reflexivity].
Qed.

Lemma take_while_all l : Forall (fun x => p x = true) (take_while p l).
Proof.
  induction l as [|x r IH]; simpl; [constructor|].
  destruct (p x) eqn:E; constructor; assumption.
Qed.

Lemma drop_while_stops l : stops p (drop_while p l).
Proof.
  induction l as [|x r IH]; simpl; [exact I|].
  destruct (p x) eqn:E; [exact IH | exact E].
Qed.

Lemma take_while_app a b :
  Forall (fun x => p x = true) a -> stops p b -> take_while p (a ++ b) = a.
Proof.
  intros Ha Hb. induction Ha as [|x a Hx Ha IH]; simpl.
  - destruct b as [|y b]; simpl in *; [reflexivity|now rewrite Hb].
  - now rewrite Hx, IH.
Qed.

Lemma drop_while_app a b :
  Forall (fun x => p x = true) a -> stops p b -> drop_while p (a ++ b) = b.
Proof.
  intros Ha Hb. induction Ha as [|x a Hx Ha IH]; simpl.
  - destruct b as [|y b]; simpl in *; [reflexivity|now rewrite Hb].
  - now rewrite Hx.
Qed.

Lemma drop_while_id l : stops p l -> drop_while p l = l.
Proof. intros H. apply (drop_while_app [] l); [constructor|exact H]. Qed.

Lemma drop_while_all l : Forall (fun x => p x = true) l -> drop_while p l = [].
Proof.
  intros H. rewrite <- (app_nil_r l). now apply drop_while_app.
Qed.

Lemma drop_while_nil l : drop_while p l = [] -> Forall (fun x => p x = true) l.
Proof.
  intros H. rewrite <- (take_drop_while l), H, app_nil_r. apply take_while_all.
Qed.

Lemma take_while_nil l : take_while p l = [] -> stops p l.
Proof. destruct l as [|x r]; simpl; [easy|]. now destruct (p x). Qed.
End SpanFacts.

Lemma trim_split l :
  exists w1 w2, l = w1 ++ trim l ++ w2 /\ spaces w1 /\ spaces w2 /\ trimmed (trim l).
Proof.
  unfold trim.
  set (d := drop_while is_space l).
  exists (take_while is_space l), (rev (take_while is_space (rev d))).
  assert (Hd : d = rev (drop_while is_space (rev d)) ++ rev (take_while is_space (rev d))).
  { rewrite <- rev_app_distr, take_drop_while. now rewrite rev_involutive. }
  repeat split.
  - rewrite <- Hd. symmetry. apply take_drop_while.
  - apply take_while_all.
  - apply List.Forall_rev, take_while_all.
  - pose proof (drop_while_stops is_space l) as Hs. fold d in Hs.
    rewrite Hd in Hs.
    destruct (rev (drop_while is_space (rev d))) as [|c t] eqn:E; [exact I|exact Hs].
  - rewrite rev_involutive. apply drop_while_stops.
Qed.

Lemma tokens_from_spaces cur w :
  spaces w ->
  tokens_from cur w = match cur with [] => [] | _ => [rev cur] end.
Proof.
  intros Hw. revert cur. induction Hw as [|c w Hc Hw IH]; intros cur; simpl.
  - reflexivity.
  - rewrite Hc. destruct cur; rewrite IH; reflexivity.
Qed.

Lemma tokens_from_app_spaces cur a w :
  spaces w -> tokens_from cur (a ++ w) = tokens_from cur a.
Proof.
  intros Hw. revert cur. induction a as [|c a IH]; intros cur; simpl.
  - now apply tokens_from_spaces.
  - destruct (is_space c); [destruct cur|]; now rewrite IH.
Qed.

Lemma tokens_spaces_app w a :
  spaces w -> tokens (w ++ a) = tokens a.
Proof.
  unfold tokens. intros Hw. induction Hw as [|c w Hc Hw IH]; simpl; [reflexivity|].
  now rewrite Hc.
Qed.

Lemma tokens_trim l : tokens (trim l) = tokens l.
Proof.
  destruct (trim_split l) as (w1 & w2 & E & H1 & H2 & _).
  rewrite E at 2. rewrite tokens_spaces_app by assumption.
  unfold tokens. now rewrite tokens_from_app_spaces.
Qed.

Lemma tokens_from_nonempty c cur l : tokens_from (c :: cur) l <> [].
Proof.
  revert c cur. induction l as [|x l IH]; intros c cur; simpl; [discriminate|].
  destruct (is_space x); [discriminate|apply IH].
Qed.

(** On a text that does not end in white space the two scanners agree
    once a piece has been started or a run of white space entered. *)
Lemma split_ws_tokens_from l :
  stops is_space (rev l) ->
  (forall c cur, split_ws_from false (c :: cur) l = tokens_from (c :: cur) l) /\
  (l <> [] -> split_ws_from true [] l = tokens_from [] l).
Proof.
  induction l as [|x l IH]; intros Hend.
  - split; [reflexivity|congruence].
  - assert (Hl : stops is_space (rev l)).
    { destruct l as [|y l]; [exact I|].
      simpl in Hend. simpl.
      destruct (rev l ++ [y]) as [|z t] eqn:E; [exact I|exact Hend]. }
    assert (Hx : is_space x = true -> l <> []).
    { intros Hsp ->. simpl in Hend. congruence. }
    destruct (IH Hl) as [IH1 IH2]. split.
    + intros c cur. simpl. destruct (is_space x) eqn:Hsp.
      * now rewrite IH2 by auto.
      * apply IH1.
    + intros _. simpl. destruct (is_space x) eqn:Hsp.
      * apply IH2; auto.
      * apply IH1.
Qed.

(** [p.trim().split(/\s+/)] lists the tokens of [p], except that a text
    without tokens yields one empty piece. *)
Lemma parts_tokens l :
  split_ws (trim l) = match tokens l with [] => [[]] | ts => ts end.
Proof.
  rewrite <- tokens_trim.
  destruct (trim_split l) as (_ & _ & _ & _ & _ & Hs & He).
  destruct (trim l) as [|c t] eqn:E; [reflexivity|].
  unfold split_ws, tokens. simpl in *. rewrite Hs.
  assert (Ht : stops is_space (rev t)).
  { destruct t as [|y t]; [exact I|]. simpl in *.
    destruct (rev t ++ [y]) as [|z u] eqn:E'; [exact I|exact He]. }
  destruct (split_ws_tokens_from t Ht) as [H1 _]. rewrite H1.
  destruct (tokens_from [c] t) eqn:E'; [|reflexivity].
  now apply tokens_from_nonempty in E'.
Qed.

Lemma parts_length l :
  (length (tokens l) = 2 \/ length (tokens l) = 3 <->
   length (split_ws (trim l)) = 2 \/ length (split_ws (trim l)) = 3)%nat.
Proof.
  rewrite parts_tokens. destruct (tokens l) as [|t ts]; simpl; [lia|tauto].
Qed.

Lemma str_chars s : str (chars s) = s.
Proof. apply string_of_list_ascii_of_string. Qed.

Lemma chars_str l : chars (str l) = l.
Proof. apply list_ascii_of_string_of_list_ascii. Qed.

Lemma str_inj a b : str a = str b -> a = b.
Proof. intros H. rewrite <- (chars_str a), <- (chars_str b). now f_equal. Qed.

End JsStringFacts.

(** ** The declaration patterns and [parseEventDeclaration] *)

Module DeclFacts.
Import JsString JsStringFacts Decl.

(** Facts about the character classes, by enumeration of the 256 code
    units. *)
Ltac by_enumeration :=
  let c := fresh "c" in
  intros c; destruct c as [[] [] [] [] [] [] [] []]; vm_compute; auto; discriminate.

Lemma space_not_word : forall c, is_space c = true -> is_word c = false.
Proof. by_enumeration. Qed.


Lemma blank_is : forall c, is_blank c = true -> c = " "%char.
Proof. by_enumeration. Qed.



Lemma word_not_blank : forall c, is_word c = true -> is_blank c = false.
Proof. by_enumeration. Qed.

Lemma word_not_space : forall c, is_word c = true -> is_space c = false.
Proof. by_enumeration. Qed.

Lemma not_rparen_is : forall c, not_rparen c = false -> c = ")"%char.
Proof. by_enumeration. Qed.

Lemma eqb_true_is (a b : ascii) : Ascii.eqb a b = true -> a = b.
Proof. apply Ascii.eqb_eq. Qed.

Lemma stops_app {A} (p : A -> bool) a b :
  a <> [] -> stops p a -> stops p (a ++ b).
Proof. destruct a; [congruence|auto]. Qed.

Lemma stops_spaces_word w t :
  spaces w -> stops is_word t -> stops is_word (w ++ t).
Proof.
  intros Hw Ht. destruct Hw as [|c w Hc Hw]; [exact Ht|].
  simpl. now apply space_not_word.
Qed.

(** *** The head: name, white space, parenthesised parameters *)

Lemma exec_head_sound s name params rest :
  exec_head s = Some (name, params, rest) -> head_shape s name params rest.
Proof.
  unfold exec_head. intros H.
  pose proof (take_drop_while is_word s) as Es.
  pose proof (take_while_all is_word s) as Hn.
  destruct (take_while is_word s) as [|n0 n1] eqn:En; [discriminate|].
  pose proof (take_drop_while is_space (drop_while is_word s)) as Ew.
  pose proof (take_while_all is_space (drop_while is_word s)) as Hw.
  destruct (drop_while is_space (drop_while is_word s)) as [|c r] eqn:Ed; [discriminate|].
  destruct (Ascii.eqb_spec c "(") as [-> |]; cycle 1.
  { destruct c as [[] [] [] [] [] [] [] []]; try discriminate. congruence. }
  assert (H' : match take_while not_rparen r with
               | [] => None
               | a :: l => match drop_while not_rparen r with
                           | ")"%char :: rest => Some (a :: l, rest)
                           | _ => None
                           end
               end = Some (params, rest)).
  { destruct (take_while not_rparen r); [discriminate|].
    destruct (drop_while not_rparen r) as [|c' r']; [discriminate|].
    destruct (Ascii.eqb_spec c' ")") as [-> |]; cycle 1.
    { destruct c' as [[] [] [] [] [] [] [] []]; try discriminate. congruence. }
    congruence. }
  assert (name = n0 :: n1).
  { destruct (take_while not_rparen r); [discriminate|].
    destruct (drop_while not_rparen r) as [|c' r']; [discriminate|].
    destruct c' as [[] [] [] [] [] [] [] []]; try discriminate. congruence. }
  subst name. clear H.
  pose proof (take_drop_while not_rparen r) as Er.
  pose proof (take_while_all not_rparen r) as Hp.
  destruct (take_while not_rparen r) as [|p0 p1] eqn:Ep; [discriminate|].
  destruct (drop_while not_rparen r) as [|c' r'] eqn:Edr; [discriminate|].
  destruct (Ascii.eqb_spec c' ")") as [-> |]; cycle 1.
  { destruct c' as [[] [] [] [] [] [] [] []]; try discriminate. congruence. }
  injection H' as <- <-.
  exists (take_while is_space (drop_while is_word s)).
  repeat split; try assumption; try discriminate.
  rewrite <- Es at 1. f_equal. rewrite <- Ew at 1. f_equal. f_equal. exact (eq_sym Er).
Qed.

Lemma exec_head_complete s name params rest :
  head_shape s name params rest -> exec_head s = Some (name, params, rest).
Proof.
  intros (ws & Hws & (Hne & Hn) & (Hpe & Hp) & ->). unfold exec_head.
  assert (S1 : stops is_word (ws ++ "("%char :: params ++ ")"%char :: rest)).
  { apply stops_spaces_word; [assumption|reflexivity]. }
  rewrite (take_while_app _ _ _ Hn S1), (drop_while_app _ _ _ Hn S1).
  destruct name as [|n0 n1]; [congruence|].
  rewrite (drop_while_app is_space ws) by (assumption || reflexivity).
  rewrite (take_while_app not_rparen params) by (assumption || reflexivity).
  rewrite (drop_while_app not_rparen params) by (assumption || reflexivity).
  destruct params; [congruence|reflexivity].
Qed.

Lemma exec_head_stops s : stops is_word s -> exec_head s = None.
Proof.
  intros H. unfold exec_head.
  destruct s as [|c r]; [reflexivity|]. simpl in *. now rewrite H.
Qed.

(** *** The keyword group *)

Lemma strip_prefix_app pre t : strip_prefix pre (pre ++ t) = Some t.
Proof.
  induction pre as [|a pre IH]; simpl; [reflexivity|].
  now rewrite Ascii.eqb_refl.
Qed.

Lemma strip_prefix_inv pre s t : strip_prefix pre s = Some t -> s = pre ++ t.
Proof.
  revert s. induction pre as [|a pre IH]; intros s; simpl.
  - now intros [= ->].
  - destruct s as [|b s]; [discriminate|].
    destruct (Ascii.eqb_spec a b) as [-> |]; [|discriminate].
    intros H. now rewrite (IH _ H).
Qed.

Lemma blanks_repeat l :
  Forall (fun c => is_blank c = true) l -> l = repeat " "%char (length l).
Proof.
  induction 1 as [|c l Hc Hl IH]; simpl; [reflexivity|].
  now rewrite (blank_is c Hc), <- IH.
Qed.

Lemma repeat_blank n : Forall (fun c => is_blank c = true) (repeat " "%char n).
Proof. induction n; simpl; constructor; auto. Qed.

Lemma exec_keyword_sound kw s t :
  exec_keyword kw s = Some t ->
  exists n, s = (chars kw ++ repeat " "%char (S n)) ++ t /\ stops is_blank t.
Proof.
  unfold exec_keyword. intros H.
  destruct (strip_prefix (chars kw) s) as [[|c r]|] eqn:E; try discriminate.
  destruct (is_blank c) eqn:Hc; [|discriminate].
  injection H as <-. apply strip_prefix_inv in E. subst s.
  exists (length (take_while is_blank r)). split; [|apply drop_while_stops].
  rewrite <- app_assoc. f_equal. simpl.
  rewrite (blank_is c Hc). f_equal.
  rewrite <- blanks_repeat by apply take_while_all.
  symmetry. apply take_drop_while.
Qed.

Lemma exec_keyword_complete kw n t :
  stops is_blank t ->
  exec_keyword kw ((chars kw ++ repeat " "%char (S n)) ++ t) = Some t.
Proof.
  intros Ht. unfold exec_keyword.
  rewrite <- app_assoc, strip_prefix_app. simpl.
  now rewrite (drop_while_app is_blank _ _ (repeat_blank n) Ht).
Qed.

(** When a text starts with white space and a parenthesis, the character
    after a run of spaces at its start is one of them. *)
Lemma after_blanks ws n c u more :
  spaces ws ->
  " "%char :: repeat " "%char n ++ c :: u = (ws ++ ["("%char]) ++ more ->
  In c (ws ++ ["("%char]).
Proof.
  intros Hw. revert n. induction Hw as [|w0 ws' Hw0 Hws' IH]; intros n E; simpl in *.
  - injection E as E _. discriminate.
  - injection E as _ E. destruct n as [|n]; simpl in *.
    + destruct ws'; simpl in *; injection E as -> _; auto.
    + right. apply (IH n). exact E.
Qed.

(** *** The whole pattern *)

Lemma head_shape_stops_space t name params rest :
  head_shape t name params rest -> stops is_space t /\ stops is_blank t.
Proof.
  intros (ws & _ & (Hne & Hn) & _ & ->).
  destruct Hn as [|c n Hc Hn]; [congruence|]. simpl.
  split; [now apply word_not_space|now apply word_not_blank].
Qed.

Lemma exec_decl_sound {T} kw (tail : list ascii -> option T) s name params x :
  exec_decl kw tail s = Some (name, params, x) ->
  decl_shape kw tail s name params x.
Proof.
  unfold exec_decl. intros H.
  set (s1 := drop_while is_space s) in *.
  set (attempt := exec_rest tail) in *.
  assert (Hat : forall t, attempt t = Some (name, params, x) ->
                exists rest, head_shape t name params rest /\ tail rest = Some x).
  { intros t. unfold attempt, exec_rest.
    destruct (exec_head t) as [[[n p] r]|] eqn:E; [|discriminate].
    destruct (tail r) as [y|] eqn:Et; [|discriminate].
    intros [= -> -> ->]. exists r. split; [now apply exec_head_sound|assumption]. }
  assert (Es : s = take_while is_space s ++ s1)
    by (symmetry; apply take_drop_while).
  assert (Plain : attempt s1 = Some (name, params, x) ->
                  decl_shape kw tail s name params x).
  { intros Ha. destruct (Hat _ Ha) as (rest & Hh & Ht).
    exists (take_while is_space s), [], s1, rest.
    repeat split; try assumption.
    - apply take_while_all.
    - now left. }
  destruct (exec_keyword kw s1) as [t|] eqn:Ek; [|now apply Plain].
  destruct (attempt t) as [r|] eqn:Ea; [|now apply Plain].
  injection H as ->. destruct (Hat _ Ea) as (rest & Hh & Ht).
  destruct (exec_keyword_sound _ _ _ Ek) as (n & E1 & _).
  exists (take_while is_space s), (chars kw ++ repeat " "%char (S n)), t, rest.
  repeat split; try assumption.
  - rewrite Es at 1. f_equal. rewrite E1. now rewrite <- app_assoc.
  - apply take_while_all.
  - right. now exists n.
Qed.

Lemma exec_decl_complete {T} kw (tail : list ascii -> option T) s name params x :
  word_chars (chars kw) ->
  decl_shape kw tail s name params x ->
  exec_decl kw tail s = Some (name, params, x).
Proof.
  intros (Hkne & Hkw) (ws0 & k & t & rest & -> & Hws & Hk & Hh & Ht).
  unfold exec_decl.
  assert (Hhead : exec_head t = Some (name, params, rest))
    by now apply exec_head_complete.
  destruct (head_shape_stops_space _ _ _ _ Hh) as [Hts Htb].
  assert (Hkstop : k <> [] -> stops is_space k).
  { destruct Hk as [-> | (n & ->)]; [congruence|]. intros _.
    apply stops_app; [now destruct (chars kw)|].
    destruct Hkw as [|c l Hc Hl]; [congruence|]. simpl. now apply word_not_space. }
  assert (Hs1 : drop_while is_space (ws0 ++ k ++ t) = k ++ t).
  { apply drop_while_app; [assumption|].
    destruct k as [|c k']; [exact Hts|]. apply (Hkstop ltac:(discriminate)). }
  rewrite Hs1. destruct Hk as [-> | (n & ->)]; simpl app.
  - (* no keyword: the group is tried and given up *)
    destruct (exec_keyword kw t) as [t'|] eqn:Ek; [|unfold exec_rest; now rewrite Hhead, Ht].
    destruct (exec_keyword_sound _ _ _ Ek) as (n & E1 & Hb).
    destruct Hh as (ws & Hw & (Hne & Hn) & Hp & E2).
    assert (Hname : name = chars kw).
    { assert (take_while is_word t = name).
      { rewrite E2. apply take_while_app; [assumption|].
        apply stops_spaces_word; [assumption|reflexivity]. }
      assert (take_while is_word t = chars kw).
      { rewrite E1, <- app_assoc. apply take_while_app; [assumption|reflexivity]. }
      congruence. }
    assert (Hstop : stops is_word t').
    { subst name. rewrite E1, <- app_assoc in E2.
      apply app_inv_head in E2.
      destruct t' as [|c u]; [exact I|]. simpl in *.
      (* the first character of [t'] is white space or the parenthesis *)
      assert (In c (ws ++ ["("%char])).
      { apply (after_blanks ws n c u (params ++ ")"%char :: rest) Hw).
        rewrite <- app_assoc. exact E2. }
      apply in_app_or in H as [Hin|[<-|[]]]; [|reflexivity].
      apply space_not_word. unfold spaces in Hw. rewrite List.Forall_forall in Hw.
      now apply Hw. }
    unfold exec_rest. rewrite (exec_head_stops _ Hstop). now rewrite Hhead, Ht.
  - (* keyword present *)
    change (chars kw ++ " "%char :: repeat " "%char n)
      with (chars kw ++ repeat " "%char (S n)).
    rewrite (exec_keyword_complete kw n t Htb). unfold exec_rest. now rewrite Hhead, Ht.
Qed.

(** *** The end of the event pattern *)

Lemma event_tail_spec rest : event_tail rest = Some tt <-> event_end rest.
Proof.
  unfold event_tail, event_end. split.
  - intros H.
    pose proof (take_drop_while is_space rest) as E.
    pose proof (take_while_all is_space rest) as Hw.
    pose proof (drop_while_stops is_space rest) as Hs.
    destruct (drop_while is_space rest) as [|c r] eqn:Ed.
    + exists (take_while is_space rest), [], []. rewrite app_nil_r in *.
      repeat split; auto. constructor.
    + destruct (Ascii.eqb_spec c ";") as [->|Hc].
      * exists (take_while is_space rest), [";"%char], r. repeat split; auto.
        apply drop_while_nil. now destruct (drop_while is_space r).
      * assert (drop_while is_space (c :: r) = c :: r) by now apply drop_while_id.
        assert (E' : match c with ";"%char => r | _ => c :: r end = c :: r).
        { destruct c as [[] [] [] [] [] [] [] []]; try reflexivity. congruence. }
        rewrite E' in H. rewrite H0 in H. discriminate.
  - intros (ws2 & semi & ws3 & E & H2 & H3 & Hsemi). subst rest.
    destruct Hsemi as [-> | ->]; simpl.
    + rewrite (drop_while_all is_space (ws2 ++ ws3)) by (apply Forall_app_2; auto).
      reflexivity.
    + rewrite (drop_while_app is_space ws2) by (assumption || reflexivity).
      simpl. now rewrite (drop_while_all is_space ws3).
Qed.

Lemma event_tail_unit rest x : event_tail rest = Some x -> event_tail rest = Some tt.
Proof. now destruct x. Qed.

Lemma event_kw : word_chars (chars "event").
Proof. split; [discriminate|]. repeat constructor. Qed.

Lemma function_kw : word_chars (chars "function").
Proof. split; [discriminate|]. repeat constructor. Qed.

(** The matcher of the event pattern finds a match exactly on the
    texts of the event shape, and then with those captures. *)
Lemma exec_event_re_spec s name params :
  exec_event_re s = Some (name, params) <-> event_shape (chars s) name params.
Proof.
  unfold exec_event_re, event_shape. split.
  - destruct (exec_decl "event" event_tail (chars s)) as [[[n p] u]|] eqn:E;
      [|discriminate].
    intros [= -> ->]. apply exec_decl_sound in E.
    destruct E as (ws0 & k & t & rest & E & H0 & Hk & Hh & Ht).
    exists ws0, k, t, rest. repeat split; auto.
    apply event_tail_spec. now destruct u.
  - intros (ws0 & k & t & rest & E & H0 & Hk & Hh & Ht).
    rewrite (exec_decl_complete "event" event_tail (chars s) name params tt);
      [reflexivity|apply event_kw|].
    exists ws0, k, t, rest. repeat split; auto. now apply event_tail_spec.
Qed.

End DeclFacts.

(** ** [parseEventDeclaration] *)

Section MapThrowing.
Context {A B : Type} (f : A -> outcome B).

Lemma map_throwing_throws l :
  throws (map_throwing f l) <-> Exists (fun x => throws (f x)) l.
Proof.
  induction l as [|x l IH]; simpl.
  - split; [intros []|intros H; inversion H].
  - rewrite Exists_cons. destruct (f x) as [y|e]; simpl.
    + rewrite <- IH. destruct (map_throwing f l); simpl; tauto.
    + tauto.
Qed.

Lemma map_throwing_Return l ys :
  map_throwing f l = Return ys -> Forall2 (fun x y => f x = Return y) l ys.
Proof.
  revert ys. induction l as [|x l IH]; simpl; intros ys H.
  - injection H as <-. constructor.
  - destruct (f x) as [y|e] eqn:E; simpl in H; [|discriminate].
    destruct (map_throwing f l) as [zs|e]; simpl in H; [|discriminate].
    injection H as <-. constructor; auto.
Qed.

Lemma map_throwing_first l e :
  map_throwing f l = Throw e ->
  exists before x after,
    l = before ++ x :: after /\ f x = Throw e /\
    Forall (fun y => ~ throws (f y)) before.
Proof.
  induction l as [|x l IH]; simpl; [discriminate|].
  destruct (f x) as [y|e'] eqn:E; simpl.
  - destruct (map_throwing f l) as [zs|e'']; simpl; [discriminate|].
    intros [= ->]. destruct (IH eq_refl) as (b & x' & a & -> & Hx & Hb).
    exists (x :: b), x', a. repeat split; auto.
    constructor; [now rewrite E|assumption].
  - intros [= ->]. exists [], x, l. repeat split; auto.
Qed.
End MapThrowing.

Section ParseEvent.
Import JsString JsStringFacts Decl DeclFacts.

Lemma string_eqb_chars l (w : string) :
  String.eqb (str l) w = true <-> l = chars w.
Proof.
  rewrite String.eqb_eq. split.
  - intros <-. now rewrite chars_str.
  - intros ->. now rewrite str_chars.
Qed.

Lemma event_parameter_throws q :
  throws (event_parameter q) <-> bad_parameter q.
Proof.
  unfold event_parameter, bad_parameter, nth_part. rewrite parts_tokens.
  destruct (tokens q) as [|t0 [|t1 [|t2 [|t3 ts]]]]; simpl; try (intuition (lia || easy)).
  destruct (String.eqb (str t1) "indexed") eqn:E; simpl.
  - apply (proj1 (string_eqb_chars t1 "indexed")) in E. intuition (lia || easy).
  - split; [|easy]. intros _. right. split; [reflexivity|].
    intros Heq. apply (proj2 (string_eqb_chars t1 "indexed")) in Heq. congruence.
Qed.

Lemma event_parameter_Return q input :
  event_parameter q = Return input -> describes q input.
Proof.
  unfold event_parameter, describes, nth_part. rewrite parts_tokens.
  destruct (tokens q) as [|t0 [|t1 [|t2 [|t3 ts]]]]; simpl; try discriminate.
  - intros [= <-]. simpl. auto.
  - destruct (String.eqb (str t1) "indexed"); simpl; [|discriminate].
    intros [= <-]. simpl. auto.
Qed.

(** *** The split at the commas *)

Lemma split_on_whole sep q : ~ In sep q -> split_on sep q = [q].
Proof.
  induction q as [|c q IH]; intros Hq; [reflexivity|]. simpl.
  destruct (Ascii.eqb_spec c sep) as [->|_]; [exfalso; apply Hq; now left|].
  rewrite IH; [reflexivity|]. intros H. apply Hq. now right.
Qed.

Lemma split_on_first sep q r :
  ~ In sep q -> split_on sep (q ++ sep :: r) = q :: split_on sep r.
Proof.
  induction q as [|c q IH]; intros Hq; simpl.
  - now rewrite Ascii.eqb_refl.
  - destruct (Ascii.eqb_spec c sep) as [->|_]; [exfalso; apply Hq; now left|].
    rewrite IH; [reflexivity|]. intros H. apply Hq. now right.
Qed.

Lemma split_on_joined l :
  split_on "," l <> [] /\
  Forall (fun q => ~ In ","%char q) (split_on "," l) /\
  joined (split_on "," l) = l.
Proof.
  induction l as [|c r IH]; simpl.
  - repeat split; [discriminate|]. constructor; [intros []|constructor].
  - destruct IH as (Hne & Hall & Hj).
    destruct (Ascii.eqb_spec c ",") as [->|Hc].
    + split; [discriminate|]. split; [constructor; [intros []|assumption]|].
      destruct (split_on "," r) as [|h t]; [congruence|]. simpl. simpl in Hj.
      now rewrite Hj.
    + destruct (split_on "," r) as [|h t]; [congruence|].
      split; [discriminate|]. pose proof (Forall_inv Hall) as Hh.
      pose proof (Forall_inv_tail Hall) as Ht. split.
      * constructor; [|assumption]. intros [E|Hin]; [congruence|now apply Hh].
      * simpl in Hj. simpl. destruct t; rewrite <- Hj; reflexivity.
Qed.

(** The pieces [split(",")] returns are the comma-separated parameters
    of the text, and there is no other way to separate it. *)
Lemma comma_separated_split params pieces :
  comma_separated params pieces <-> pieces = split_on "," params.
Proof.
  split.
  - intros (Hne & Hall & ->). induction Hall as [|q rest Hq Hall IH].
    + congruence.
    + destruct rest as [|q' rest'].
      * simpl. symmetry. now apply split_on_whole.
      * change (joined (q :: q' :: rest')) with (q ++ ","%char :: joined (q' :: rest')).
        rewrite split_on_first by assumption. now rewrite <- IH.
  - intros ->. destruct (split_on_joined params) as (Hne & Hall & Hj).
    repeat split; auto.
Qed.

(** C7.  [parseEventDeclaration] throws exactly when the text is not of
    the event shape (optional [event] keyword, name over letters,
    digits and underscore, parenthesised comma-separated parameters,
    optional semicolon), or some parameter does not have two or three
    tokens, or has three with a middle token other than [indexed]; the
    exception is one of the two syntax errors; a returned descriptor
    has the declared name and one input for each parameter, in order,
    with the first token as type, the last as name, and [indexed] set
    when there are three tokens. *)
Theorem parseEventDeclaration_spec (s : string) :
  (throws (parseEventDeclaration s) <->
     (~ exists name params, event_shape (chars s) name params) \/
     (exists name params pieces q,
         event_shape (chars s) name params /\
         comma_separated params pieces /\
         In q pieces /\ bad_parameter q)) /\
  (forall e, parseEventDeclaration s = Throw e ->
     e = InvalidEventDeclaration \/ exists p, e = InvalidEventParameter p) /\
  (forall abi, parseEventDeclaration s = Return abi ->
     exists name params pieces,
       event_shape (chars s) name params /\
       comma_separated params pieces /\
       ev_name abi = str name /\
       Forall2 describes pieces (ev_inputs abi)).
Proof.
  unfold parseEventDeclaration.
  destruct (exec_event_re s) as [[name params]|] eqn:E.
  - pose proof (proj1 (exec_event_re_spec _ _ _) E) as Hshape.
    assert (Huniq : forall n p, event_shape (chars s) n p -> n = name /\ p = params).
    { intros n p H. apply exec_event_re_spec in H. rewrite E in H. now injection H. }
    split; [|split].
    + rewrite throws_bind, map_throwing_throws, List.Exists_exists. split.
      * intros [(q & Hin & Hq)|(a & _ & [])].
        right. exists name, params, (split_on "," params), q.
        split; [assumption|]. split; [now apply comma_separated_split|].
        split; [assumption|]. now apply event_parameter_throws.
      * intros [Hno|(n & p & pieces & q & Hs & Hc & Hin & Hq)].
        { exfalso. apply Hno. eauto. }
        destruct (Huniq _ _ Hs) as [-> ->].
        apply comma_separated_split in Hc. subst pieces.
        left. exists q. split; [assumption|]. now apply event_parameter_throws.
    + intros e He. apply bind_Throw in He as [He|(a & _ & He)]; [|discriminate].
      apply map_throwing_first in He as (_ & q & _ & _ & He & _).
      right. unfold event_parameter in He.
      repeat match type of He with
             | (if ?c then _ else _) = _ => destruct c
             end; try discriminate; injection He as <-; eauto.
    + intros abi H. apply bind_Return in H as (inputs & Hi & H).
      injection H as <-. exists name, params, (split_on "," params).
      split; [assumption|]. split; [now apply comma_separated_split|].
      split; [reflexivity|].
      apply map_throwing_Return in Hi.
      eapply Forall2_impl; [exact Hi|]. intros q i. apply event_parameter_Return.
  - split; [|split].
    + split; [|easy]. intros _. left. intros (n & p & H).
      apply exec_event_re_spec in H. congruence.
    + intros e [= <-]. now left.
    + discriminate.
Qed.
End ParseEvent.

(** ** NewEventTrigger: topics, confirmation, reorganisations *)

Section EventFacts.
Import JsString Decl EventTrigger.

Variable value : Type.
Variable encodeEventSignature : EventAbi -> string.
Variable encodeParameter : string -> value -> string.
Variable decodeLog : list EventInput -> string -> list string -> string -> value.
Variable prototype_value : string -> value.
Variable parameterFilters : gmap string value.

Let filter := filter_of value prototype_value parameterFilters.
Let expected := expected_of value prototype_value parameterFilters.

Let topic_of (input : EventInput) : option string :=
  match filter (in_name input) with
  | Some v => Some (encodeParameter (in_type input) v)
  | None => None
  end.

Let process :=
  process_entry value encodeParameter decodeLog prototype_value parameterFilters.
Let header :=
  on_header value encodeParameter decodeLog prototype_value parameterFilters.
Let step :=
  deliver value encodeParameter decodeLog prototype_value parameterFilters.
Let steps :=
  deliver_all value encodeParameter decodeLog prototype_value parameterFilters.
Let names := filtered_names value parameterFilters.
Let mismatch := mismatches value encodeParameter prototype_value parameterFilters.

(** *** The filter of a name

    What the operator [in] and the property access give for a name: the
    own property of the filters, the property of [Object.prototype]
    when the name is one of its names and not an own key, nothing
    otherwise. *)
Lemma filter_of_spec name :
  filter name
  = if bool_decide (is_Some (parameterFilters !! name)) || JsObject.inherited name
    then Some (expected name) else None.
Proof.
  unfold filter, filter_of, JsObject.get, expected, expected_of.
  destruct (parameterFilters !! name) as [v|].
  - rewrite bool_decide_eq_true_2 by eauto. reflexivity.
  - rewrite bool_decide_eq_false_2 by (now intros [? ?]). reflexivity.
Qed.

Lemma filter_of_own name v :
  parameterFilters !! name = Some v -> filter name = Some v.
Proof. intros H. unfold filter, filter_of, JsObject.get. now rewrite H. Qed.

Lemma filter_of_plain name :
  JsObject.inherited name = false -> filter name = parameterFilters !! name.
Proof.
  intros H. unfold filter, filter_of, JsObject.get. rewrite H.
  now destruct (parameterFilters !! name).
Qed.

(** *** Topics *)

Lemma fold_push_topic inputs acc :
  fold_left (push_topic value encodeParameter prototype_value parameterFilters)
            inputs acc
  = acc ++ map topic_of (List.filter in_indexed inputs).
Proof.
  revert acc. induction inputs as [|input rest IH]; intros acc; simpl.
  - now rewrite app_nil_r.
  - rewrite IH. unfold push_topic. destruct (in_indexed input); simpl.
    + now rewrite <- app_assoc.
    + reflexivity.
Qed.

(** C6 (as amended).  The topic list of a descriptor with k indexed
    inputs has length 1 + k: the signature hash first, then one topic
    for each indexed input in declaration order; the other inputs add
    nothing.  The topic of an indexed input is the encoding of the
    filter value when the name of the input is a key of the filters;
    when it is not a key but is one of the names of
    [Object.prototype], the topic is the encoding of what the
    prototype holds under the name; it is null otherwise. *)
Theorem build_topics_spec (eventInfo : EventAbi) :
  let indexed := List.filter in_indexed (ev_inputs eventInfo) in
  let topics :=
    build_topics value encodeEventSignature encodeParameter prototype_value
                 parameterFilters eventInfo in
  topics
  = Some (encodeEventSignature eventInfo)
    :: map (fun input =>
              match parameterFilters !! in_name input with
              | Some v => Some (encodeParameter (in_type input) v)
              | None =>
                  if JsObject.inherited (in_name input)
                  then Some (encodeParameter (in_type input)
                                             (prototype_value (in_name input)))
                  else None
              end) indexed
  /\ length topics = S (length indexed)
  /\ (Forall (fun input => JsObject.inherited (in_name input) = false) indexed ->
      topics
      = Some (encodeEventSignature eventInfo)
        :: map (fun input =>
                  match parameterFilters !! in_name input with
                  | Some v => Some (encodeParameter (in_type input) v)
                  | None => None
                  end) indexed).
Proof.
  intros indexed topics. unfold topics, build_topics. rewrite fold_push_topic.
  fold indexed. split; [|split].
  - simpl. f_equal. apply map_ext. intros input.
    unfold topic_of, filter, filter_of, JsObject.get.
    destruct (parameterFilters !! in_name input); [reflexivity|].
    now destruct (JsObject.inherited (in_name input)).
  - simpl. now rewrite length_map.
  - intros Hplain. simpl. f_equal. apply map_ext_in. intros input Hin.
    rewrite List.Forall_forall in Hplain. unfold topic_of.
    now rewrite (filter_of_plain _ (Hplain _ Hin)).
Qed.

(** *** The filters of one confirmed entry *)

Lemma names_app a b : names (a ++ b) = names a ++ names b.
Proof. unfold names, filtered_names. now rewrite map_app, List.filter_app. Qed.

Lemma names_cons_in input rest v :
  filter (in_name input) = Some v ->
  names (input :: rest) = in_name input :: names rest /\
  v = expected (in_name input).
Proof.
  rewrite filter_of_spec. unfold names, filtered_names. simpl.
  destruct (_ || _); [|discriminate]. intros [= <-]. split; reflexivity.
Qed.

Lemma names_cons_out input rest :
  filter (in_name input) = None ->
  names (input :: rest) = names rest.
Proof.
  rewrite filter_of_spec. unfold names, filtered_names. simpl.
  destruct (_ || _); [discriminate|reflexivity].
Qed.

Lemma mismatch_filter decoded input :
  mismatch decoded input <->
  exists v, filter (in_name input) = Some v /\
            encodeParameter (in_type input) (decoded (in_name input))
            <> encodeParameter (in_type input) v.
Proof.
  unfold mismatch, mismatches. fold expected. rewrite filter_of_spec.
  unfold filtered_names. simpl.
  destruct (_ || _); simpl; split.
  - intros [_ H]. eauto.
  - intros (v & [= <-] & H). split; [now left|assumption].
  - intros [[] _].
  - intros (v & [=] & _).
Qed.

Lemma lookup_assign name (v : value) event k :
  JsObject.assign name v event !! k
  = if bool_decide (k = name /\ name <> "__proto__"%string) then Some v
    else event !! k.
Proof.
  unfold JsObject.assign. destruct (String.eqb_spec name "__proto__") as [E|E].
  - rewrite bool_decide_eq_false_2; [reflexivity|]. intros [_ H]. contradiction.
  - destruct (decide (k = name)) as [->|Hk].
    + rewrite lookup_insert_eq. now rewrite bool_decide_eq_true_2.
    + rewrite lookup_insert_ne by congruence.
      rewrite bool_decide_eq_false_2; [reflexivity|]. intros [? _]. contradiction.
Qed.

Lemma check_inputs_match inputs decoded compared event :
  Forall (fun input => ~ mismatch decoded input) inputs ->
  exists event',
    check_inputs value encodeParameter prototype_value parameterFilters
                 inputs decoded compared event
    = (compared ++ names inputs, Some event') /\
    forall k, event' !! k
              = if bool_decide (k ∈ names inputs /\ k <> "__proto__"%string)
                then Some (decoded k) else event !! k.
Proof.
  intros H. revert compared event.
  induction H as [|input rest Hin Hrest IH]; intros compared event;
    cbn [check_inputs].
  - exists event. change (names []) with (@nil string).
    rewrite app_nil_r. split; [reflexivity|].
    intros k. rewrite bool_decide_eq_false_2; [reflexivity|].
    intros [Hk _]. now apply elem_of_nil in Hk.
  - fold (filter (in_name input)).
    destruct (filter (in_name input)) as [v|] eqn:E.
    + destruct (String.eqb_spec
                  (encodeParameter (in_type input) (decoded (in_name input)))
                  (encodeParameter (in_type input) v)) as [Heq|Hne]; simpl.
      * destruct (IH (compared ++ [in_name input])
                     (JsObject.assign (in_name input) (decoded (in_name input)) event))
          as (event' & Hc & Hl).
        exists event'. rewrite (proj1 (names_cons_in _ rest _ E)). split.
        { rewrite Hc. now rewrite <- app_assoc. }
        intros k. rewrite Hl, lookup_assign.
        destruct (decide (k = "__proto__"%string)) as [Hp|Hp].
        { rewrite !bool_decide_eq_false_2; try reflexivity.
          - intros [_ ?]. contradiction.
          - intros [? ?]. congruence.
          - intros [_ ?]. contradiction. }
        destruct (decide (k ∈ names rest)) as [Hk|Hk].
        { rewrite !bool_decide_eq_true_2; auto.
          split; [|assumption]. apply elem_of_cons. now right. }
        rewrite (bool_decide_eq_false_2 (k ∈ names rest /\ _)) by tauto.
        destruct (decide (k = in_name input)) as [->|Hki].
        { rewrite !bool_decide_eq_true_2; auto.
          split; [|assumption]. apply elem_of_cons. now left. }
        rewrite !bool_decide_eq_false_2; try reflexivity.
        { intros [Hk' _]. apply elem_of_cons in Hk' as [?|?]; contradiction. }
        intros [? _]. contradiction.
      * exfalso. apply Hin. apply mismatch_filter. eauto.
    + rewrite (names_cons_out _ _ E). apply IH.
Qed.

Lemma check_inputs_mismatch before input after decoded compared event :
  Forall (fun i => ~ mismatch decoded i) before ->
  mismatch decoded input ->
  check_inputs value encodeParameter prototype_value parameterFilters
               (before ++ input :: after) decoded compared event
  = (compared ++ names (before ++ [input]), None).
Proof.
  intros Hb Hm. apply mismatch_filter in Hm as (v & E & Hne).
  revert compared event.
  induction Hb as [|i rest Hi Hrest IH]; intros compared event; simpl.
  - fold (filter (in_name input)). rewrite E.
    destruct (String.eqb_spec
                (encodeParameter (in_type input) (decoded (in_name input)))
                (encodeParameter (in_type input) v)) as [Heq|_];
      [contradiction|]. simpl.
    now rewrite (proj1 (names_cons_in input [] _ E)).
  - fold (filter (in_name i)).
    destruct (filter (in_name i)) as [exp_i|] eqn:Ei.
    + destruct (String.eqb_spec
                  (encodeParameter (in_type i) (decoded (in_name i)))
                  (encodeParameter (in_type i) exp_i)) as [Heq|Hne']; simpl.
      * rewrite IH. rewrite (proj1 (names_cons_in i _ _ Ei)). now rewrite <- app_assoc.
      * exfalso. apply Hi. apply mismatch_filter. eauto.
    + rewrite IH. now rewrite (names_cons_out i _ Ei).
Qed.

(** C3 (as amended).  For a confirmed entry, with the inputs walked in
    declaration order, an input being filtered when its name is a key
    of the filters or one of the names of [Object.prototype]: when an
    input is the first whose decoded value does not encode like its
    filter value, nothing is sent for the entry and the names compared
    are the filtered names up to that input, so no later one is
    compared; when every filtered input matches, one notification is
    sent, it carries the decoded value under each filtered input name
    other than [__proto__], the raw log under [_rawEvent] unless that
    is one of these names, and nothing else. *)
Theorem process_entry_spec (inputs : list EventInput) (logEntry : Log) :
  let decoded := decodeLog inputs (data logEntry) (tl (topics logEntry)) in
  (forall before input after,
      inputs = before ++ input :: after ->
      Forall (fun i => ~ mismatch decoded i) before ->
      mismatch decoded input ->
      process inputs logEntry = (names (before ++ [input]), None)) /\
  (Forall (fun i => ~ mismatch decoded i) inputs ->
   exists n,
     process inputs logEntry = (names inputs, Some n) /\
     forall k, n !! k =
               if bool_decide (k ∈ names inputs /\ k <> "__proto__"%string)
               then Some (Decoded (decoded k))
               else if bool_decide (k = "_rawEvent"%string)
                    then Some (RawEvent logEntry) else None).
Proof.
  intros decoded. split.
  - intros before input after -> Hb Hm. unfold process, process_entry.
    fold decoded.
    now rewrite (check_inputs_mismatch before input after decoded [] ∅ Hb Hm).
  - intros Hall. unfold process, process_entry. fold decoded.
    destruct (check_inputs_match inputs decoded [] ∅ Hall) as (event & Hc & Hl).
    rewrite Hc. simpl. eexists. split; [reflexivity|].
    intros k. unfold notification.
    rewrite lookup_union, lookup_fmap, Hl, lookup_empty.
    destruct (bool_decide (k ∈ names inputs /\ k <> "__proto__"%string)); simpl.
    + now destruct (({[ "_rawEvent"%string := RawEvent logEntry ]}
                     : gmap string (field value)) !! k).
    + destruct (decide (k = "_rawEvent"%string)) as [->|Hk].
      * now rewrite lookup_singleton_eq, bool_decide_eq_true_2.
      * rewrite lookup_singleton_ne by congruence.
        now rewrite bool_decide_eq_false_2.
Qed.

(** *** The confirmation pass *)

Let loop :=
  pass_loop value encodeParameter decodeLog prototype_value parameterFilters.

Lemma pass_loop_sources inputs number logs newPending sent0 n :
  n ∈ sent value (loop inputs number logs newPending sent0) ->
  n ∈ sent0 \/
  exists logEntry, logEntry ∈ logs /\ 2 <= number - blockNumber logEntry /\
                   snd (process inputs logEntry) = Some n.
Proof.
  revert newPending sent0.
  induction logs as [|e rest IH]; intros newPending sent0; simpl.
  - now left.
  - destruct (Z.gtb_spec (blockNumber e) (number - 2)) as [Hin|Hout].
    + intros H. destruct (IH _ _ H) as [?|(x & Hx & ?)]; [now left|].
      right. exists x. split; [|assumption]. apply elem_of_cons. now right.
    + fold (process inputs e).
      destruct (snd (process inputs e)) as [m|] eqn:E; simpl.
      * intros H. destruct (IH _ _ H) as [H0|(x & Hx & ?)].
        { apply elem_of_app in H0 as [?|H0]; [now left|].
          apply list_elem_of_singleton in H0 as ->.
          right. exists e. repeat split; [apply elem_of_cons; now left|lia|assumption]. }
        right. exists x. split; [|assumption]. apply elem_of_cons. now right.
      * now left.
Qed.

Lemma pass_loop_pending inputs number logs newPending sent0 x :
  x ∈ newPendingLogs value (loop inputs number logs newPending sent0) ->
  x ∈ newPending \/ x ∈ logs.
Proof.
  revert newPending sent0.
  induction logs as [|e rest IH]; intros newPending sent0; simpl.
  - now left.
  - destruct (blockNumber e >? number - 2).
    + intros H. destruct (IH _ _ H) as [H0|?].
      * apply elem_of_app in H0 as [?|H0]; [now left|].
        apply list_elem_of_singleton in H0 as ->. right. apply elem_of_cons. now left.
      * right. apply elem_of_cons. now right.
    + fold (process inputs e). destruct (snd (process inputs e)); simpl.
      * intros H. destruct (IH _ _ H) as [?|?]; [now left|].
        right. apply elem_of_cons. now right.
      * now left.
Qed.

(** The entries inside the window have no part in what a pass sends or
    in whether it runs to its end. *)
Lemma pass_loop_window inputs number logs newPending sent0 :
  let confirmed := List.filter (fun e => negb (blockNumber e >? number - 2)) logs in
  sent value (loop inputs number logs newPending sent0)
  = sent value (loop inputs number confirmed [] sent0) /\
  completed value (loop inputs number logs newPending sent0)
  = completed value (loop inputs number confirmed [] sent0).
Proof.
  revert newPending sent0.
  induction logs as [|e rest IH]; intros newPending sent0; simpl.
  - split; reflexivity.
  - destruct (blockNumber e >? number - 2) eqn:E; simpl.
    + apply IH.
    + rewrite E. fold (process inputs e).
      destruct (snd (process inputs e)); simpl; [apply IH|split; reflexivity].
Qed.

Lemma header_sources inputs pending number :
  (forall x, x ∈ fst (header inputs pending number) -> x ∈ pending) /\
  (forall n, n ∈ snd (header inputs pending number) ->
     number <> 0 /\
     exists logEntry, logEntry ∈ pending /\ 2 <= number - blockNumber logEntry /\
                      snd (process inputs logEntry) = Some n).
Proof.
  unfold header, on_header. destruct (Z.eqb_spec number 0) as [->|Hn]; simpl.
  - split; [auto|]. intros n H. now apply elem_of_nil in H.
  - fold (loop inputs number pending [] []).
    assert (Hs : forall n, n ∈ sent value (loop inputs number pending [] []) ->
              number <> 0 /\
              exists logEntry, logEntry ∈ pending /\ 2 <= number - blockNumber logEntry /\
                               snd (process inputs logEntry) = Some n).
    { intros n H. split; [assumption|].
      apply pass_loop_sources in H as [H|H]; [now apply elem_of_nil in H|exact H]. }
    destruct (completed value (loop inputs number pending [] [])) eqn:Ec; simpl.
    + split; [|exact Hs]. intros x H.
      apply pass_loop_pending in H as [H|H]; [now apply elem_of_nil in H|exact H].
    + split; [|exact Hs]. intros x H. now apply elem_of_nil in H.
Qed.

(** C4.  Whatever a message makes the trigger send, the message is a
    header and each notification is the one of a buffered entry that is
    at least two blocks behind that header; an arriving log sends
    nothing, and the entries less than two blocks behind the header
    have no part in what the pass sends. *)
Theorem confirmation_lag (inputs : list EventInput) (pending : list Log) :
  (forall m n,
      n ∈ snd (step inputs pending m) ->
      exists number logEntry,
        m = HeaderData number /\ logEntry ∈ pending /\
        number - blockNumber logEntry >= 2 /\
        snd (process inputs logEntry) = Some n) /\
  (forall number,
      snd (header inputs pending number)
      = snd (header inputs
               (List.filter (fun e => negb (blockNumber e >? number - 2)) pending)
               number)) /\
  (forall number logEntry,
      number <> 0 -> logEntry ∈ pending -> number - blockNumber logEntry < 2 ->
      completed value (loop inputs number pending [] []) = true ->
      logEntry ∈ fst (header inputs pending number)).
Proof.
  split; [|split].
  - intros [logEntry|number] n; simpl.
    + intros H. now apply elem_of_nil in H.
    + intros H. apply header_sources in H as (_ & e & He & Hlag & Hp).
      exists number, e. repeat split; auto. lia.
  - intros number. unfold header, on_header.
    destruct (number =? 0); [reflexivity|].
    fold (loop inputs number pending [] []).
    destruct (pass_loop_window inputs number pending [] []) as [Hs Hc].
    cbv zeta in Hs, Hc.
    set (confirmed := List.filter (fun e => negb (blockNumber e >? number - 2)) pending) in *.
    fold (loop inputs number confirmed [] []).
    rewrite <- Hc, <- Hs.
    now destruct (completed value (loop inputs number pending [] [])).
  - intros number logEntry Hn Hin Hlag Hc. unfold header, on_header.
    apply Z.eqb_neq in Hn. rewrite Hn.
    fold (loop inputs number pending [] []). rewrite Hc. simpl.
    clear Hn. revert Hc. generalize (@nil Log) at 1 2 as np.
    generalize (@nil (gmap string (field value))) as sent0.
    induction pending as [|e rest IH]; intros sent0 np; simpl.
    + now apply elem_of_nil in Hin.
    + apply elem_of_cons in Hin as [<-|Hin].
      * assert (E : (blockNumber logEntry >? number - 2) = true)
          by (apply Z.gtb_lt; lia).
        rewrite E. intros Hc. clear IH.
        assert (Hkeep : forall logs np' s0, logEntry ∈ np' ->
                   completed value (loop inputs number logs np' s0) = true ->
                   logEntry ∈ newPendingLogs value (loop inputs number logs np' s0)).
        { induction logs as [|e' logs IHl]; intros np' s0 Hnp; simpl; [auto|].
          destruct (blockNumber e' >? number - 2).
          - apply IHl. apply elem_of_app. now left.
          - fold (process inputs e'). destruct (snd (process inputs e')); simpl.
            + now apply IHl.
            + discriminate. }
        apply Hkeep; [|exact Hc]. apply elem_of_app. right.
        now apply list_elem_of_singleton.
      * destruct (blockNumber e >? number - 2).
        { apply IH. exact Hin. }
        fold (process inputs e). destruct (snd (process inputs e)); simpl.
        { apply IH. exact Hin. }
        discriminate.
Qed.

(** *** Reorganisations *)

Lemma on_log_removed pending logEntry x :
  removed logEntry = true ->
  x ∈ on_log pending logEntry <->
  x ∈ pending /\ blockHash x <> blockHash logEntry.
Proof.
  intros Hr. unfold on_log. rewrite Hr.
  rewrite list_elem_of_In, List.filter_In, <- list_elem_of_In.
  rewrite negb_true_iff, String.eqb_neq. tauto.
Qed.

Lemma steps_sources inputs ms : forall pending,
  (forall x, x ∈ fst (steps inputs pending ms) -> x ∈ pending \/ x ∈ arrivals ms) /\
  (forall n, n ∈ snd (steps inputs pending ms) ->
     exists e, snd (process inputs e) = Some n /\ (e ∈ pending \/ e ∈ arrivals ms)).
Proof.
  induction ms as [|m rest IH]; intros pending; simpl.
  - split; [auto|]. intros n H. now apply elem_of_nil in H.
  - fold (step inputs pending m).
    destruct (step inputs pending m) as [pending1 sent1] eqn:E1.
    fold (steps inputs pending1 rest).
    destruct (steps inputs pending1 rest) as [pending2 sent2] eqn:E2.
    destruct (IH pending1) as [IHp IHs]. rewrite E2 in IHp, IHs. simpl in *.
    assert (Hp1 : forall x, x ∈ pending1 -> x ∈ pending \/ x ∈ arrivals (m :: rest)).
    { intros x Hx. destruct m as [logEntry|number]; simpl in E1.
      - injection E1 as <- <-. unfold on_log in Hx. unfold arrivals; simpl.
        destruct (removed logEntry).
        + left. apply list_elem_of_In, List.filter_In in Hx as [Hx _].
          now apply list_elem_of_In.
        + apply elem_of_app in Hx as [?|Hx]; [now left|].
          apply list_elem_of_singleton in Hx as ->. right. apply elem_of_cons. now left.
      - left. pose proof (proj1 (header_sources inputs pending number) x) as H.
        unfold header in H. rewrite E1 in H. auto. }
    assert (Hrest : forall x, x ∈ arrivals rest -> x ∈ arrivals (m :: rest)).
    { intros x Hx. unfold arrivals; simpl. destruct m as [l|]; [|exact Hx].
      destruct (removed l); [exact Hx|]. apply elem_of_cons. now right. }
    split.
    + intros x Hx. destruct (IHp x Hx) as [?|?]; auto.
    + intros n Hn. apply elem_of_app in Hn as [Hn|Hn].
      * destruct m as [logEntry|number]; simpl in E1.
        { injection E1 as <- <-. now apply elem_of_nil in Hn. }
        pose proof (proj2 (header_sources inputs pending number) n) as H.
        unfold header in H. rewrite E1 in H.
        destruct (H Hn) as (_ & e & He & _ & Hp). exists e. auto.
      * destruct (IHs n Hn) as (e & Hp & [He|He]).
        { exists e. split; [assumption|]. auto. }
        exists e. split; [assumption|]. right. auto.
Qed.

(** C5.  A log delivered with the removed flag takes out of the buffer
    exactly the entries with its block hash; whatever messages follow,
    each notification sent later is the one of an entry that survived
    the purge or of an entry that arrived after it, so an entry that
    was purged is not sent unless the node delivers it again. *)
Theorem reorg_purge (inputs : list EventInput) (pending : list Log) (logEntry : Log) :
  removed logEntry = true ->
  let purged := fst (step inputs pending (LogData logEntry)) in
  (forall x, x ∈ purged <-> x ∈ pending /\ blockHash x <> blockHash logEntry) /\
  snd (step inputs pending (LogData logEntry)) = [] /\
  (forall ms n,
      n ∈ snd (steps inputs purged ms) ->
      exists e, snd (process inputs e) = Some n /\
                ((e ∈ pending /\ blockHash e <> blockHash logEntry) \/
                 e ∈ arrivals ms)).
Proof.
  intros Hr purged. split; [|split].
  - intros x. now apply on_log_removed.
  - reflexivity.
  - intros ms n Hn.
    destruct (proj2 (steps_sources inputs ms purged) n Hn) as (e & Hp & [He|He]).
    + exists e. split; [assumption|]. left. now apply (on_log_removed pending logEntry e).
    + exists e. split; [assumption|]. now right.
Qed.

(** When no confirmed entry fails its filters the pass keeps exactly the
    entries inside the window, in order. *)
Lemma pass_loop_completed inputs number logs newPending sent0 :
  completed value (loop inputs number logs newPending sent0) = true ->
  newPendingLogs value (loop inputs number logs newPending sent0)
  = newPending ++ List.filter (fun e => blockNumber e >? number - 2) logs.
Proof.
  revert newPending sent0.
  induction logs as [|e rest IH]; intros newPending sent0; simpl.
  - now rewrite app_nil_r.
  - destruct (blockNumber e >? number - 2).
    + intros H. rewrite (IH _ _ H). now rewrite <- app_assoc.
    + fold (process inputs e). destruct (snd (process inputs e)); simpl.
      * apply IH.
      * discriminate.
Qed.

(** When a confirmed entry fails its filters the callback returns from
    inside the loop: nothing is put back in the buffer, whatever was
    waiting before or after that entry. *)
Lemma pass_loop_mismatch inputs number before e after newPending sent0 :
  number - blockNumber e >= 2 ->
  snd (process inputs e) = None ->
  completed value (loop inputs number (before ++ e :: after) newPending sent0) = false.
Proof.
  intros Hlag Hnone. revert newPending sent0.
  induction before as [|x before IH]; intros newPending sent0; simpl.
  - destruct (Z.gtb_spec (blockNumber e) (number - 2)) as [Hin|_]; [lia|].
    fold (process inputs e). now rewrite Hnone.
  - destruct (blockNumber x >? number - 2); [apply IH|].
    fold (process inputs x). destruct (snd (process inputs x)); [apply IH|reflexivity].
Qed.

Lemma on_header_mismatch inputs number before e after :
  number <> 0 ->
  number - blockNumber e >= 2 ->
  snd (process inputs e) = None ->
  fst (header inputs (before ++ e :: after) number) = [].
Proof.
  intros Hn Hlag Hnone. unfold header, on_header.
  apply Z.eqb_neq in Hn. rewrite Hn.
  fold (loop inputs number (before ++ e :: after) [] []).
  now rewrite (pass_loop_mismatch inputs number before e after [] [] Hlag Hnone).
Qed.

End EventFacts.

(** ** NewTransactionTrigger *)

Section TxFacts.
Import JsString JsStringFacts Decl TxTrigger.

Variable getBlock : Z -> BlockWithTransactions.
Variable fields : Fields.

Let forward := forwarded fields.
Let handle := on_header getBlock fields.

(** The transactions of a fetched block that are forwarded. *)
Let forwarded_of (b : Z) : list Transaction :=
  List.filter forward (default [] (blk_transactions (getBlock b))).

(** *** The comparison of [isSameAddress] *)

Lemma has_0x_spec s : has_0x s = true <-> starts_0x s.
Proof.
  unfold has_0x, starts_0x, chars. destruct s as [|c0 [|c1 rest]]; simpl.
  - split; [discriminate|]. intros (r & [=]).
  - split; [discriminate|]. intros (r & [=]).
  - rewrite andb_true_iff, !Ascii.eqb_eq. split.
    + intros [-> ->]. now exists rest.
    + intros (r & [= -> -> _]). split; reflexivity.
Qed.

Lemma ascii_listed c : In c (map ascii_of_nat (seq 0 256)).
Proof.
  rewrite <- (ascii_nat_embedding c). apply in_map, in_seq.
  pose proof (nat_ascii_bounded c). lia.
Qed.

(** Two characters have the same lower case exactly when they are the
    same letter up to case: by enumeration of the pairs of code units. *)
Lemma lower_char_same c d : lower_char c = lower_char d <-> same_letter c d = true.
Proof.
  assert (H : forallb (fun c => forallb (fun d =>
                Bool.eqb (Ascii.eqb (lower_char c) (lower_char d)) (same_letter c d))
                (map ascii_of_nat (seq 0 256))) (map ascii_of_nat (seq 0 256)) = true)
    by (vm_compute; reflexivity).
  rewrite forallb_forall in H. specialize (H c (ascii_listed c)).
  rewrite forallb_forall in H. specialize (H d (ascii_listed d)).
  apply Bool.eqb_prop in H. rewrite <- H. symmetry. apply Ascii.eqb_eq.
Qed.

Lemma toLowerCase_caseless a b : toLowerCase a = toLowerCase b <-> caseless a b.
Proof.
  unfold toLowerCase, caseless. fold (chars a) (chars b).
  generalize (chars a) (chars b). intros la lb. split.
  - intros H. apply str_inj in H. revert lb H.
    induction la as [|c la IH]; intros [|d lb] H; simpl in H; try discriminate.
    + constructor.
    + injection H as Hc Hl. constructor; [now apply lower_char_same|now apply IH].
  - intros H. f_equal. induction H as [|c d la lb Hc _ IH]; [reflexivity|].
    simpl. f_equal; [now apply lower_char_same|exact IH].
Qed.

Lemma isSameAddress_spec a f :
  f <> EmptyString -> isSameAddress a (Some f) = true <-> same_value a f.
Proof.
  intros Hf. unfold isSameAddress, same_value, truthy_string.
  destruct a as [s|]; [|easy].
  rewrite (proj2 (String.eqb_neq f EmptyString) Hf). simpl. rewrite orb_false_r.
  destruct (String.eqb_spec s EmptyString) as [->|Hs]; simpl.
  - split; [discriminate|]. intros [((r & [=]) & _)|[_ <-]]. congruence.
  - destruct (has_0x s && has_0x f) eqn:E.
    + apply andb_true_iff in E as [Ea Eb].
      apply has_0x_spec in Ea, Eb. rewrite String.eqb_eq, toLowerCase_caseless.
      split; [intros H; left; auto|]. intros [(_ & _ & H)|[Hn _]]; [exact H|].
      exfalso. apply Hn. split; assumption.
    + rewrite String.eqb_eq. split.
      * intros <-. right. split; [|reflexivity]. intros [Ha Hb].
        apply has_0x_spec in Ha. rewrite Ha in E. discriminate.
      * intros [(Ha & Hb & _)|[_ H]]; [|exact H].
        apply has_0x_spec in Ha, Hb. rewrite Ha, Hb in E. discriminate.
Qed.

Lemma truthy_field_spec (o : option string) :
  truthy_field o = true <-> exists f, o = Some f /\ f <> EmptyString.
Proof.
  destruct o as [f|]; simpl; unfold truthy_string.
  - rewrite negb_true_iff, String.eqb_neq. split; [eauto|].
    now intros (f' & [= <-] & H).
  - split; [discriminate|]. now intros (f & [=] & _).
Qed.

Lemma forwarded_spec t :
  forward t = true <->
  (forall f, from fields = Some f -> f <> EmptyString ->
             same_value (Some (tx_from t)) f) /\
  (forall f, to fields = Some f -> f <> EmptyString -> same_value (tx_to t) f).
Proof.
  unfold forward, forwarded.
  assert (Hone : forall o a,
             (truthy_field o && negb (isSameAddress a o) = false) <->
             (forall f, o = Some f -> f <> EmptyString -> same_value a f)).
  { intros o a. destruct (truthy_field o) eqn:Ho; simpl.
    - apply truthy_field_spec in Ho as (f & -> & Hf).
      rewrite negb_false_iff, (isSameAddress_spec a f Hf). split.
      + now intros H f' [= <-] _.
      + intros H. now apply H.
    - split; [|reflexivity]. intros _ f -> Hf.
      assert (truthy_field (Some f) = true) by (apply truthy_field_spec; eauto).
      congruence. }
  rewrite <- !Hone.
  destruct (truthy_field (from fields)
            && negb (isSameAddress (Some (tx_from t)) (from fields)));
    [intuition discriminate|].
  destruct (truthy_field (to fields)
            && negb (isSameAddress (tx_to t) (to fields)));
    intuition discriminate.
Qed.

(** The [while] loop: the blocks fetched are the consecutive numbers
    after [last], none beyond [number - 2]; only the last one fetched
    can lack its transaction list; when none lacks it the loop has
    caught up. *)
Lemma catch_up_spec last number :
  let h := catch_up getBlock fields last number in
  fetched h = seqZ (last + 1) (Z.of_nat (length (fetched h))) /\
  lastBlock h = last + Z.of_nat (length (fetched h)) /\
  (forall b, b ∈ fetched h -> number - (b - 1) > 2) /\
  (forall b, b ∈ fetched h -> blk_transactions (getBlock b) = None ->
             b = lastBlock h) /\
  ((forall b, b ∈ fetched h -> blk_transactions (getBlock b) <> None) ->
   ~ number - lastBlock h > 2) /\
  notified h = concat (map forwarded_of (fetched h)).
Proof.
  funelim (catch_up getBlock fields last number); simpl;
    refine (conj _ (conj _ (conj _ (conj _ (conj _ _))))).
  (* nothing to process *)
  - reflexivity.
  - lia.
  - intros b Hb. now apply elem_of_nil in Hb.
  - intros b Hb. now apply elem_of_nil in Hb.
  - intros _. lia.
  - reflexivity.
  (* a block with transactions, then the rest of the loop *)
  - destruct H as (Hf & _). rewrite seqZ_cons by lia. f_equal.
    rewrite Hf at 1. f_equal; lia.
  - destruct H as (_ & Hl & _). rewrite Hl. lia.
  - destruct H as (_ & _ & Hb & _).
    intros b Hin. apply elem_of_cons in Hin as [->|Hin]; [lia|auto].
  - destruct H as (_ & _ & _ & Hn & _).
    intros b Hin Hnone. apply elem_of_cons in Hin as [->|Hin]; [congruence|auto].
  - destruct H as (_ & _ & _ & _ & Hc & _).
    intros Hall. apply Hc. intros b Hin. apply Hall. apply elem_of_cons. now right.
  - destruct H as (_ & _ & _ & _ & _ & Hs).
    rewrite Hs. unfold forwarded_of at 2. now rewrite Heq.
  (* a block without its transaction list *)
  - reflexivity.
  - lia.
  - intros b Hb. apply list_elem_of_singleton in Hb as ->. lia.
  - intros b Hb _. now apply list_elem_of_singleton in Hb.
  - intros Hall. exfalso. eapply Hall; [|eassumption].
    now apply list_elem_of_singleton.
  - unfold forwarded_of. now rewrite Heq.
Qed.

Lemma run_zeros zeros last rest :
  Forall (fun z => z = 0) zeros ->
  run_from getBlock fields last (zeros ++ rest) = run_from getBlock fields last rest.
Proof.
  induction 1 as [|z zeros -> Hz IH]; simpl; [reflexivity|].
  rewrite IH. now destruct (run_from getBlock fields last rest).
Qed.

(** C8.  The first header with a nonzero number only sets [lastBlock]
    to that number: nothing is fetched or forwarded.  On a later header
    the blocks fetched are [lastBlock + 1], [lastBlock + 2], ... in this
    order, each while [number - lastBlock > 2], and [lastBlock] ends on
    the last one fetched; a fetched block without a transaction list is
    the last one fetched for that header, and is not fetched again;
    when every fetched block has its list the loop ends caught up; what
    is forwarded is, block after block, the transactions that pass the
    [from] and [to] filters, where a filter that is set compares two
    [0x] strings up to letter case and any other pair of values by
    equality. *)
Theorem transaction_trigger :
  (forall zeros number,
      Forall (fun z => z = 0) zeros -> number <> 0 ->
      run getBlock fields (zeros ++ [number])
      = {| lastBlock := number; fetched := []; notified := [] |}) /\
  (forall last number,
      0 < last -> number <> 0 ->
      let h := handle last number in
      fetched h = seqZ (last + 1) (Z.of_nat (length (fetched h))) /\
      lastBlock h = last + Z.of_nat (length (fetched h)) /\
      (forall b, b ∈ fetched h -> number - (b - 1) > 2) /\
      (forall b, b ∈ fetched h -> blk_transactions (getBlock b) = None ->
                 b = lastBlock h /\
                 forall later, b ∉ fetched (handle (lastBlock h) later)) /\
      ((forall b, b ∈ fetched h -> blk_transactions (getBlock b) <> None) ->
       ~ number - lastBlock h > 2) /\
      notified h
      = concat (map (fun b => List.filter forward
                                (default [] (blk_transactions (getBlock b))))
                    (fetched h))) /\
  (forall t,
      forward t = true <->
      (forall f, from fields = Some f -> f <> EmptyString ->
                 same_value (Some (tx_from t)) f) /\
      (forall f, to fields = Some f -> f <> EmptyString -> same_value (tx_to t) f)).
Proof.
  split; [|split].
  - intros zeros number Hz Hn. unfold run. rewrite run_zeros by assumption.
    simpl. unfold on_header. apply Z.eqb_neq in Hn. rewrite Hn. reflexivity.
  - intros last number Hlast Hn h.
    assert (Eh : h = catch_up getBlock fields last number).
    { unfold h, handle, on_header. apply Z.eqb_neq in Hn. rewrite Hn.
      now rewrite (proj2 (Z.leb_gt last 0) Hlast). }
    pose proof (catch_up_spec last number) as Hspec. cbv zeta in Hspec.
    rewrite <- Eh in Hspec.
    destruct Hspec as (Hf & Hl & Hb & Hnone & Hc & Hs).
    refine (conj Hf (conj Hl (conj Hb (conj _ (conj Hc Hs))))).
    intros b Hfetched Hmissing. split; [now apply Hnone|]. intros later Hin.
    assert (Hpos : 0 < lastBlock h) by lia.
    unfold handle, on_header in Hin.
    destruct (later =? 0); [now apply elem_of_nil in Hin|].
    rewrite (proj2 (Z.leb_gt (lastBlock h) 0) Hpos) in Hin.
    pose proof (catch_up_spec (lastBlock h) later) as Hnext. cbv zeta in Hnext.
    destruct Hnext as (Hf' & _). rewrite Hf' in Hin.
    apply elem_of_seqZ in Hin. rewrite (Hnone b Hfetched Hmissing) in Hin. lia.
  - apply forwarded_spec.
Qed.

End TxFacts.
(** ** Numbers

    The operations of [SpecFloat] round a mantissa and an exponent to
    the 53 bits of a double.  The facts below describe the result of a
    rounding by the value it has, counted in units of [2^-1074], and
    from them the order of two numbers, the sum with the floor tip and
    the priority fee of a tip of zero. *)

Module JsNumberFacts.
Import JsNumber.


(** digits *)
Lemma digits2_log2 m : Zpos (digits2_pos m) = Z.log2 (Zpos m) + 1.
Proof.
assert (H : forall p, digits2_pos p = Pos.size p) by (induction p; simpl; congruence).
rewrite H. destruct m; simpl; lia.
Qed.

Lemma digits_bounds m :
2 ^ (Zpos (digits2_pos m) - 1) <= Zpos m < 2 ^ Zpos (digits2_pos m).
Proof.
rewrite digits2_log2. replace (Z.log2 (Z.pos m) + 1 - 1) with (Z.log2 (Zpos m)) by lia.
pose proof (Z.log2_spec (Zpos m) ltac:(lia)). replace (Z.log2 (Zpos m) + 1) with (Z.succ (Z.log2 (Zpos m))) by lia.
lia.
Qed.

Lemma digits_unique m d : 2 ^ (d - 1) <= Zpos m < 2 ^ d -> Zpos (digits2_pos m) = d.
Proof.
intros H. rewrite digits2_log2.
assert (0 <= d - 1).
{ destruct (Z_lt_le_dec (d - 1) 0) as [Hn|]; [|assumption].
  assert (d <= 0) by lia. destruct (Z.eq_dec d 0) as [->|].
  - simpl in H. lia.
  - rewrite (Z.pow_neg_r 2 d) in H by lia. lia. }
rewrite (Z.log2_unique (Zpos m) (d - 1)); [lia|assumption|].
replace (Z.succ (d - 1)) with d by lia. assumption.
Qed.

(** shifting *)
Lemma shr_1_m mrs : 0 <= shr_m mrs -> shr_m (shr_1 mrs) = shr_m mrs / 2.
Proof.
destruct mrs as [m r s]. simpl. intros Hm.
destruct m as [|[p|p|]|p]; simpl; try lia; try reflexivity.
- apply Z.div_unique with (r := 1); lia.
- apply Z.div_unique with (r := 0); lia.
Qed.

Lemma iter_shr_m p : forall mrs,
0 <= shr_m mrs -> shr_m (SpecFloat.iter_pos shr_1 p mrs) = shr_m mrs / 2 ^ Zpos p.
Proof.
assert (Hnn : forall mrs, 0 <= shr_m mrs -> 0 <= shr_m (shr_1 mrs)).
{ intros mrs H. rewrite shr_1_m by assumption. apply Z.div_pos; lia. }
assert (HI : forall q, 2 ^ Zpos q~1 = 2 * 2 ^ Zpos q * 2 ^ Zpos q).
{ intros q. change (Zpos q~1) with (2 * Zpos q + 1).
  replace (2 * Zpos q + 1) with (1 + Zpos q + Zpos q) by lia.
  rewrite !Z.pow_add_r by lia. reflexivity. }
assert (HO : forall q, 2 ^ Zpos q~0 = 2 ^ Zpos q * 2 ^ Zpos q).
{ intros q. change (Zpos q~0) with (2 * Zpos q).
  replace (2 * Zpos q) with (Zpos q + Zpos q) by lia.
  rewrite !Z.pow_add_r by lia. reflexivity. }
assert (Hp : forall q, 0 < 2 ^ Zpos q) by (intros; apply Z.pow_pos_nonneg; lia).
induction p as [p IH|p IH|]; intros mrs Hm; simpl SpecFloat.iter_pos.
- rewrite IH, IH, shr_1_m; auto.
  + rewrite HI. pose proof (Hp p).
    rewrite !Z.div_div by lia. f_equal. lia.
  + rewrite IH by auto. apply Z.div_pos; auto.
- rewrite IH, IH; auto.
  + rewrite HO. pose proof (Hp p). rewrite !Z.div_div by lia. reflexivity.
  + rewrite IH by auto. apply Z.div_pos; auto.
- now rewrite shr_1_m.
Qed.

Lemma shr_m_of_loc m l : shr_m (shr_record_of_loc m l) = m.
Proof. destruct l as [|[]]; reflexivity. Qed.

Lemma shr_spec m l e n :
0 <= m ->
shr_m (fst (shr (shr_record_of_loc m l) e n)) = (if 0 <? n then m / 2 ^ n else m) /\
snd (shr (shr_record_of_loc m l) e n) = (if 0 <? n then e + n else e).
Proof.
intros Hm. destruct n as [|p|p]; simpl.
- now rewrite shr_m_of_loc.
- rewrite iter_shr_m by now rewrite shr_m_of_loc. now rewrite shr_m_of_loc.
- now rewrite shr_m_of_loc.
Qed.

Lemma shr_exact_noshift m e n :
n <= 0 -> shr (shr_record_of_loc m loc_Exact) e n = (shr_record_of_loc m loc_Exact, e).
Proof. destruct n; simpl; intros; try reflexivity; lia. Qed.

Lemma round_nearest_even_bounds m l :
round_nearest_even m l = m \/ round_nearest_even m l = m + 1.
Proof. destruct l as [|[]]; simpl; auto. destruct (Z.even m); auto. Qed.

Lemma fexp_eq e : fexp prec emax e = Z.max (e - 53) (-1074).
Proof. reflexivity. Qed.

Lemma Zdigits2_pos m : Zdigits2 (Zpos m) = Zpos (digits2_pos m).
Proof. reflexivity. Qed.

(** The rounding of a positive mantissa known exactly. *)
Lemma binary_round_aux_exact s (M : positive) E :
let d := Zpos (digits2_pos M) in
let f := fexp prec emax (d + E) in
(f <= E ->
 binary_round_aux prec emax s (Zpos M) E loc_Exact
 = if E <=? emax - prec then S754_finite s M E else S754_infinity s) /\
(-1074 <= E < f ->
 f = d + E - 53 /\
 exists m' : positive,
   (Zpos m' = Zpos M / 2 ^ (f - E) \/ Zpos m' = Zpos M / 2 ^ (f - E) + 1) /\
   2 ^ 52 <= Zpos m' <= 2 ^ 53 /\
   binary_round_aux prec emax s (Zpos M) E loc_Exact
   = if Zpos m' =? 2 ^ 53
     then if f + 1 <=? emax - prec then S754_finite s (2 ^ 52)%positive (f + 1)
          else S754_infinity s
     else if f <=? emax - prec then S754_finite s m' f else S754_infinity s).
Proof.
intros d f. split.
- intros Hf. unfold binary_round_aux, shr_fexp.
  rewrite Zdigits2_pos. fold d. fold f.
  rewrite shr_exact_noshift by lia. simpl shr_m. simpl loc_of_shr_record.
  simpl round_nearest_even. rewrite Zdigits2_pos. fold d. fold f.
  rewrite shr_exact_noshift by lia. simpl shr_m. reflexivity.
- intros [HE Hf].
  assert (Hfd : f = d + E - 53) by (unfold f in *; rewrite fexp_eq in *; lia).
  split; [exact Hfd|].
  pose proof (digits_bounds M) as Hd. fold d in Hd.
  set (n := f - E) in *. assert (Hn : 0 < n) by lia.
  assert (Hdn : d = n + 53) by lia.
  assert (Hq : 2 ^ 52 <= Zpos M / 2 ^ n < 2 ^ 53).
  { rewrite Hdn in Hd. replace (n + 53 - 1) with (52 + n) in Hd by lia.
    replace (n + 53) with (53 + n) in Hd by lia.
    rewrite !Z.pow_add_r in Hd by lia.
    assert (0 < 2 ^ n) by (apply Z.pow_pos_nonneg; lia).
    split.
    - apply Z.div_le_lower_bound; lia.
    - apply Z.div_lt_upper_bound; lia. }
  unfold binary_round_aux, shr_fexp. rewrite Zdigits2_pos. fold d. fold f. fold n.
  pose proof (shr_spec (Zpos M) loc_Exact E n ltac:(lia)) as [Hm1 He1].
  destruct (shr (shr_record_of_loc (Zpos M) loc_Exact) E n) as [mrs1 e1].
  simpl fst in Hm1. simpl snd in He1.
  rewrite (proj2 (Z.ltb_lt 0 n) Hn) in Hm1, He1.
  set (m1' := round_nearest_even (shr_m mrs1) (loc_of_shr_record mrs1)).
  assert (Hm1' : m1' = Zpos M / 2 ^ n \/ m1' = Zpos M / 2 ^ n + 1).
  { unfold m1'. rewrite <- Hm1. apply round_nearest_even_bounds. }
  assert (Hpos : 0 < m1') by (simpl in Hq; lia).
  destruct m1' as [|m'|] eqn:Em'; try lia.
  exists m'. split; [exact Hm1'|]. split; [simpl in *; lia|].
  rewrite Zdigits2_pos.
  replace (E + n) with f in He1 by (unfold n; lia). subst e1.
  destruct (Z.eqb_spec (Zpos m') (2 ^ 53)) as [E53|N53].
  + assert (Hd' : Zpos (digits2_pos m') = 54).
    { apply digits_unique. rewrite E53. simpl. lia. }
    rewrite Hd'. rewrite fexp_eq.
    replace (Z.max (54 + f - 53) (-1074) - f) with 1 by lia.
    pose proof (shr_spec (Zpos m') loc_Exact f 1 ltac:(lia)) as [Hm2 He2].
    destruct (shr (shr_record_of_loc (Zpos m') loc_Exact) f 1) as [mrs2 e2].
    simpl fst in Hm2. simpl snd in He2. simpl (0 <? 1) in *. cbv iota in Hm2, He2.
    rewrite Hm2, E53, He2. reflexivity.
  + assert (Hd' : Zpos (digits2_pos m') = 53).
    { apply digits_unique. simpl in *. lia. }
    rewrite Hd'. rewrite fexp_eq.
    rewrite shr_exact_noshift by lia. simpl shr_m. reflexivity.
Qed.

(** shl_align *)
Lemma iter_xO m d : Zpos (Pos.iter xO m d) = Zpos m * 2 ^ Zpos d.
Proof.
apply (Pos.iter_ind positive xO m (fun p a => Zpos a = Zpos m * 2 ^ Zpos p)).
- simpl. lia.
- intros p a Ha. rewrite Pos2Z.inj_succ, Z.pow_succ_r by lia.
  change (Zpos a~0) with (2 * Zpos a). lia.
Qed.

Lemma shl_align_spec m e e' :
let r := shl_align m e e' in
(e' < e -> Zpos (fst r) = Zpos m * 2 ^ (e - e') /\ snd r = e') /\
(e <= e' -> r = (m, e)).
Proof.
unfold shl_align. split.
- intros H. destruct (e' - e) as [|p|p] eqn:Ed; try lia. simpl.
  rewrite iter_xO. split; [|reflexivity]. replace (e - e') with (Zpos p) by lia. reflexivity.
- intros H. destruct (e' - e) as [|p|p] eqn:Ed; try reflexivity.
  lia.
Qed.



Lemma pow2_pos k : 0 <= k -> 0 < 2 ^ k.
Proof. intros. apply Z.pow_pos_nonneg; lia. Qed.

Lemma pow2_split a b : 0 <= a -> 0 <= b -> 2 ^ (a + b) = 2 ^ a * 2 ^ b.
Proof. intros. apply Z.pow_add_r; lia. Qed.

(** What the rounding of [M * 2^E] can be. *)

Lemma canonical_intro s m e :
fexp prec emax (Zpos (digits2_pos m) + e) = e -> e <= 971 ->
canonical (S754_finite s m e).
Proof.
intros Hf He. unfold canonical, valid_binary, bounded, canonical_mantissa.
rewrite Hf, Z.eqb_refl. simpl. apply Z.leb_le. exact He.
Qed.

Lemma binary_round_aux_rounding s M E :
-1074 <= E -> E <= fexp prec emax (Zpos (digits2_pos M) + E) ->
rounding s M E (binary_round_aux prec emax s (Zpos M) E loc_Exact).
Proof.
intros HE Hge.
set (d := Zpos (digits2_pos M)) in *. set (f := fexp prec emax (d + E)) in *.
assert (Hf0 : -1074 <= f) by (unfold f; rewrite fexp_eq; lia).
destruct (binary_round_aux_exact s M E) as [HA HB]. cbv zeta in HA, HB.
fold d in HA, HB. fold f in HA, HB. change (emax - prec) with 971 in *.
destruct (Z.eq_dec f E) as [Heq|Hne].
- rewrite (HA ltac:(lia)).
  destruct (Z.leb_spec E 971) as [H9|H9].
  + pose proof (pow2_pos (f + 1074) ltac:(lia)).
    apply rounding_finite; fold d; fold f;
      [ apply canonical_intro; [|lia]; fold d; fold f; lia
      | lia | lia | lia | lia | lia ].
  + apply rounding_overflow. fold d. fold f. lia.
- destruct (HB ltac:(lia)) as (Hfd & m' & Hm' & Hr & ->).
  set (n := f - E) in *.
  assert (Hn : 0 < n) by (unfold n; lia).
  pose proof (pow2_pos n ltac:(lia)) as HN.
  pose proof (pow2_pos (E + 1074) ltac:(lia)) as HA'.
  assert (Hfn : 2 ^ (f + 1074) = 2 ^ n * 2 ^ (E + 1074)).
  { replace (f + 1074) with (n + (E + 1074)) by (unfold n; lia).
    apply pow2_split; lia. }
  pose proof (Z.div_mod (Zpos M) (2 ^ n) ltac:(lia)) as Hdm.
  pose proof (Z.mod_pos_bound (Zpos M) (2 ^ n) HN) as Hmod.
  set (q := Zpos M / 2 ^ n) in *. set (rem := Zpos M mod 2 ^ n) in *.
  destruct (Z.eqb_spec (Zpos m') (2 ^ 53)) as [E53|N53].
  + destruct (Z.leb_spec (f + 1) 971) as [H9|H9].
    * assert (Hu : Zpos (2 ^ 52)%positive * 2 ^ (f + 1 + 1074)
                   = Zpos m' * 2 ^ (f + 1074)).
      { rewrite E53. replace (f + 1 + 1074) with (1 + (f + 1074)) by lia.
        rewrite (pow2_split 1) by lia.
        change (Zpos (2 ^ 52)%positive) with (2 ^ 52).
        change (2 ^ 53) with (2 ^ 52 * 2 ^ 1). lia. }
      apply rounding_finite; fold d; fold f;
        [ apply canonical_intro; [|lia];
          rewrite (digits_unique (2 ^ 52)%positive 53) by (simpl; lia);
          rewrite fexp_eq; lia
        | lia
        | reflexivity
        | rewrite Hu, Hfn; nia
        | rewrite Hu, Hfn; nia
        | lia ].
    * apply rounding_overflow. fold d. fold f. lia.
  + destruct (Z.leb_spec f 971) as [H9|H9].
    * apply rounding_finite; fold d; fold f;
        [ apply canonical_intro; [|lia];
          rewrite (digits_unique m' 53) by (simpl in *; lia);
          rewrite fexp_eq; lia
        | lia
        | lia
        | rewrite Hfn; nia
        | rewrite Hfn; nia
        | lia ].
    * apply rounding_overflow. fold d. fold f. lia.
Qed.

Lemma same_magnitude M E M' E' :
-1074 <= E' -> -1074 <= E ->
Zpos M' * 2 ^ (E' + 1074) = Zpos M * 2 ^ (E + 1074) ->
Zpos (digits2_pos M') + E' = Zpos (digits2_pos M) + E.
Proof.
intros HE' HE Hu.
pose proof (digits_bounds M) as HM. pose proof (digits_bounds M') as HM'.
set (d := Zpos (digits2_pos M)) in *. set (d' := Zpos (digits2_pos M')) in *.
assert (1 <= d) by (unfold d; lia). assert (1 <= d') by (unfold d'; lia).
pose proof (pow2_pos (E + 1074) ltac:(lia)).
pose proof (pow2_pos (E' + 1074) ltac:(lia)).
assert (HL1 : 2 ^ (d - 1 + (E + 1074)) < 2 ^ (d' + (E' + 1074))).
{ rewrite (pow2_split (d - 1)), (pow2_split d') by lia.
  assert (2 ^ (d - 1) * 2 ^ (E + 1074) <= Zpos M * 2 ^ (E + 1074))
    by (apply Z.mul_le_mono_nonneg_r; lia).
  assert (Zpos M' * 2 ^ (E' + 1074) < 2 ^ d' * 2 ^ (E' + 1074))
    by (apply Z.mul_lt_mono_pos_r; lia).
  rewrite Hu in *. eapply Z.le_lt_trans; eassumption. }
assert (HL2 : 2 ^ (d' - 1 + (E' + 1074)) < 2 ^ (d + (E + 1074))).
{ rewrite (pow2_split (d' - 1)), (pow2_split d) by lia.
  assert (2 ^ (d' - 1) * 2 ^ (E' + 1074) <= Zpos M' * 2 ^ (E' + 1074))
    by (apply Z.mul_le_mono_nonneg_r; lia).
  assert (Zpos M * 2 ^ (E + 1074) < 2 ^ d * 2 ^ (E + 1074))
    by (apply Z.mul_lt_mono_pos_r; lia).
  rewrite <- Hu in *. eapply Z.le_lt_trans; eassumption. }
apply Z.pow_lt_mono_r_iff in HL1; [|lia|lia].
apply Z.pow_lt_mono_r_iff in HL2; [|lia|lia]. lia.
Qed.

Lemma rounding_scale s M E M' E' r :
-1074 <= E' -> -1074 <= E ->
Zpos M' * 2 ^ (E' + 1074) = Zpos M * 2 ^ (E + 1074) ->
fexp prec emax (Zpos (digits2_pos M) + E) <= E' ->
rounding s M' E' r -> rounding s M E r.
Proof.
intros HE' HE Hu Hf Hr.
pose proof (same_magnitude M E M' E' HE' HE Hu) as Hd.
inversion Hr as [Ho|m e Hc He H52 Hlo Hhi Hex]; subst.
- apply rounding_overflow. now rewrite <- Hd.
- rewrite Hd in *. rewrite Hu in *.
  apply rounding_finite; auto.
Qed.

Lemma binary_round_rounding s M E :
-1074 <= E -> rounding s M E (binary_round prec emax s M E).
Proof.
intros HE. unfold binary_round.
set (d := Zpos (digits2_pos M)). set (f := fexp prec emax (d + E)).
assert (Hf0 : -1074 <= f) by (unfold f; rewrite fexp_eq; lia).
pose proof (shl_align_spec M E f) as [Hshl Hno].
destruct (Z_lt_le_dec f E) as [Hlt|Hge].
- (* the mantissa is moved up to the exponent [f] *)
  destruct (Hshl Hlt) as [Hm He]. destruct (shl_align M E f) as [mz ez].
  cbn [fst snd] in Hm, He. subst ez.
  assert (Hu : Zpos mz * 2 ^ (f + 1074) = Zpos M * 2 ^ (E + 1074)).
  { rewrite Hm. replace (E + 1074) with ((E - f) + (f + 1074)) by lia.
    rewrite (pow2_split (E - f)) by lia. lia. }
  assert (Hdz : Zpos (digits2_pos mz) = d + (E - f)).
  { apply digits_unique. rewrite Hm. pose proof (digits_bounds M) as Hd. fold d in Hd.
    replace (d + (E - f) - 1) with ((d - 1) + (E - f)) by lia.
    assert (1 <= d) by (unfold d; lia).
    rewrite !pow2_split by lia. pose proof (pow2_pos (E - f) ltac:(lia)).
    split; [apply Z.mul_le_mono_nonneg_r; lia|apply Z.mul_lt_mono_pos_r; lia]. }
  apply (rounding_scale s M E mz f); [lia|lia|exact Hu|fold d; fold f; lia|].
  apply binary_round_aux_rounding; [lia|].
  rewrite Hdz. replace (d + (E - f) + f) with (d + E) by lia. fold f. lia.
- rewrite (Hno Hge). apply binary_round_aux_rounding; [lia|exact Hge].
Qed.

Lemma canonical_inv s m e :
canonical (S754_finite s m e) ->
-1074 <= e <= 971 /\ Zpos m < 2 ^ 53 /\ (-1074 < e -> 2 ^ 52 <= Zpos m).
Proof.
unfold canonical, valid_binary, bounded, canonical_mantissa.
rewrite andb_true_iff, Z.eqb_eq, Z.leb_le, fexp_eq.
change (emax - prec) with 971. intros [Hc He].
pose proof (digits_bounds m) as Hd. set (d := Zpos (digits2_pos m)) in *.
assert (1 <= d) by (unfold d; lia).
split; [lia|]. split.
- assert (2 ^ d <= 2 ^ 53) by (apply Z.pow_le_mono_r; lia). lia.
- intros Hn. assert (d = 53) by lia. subst d. rewrite H0 in Hd.
  change (53 - 1) with 52 in Hd. lia.
Qed.

Lemma canonical_sign s s' m e :
canonical (S754_finite s m e) -> canonical (S754_finite s' m e).
Proof. exact (fun H => H). Qed.

Lemma binary_normalize_spec z E szero :
-1074 <= E ->
match z with
| 0 => binary_normalize prec emax z E szero = S754_zero szero
| Zpos p => rounding false p E (binary_normalize prec emax z E szero)
| Zneg p => rounding true p E (binary_normalize prec emax z E szero)
end.
Proof.
intros HE. destruct z; simpl; [reflexivity| |]; now apply binary_round_rounding.
Qed.

(** A value that is at least an integer up to [2^53] is not rounded
  below it. *)
Lemma rounding_ge s M E r v :
rounding s M E r -> -1074 <= E -> 1 <= v <= 2 ^ 53 ->
v * 2 ^ 1074 <= Zpos M * 2 ^ (E + 1074) ->
r = S754_infinity s \/
exists m e, r = S754_finite s m e /\ canonical r /\
            v * 2 ^ 1074 <= Zpos m * 2 ^ (e + 1074).
Proof.
intros Hr HE Hv Hle.
inversion Hr as [Ho|m e Hc He H52 Hlo Hhi Hex]; subst; [now left|right].
exists m, e. split; [reflexivity|]. split; [exact Hc|].
set (f := fexp prec emax (Z.pos (digits2_pos M) + E)) in *.
destruct (Z_le_gt_dec f E) as [Hfe|Hfe]; [rewrite (Hex Hfe); exact Hle|].
destruct (canonical_inv _ _ _ Hc) as (Hce & Hm53 & Hm52).
specialize (Hm52 ltac:(lia)).
destruct (Z_le_gt_dec 1 e) as [He1|He0].
- assert (2 ^ (1 + 1074) <= 2 ^ (e + 1074)) by (apply Z.pow_le_mono_r; lia).
  rewrite pow2_split in H by lia. change (2 ^ 1) with 2 in H.
  pose proof (pow2_pos 1074 ltac:(lia)).
  change (2 ^ 53) with (2 ^ 52 * 2) in Hv.
  assert (v * 2 ^ 1074 <= 2 ^ 52 * 2 * 2 ^ 1074)
    by (apply Z.mul_le_mono_nonneg_r; lia).
  assert (2 ^ 52 * (2 * 2 ^ 1074) <= Zpos m * 2 ^ (e + 1074)).
  { apply Z.mul_le_mono_nonneg; lia. }
  lia.
- pose proof (pow2_pos (f + 1074) ltac:(lia)) as HF.
  assert (H1 : 2 ^ 1074 = 2 ^ (- f) * 2 ^ (f + 1074)).
  { rewrite <- pow2_split by lia. f_equal. lia. }
  assert (H2 : 2 ^ (e + 1074) = 2 ^ (e - f) * 2 ^ (f + 1074)).
  { rewrite <- pow2_split by lia. f_equal. lia. }
  rewrite H1, H2 in *. pose proof (pow2_pos (- f) ltac:(lia)).
  pose proof (pow2_pos (e - f) ltac:(lia)).
  set (F := 2 ^ (f + 1074)) in *. set (a := 2 ^ (- f)) in *.
  set (b := 2 ^ (e - f)) in *. set (X := Zpos M * 2 ^ (E + 1074)) in *.
  assert (v * a < Zpos m * b + 1) by nia. nia.
Qed.

(** A value below [2^(K+1074)] units, with [K] in range, does not
  overflow. *)
Lemma rounding_bounded s M E r K :
rounding s M E r -> -1074 <= E -> K <= 1023 ->
Zpos M * 2 ^ (E + 1074) < 2 ^ (K + 1074) ->
exists m e, r = S754_finite s m e /\ canonical r /\
            e <= Z.max (K - 53) (-1074) + 1 /\
            Zpos m * 2 ^ (e + 1074)
            <= Zpos M * 2 ^ (E + 1074) + 2 ^ (Z.max (K - 53) (-1074) + 1074).
Proof.
intros Hr HE HK Hlt.
assert (Hd : Zpos (digits2_pos M) + E <= K).
{ pose proof (digits_bounds M) as Hd. set (d := Zpos (digits2_pos M)) in *.
  assert (1 <= d) by (unfold d; lia).
  pose proof (pow2_pos (E + 1074) ltac:(lia)).
  assert (HL : 2 ^ (d - 1 + (E + 1074)) < 2 ^ (K + 1074)).
  { rewrite (pow2_split (d - 1)) by lia.
    assert (2 ^ (d - 1) * 2 ^ (E + 1074) <= Zpos M * 2 ^ (E + 1074))
      by (apply Z.mul_le_mono_nonneg_r; lia).
    lia. }
  destruct (Z_lt_le_dec (K + 1074) 0) as [Hneg|Hnn].
  - rewrite (Z.pow_neg_r 2 (K + 1074)) in HL by lia.
    pose proof (pow2_pos (d - 1 + (E + 1074)) ltac:(lia)). lia.
  - apply Z.pow_lt_mono_r_iff in HL; lia. }
inversion Hr as [Ho|m e Hc He H52 Hlo Hhi Hex]; subst;
  set (f := fexp prec emax (Z.pos (digits2_pos M) + E)) in *;
  assert (Hf : f <= Z.max (K - 53) (-1074)) by (unfold f; rewrite fexp_eq; lia);
  assert (Hf0 : -1074 <= f) by (unfold f; rewrite fexp_eq; lia); [lia|].
exists m, e. repeat split; try assumption; try lia.
assert (2 ^ (f + 1074) <= 2 ^ (Z.max (K - 53) (-1074) + 1074))
  by (apply Z.pow_le_mono_r; lia).
lia.
Qed.

(** Order on the finite numbers. *)

Lemma canonical_lt m1 e1 m2 e2 s1 s2 :
canonical (S754_finite s1 m1 e1) -> canonical (S754_finite s2 m2 e2) ->
e1 < e2 -> Zpos m1 * 2 ^ (e1 + 1074) < Zpos m2 * 2 ^ (e2 + 1074).
Proof.
intros H1 H2 He.
destruct (canonical_inv _ _ _ H1) as (He1 & Hm1 & _).
destruct (canonical_inv _ _ _ H2) as (He2 & _ & Hm2).
specialize (Hm2 ltac:(lia)).
assert (HU : 2 ^ (e2 + 1074) = 2 ^ (e2 - e1) * 2 ^ (e1 + 1074)).
{ rewrite <- pow2_split by lia. f_equal. lia. }
assert (2 ^ 1 <= 2 ^ (e2 - e1)) by (apply Z.pow_le_mono_r; lia).
change (2 ^ 1) with 2 in H. change (2 ^ 53) with (2 ^ 52 * 2) in Hm1.
pose proof (pow2_pos (e1 + 1074) ltac:(lia)).
rewrite HU. set (U := 2 ^ (e1 + 1074)) in *. set (k := 2 ^ (e2 - e1)) in *.
assert (Zpos m1 * U < 2 ^ 52 * 2 * U) by (apply Z.mul_lt_mono_pos_r; lia).
assert (2 ^ 52 * 2 * U <= 2 ^ 52 * k * U).
{ apply Z.mul_le_mono_nonneg_r; [lia|]. apply Z.mul_le_mono_nonneg_l; lia. }
assert (2 ^ 52 * (k * U) <= Zpos m2 * (k * U)).
{ apply Z.mul_le_mono_nonneg_r; lia. }
lia.
Qed.

Lemma SFcompare_units x y :
finite_or_zero x -> finite_or_zero y ->
SFcompare x y = Some (units x ?= units y).
Proof.
destruct x as [sx|sx| |sx mx ex], y as [sy|sy| |sy my ey];
  unfold finite_or_zero; try contradiction; intros Hx Hy;
  unfold SFcompare, units, cond_Zopp.
- reflexivity.
- destruct (canonical_inv _ _ _ Hy) as (He & _).
  pose proof (pow2_pos (ey + 1074) ltac:(lia)).
  destruct sy; f_equal; symmetry.
  + apply Z.compare_gt_iff. lia.
  + apply Z.compare_lt_iff. lia.
- destruct (canonical_inv _ _ _ Hx) as (He & _).
  pose proof (pow2_pos (ex + 1074) ltac:(lia)).
  destruct sx; f_equal; symmetry.
  + apply Z.compare_lt_iff. lia.
  + apply Z.compare_gt_iff. lia.
- destruct (canonical_inv _ _ _ Hx) as (Hex & _).
  destruct (canonical_inv _ _ _ Hy) as (Hey & _).
  pose proof (pow2_pos (ex + 1074) ltac:(lia)).
  pose proof (pow2_pos (ey + 1074) ltac:(lia)).
  assert (Hsame : ex = ey ->
            (Zpos mx * 2 ^ (ex + 1074) ?= Zpos my * 2 ^ (ey + 1074))
            = Pos.compare_cont Eq mx my).
  { intros ->. change (Pos.compare_cont Eq mx my) with (Zpos mx ?= Zpos my).
    destruct (Z.compare_spec (Zpos mx) (Zpos my)) as [Heq|Hlt|Hgt].
    - rewrite Heq. apply Z.compare_refl.
    - apply Z.compare_lt_iff. apply Z.mul_lt_mono_pos_r; lia.
    - apply Z.compare_gt_iff. apply Z.mul_lt_mono_pos_r; lia. }
  f_equal. destruct sx, sy.
  + (* both negative *)
    rewrite Z.compare_opp.
    destruct (Z.compare_spec ex ey) as [Heq|Hlt|Hgt].
    * rewrite (Z.compare_antisym (Zpos mx * 2 ^ (ex + 1074))), (Hsame Heq).
      reflexivity.
    * symmetry. apply Z.compare_gt_iff. now apply (canonical_lt _ _ _ _ true true).
    * symmetry. apply Z.compare_lt_iff. now apply (canonical_lt _ _ _ _ true true).
  + symmetry. apply Z.compare_lt_iff. lia.
  + symmetry. apply Z.compare_gt_iff. lia.
  + destruct (Z.compare_spec ex ey) as [Heq|Hlt|Hgt].
    * now rewrite Hsame.
    * symmetry. apply Z.compare_lt_iff. now apply (canonical_lt _ _ _ _ false false).
    * symmetry. apply Z.compare_gt_iff. now apply (canonical_lt _ _ _ _ false false).
Qed.


(** Aligned mantissas *)
Lemma aligned_units m e ez :
ez <= e -> -1074 <= ez ->
Zpos (fst (shl_align m e ez)) * 2 ^ (ez + 1074) = Zpos m * 2 ^ (e + 1074).
Proof.
intros Hle Hez. pose proof (shl_align_spec m e ez) as [Hshl Hno].
destruct (Z_lt_le_dec ez e) as [Hlt|Hge].
- destruct (Hshl Hlt) as [-> _].
  replace (e + 1074) with ((e - ez) + (ez + 1074)) by lia.
  rewrite (pow2_split (e - ez)) by lia. lia.
- rewrite (Hno Hge). simpl fst. now replace ez with e by lia.
Qed.

Lemma cond_Zopp_mul s a b : cond_Zopp s a * b = cond_Zopp s (a * b).
Proof. destruct s; simpl; lia. Qed.

Lemma SFadd_finite sx mx ex sy my ey :
-1074 <= ex -> -1074 <= ey ->
exists z,
  add (S754_finite sx mx ex) (S754_finite sy my ey)
  = binary_normalize prec emax z (Z.min ex ey) false /\
  z * 2 ^ (Z.min ex ey + 1074)
  = units (S754_finite sx mx ex) + units (S754_finite sy my ey).
Proof.
intros Hx Hy. eexists. split; [reflexivity|].
unfold units. rewrite Z.mul_add_distr_r, !cond_Zopp_mul.
rewrite !aligned_units by lia. reflexivity.
Qed.

Lemma SFsub_finite sx mx ex sy my ey :
-1074 <= ex -> -1074 <= ey ->
exists z,
  sub (S754_finite sx mx ex) (S754_finite sy my ey)
  = binary_normalize prec emax z (Z.min ex ey) false /\
  z * 2 ^ (Z.min ex ey + 1074)
  = units (S754_finite sx mx ex) - units (S754_finite sy my ey).
Proof.
intros Hx Hy. eexists. split; [reflexivity|].
unfold units. rewrite Z.mul_sub_distr_r, !cond_Zopp_mul.
rewrite !aligned_units by lia. reflexivity.
Qed.

(** Numbers that are at least an integer, and numbers that are not
  negative. *)


(** What [Math.floor] and the operations on well-formed numbers give. *)

Lemma rounding_well_formed s M E r : rounding s M E r -> well_formed r.
Proof. now destruct 1. Qed.

Lemma binary_normalize_well_formed z E szero :
-1074 <= E -> well_formed (binary_normalize prec emax z E szero).
Proof.
intros HE. pose proof (binary_normalize_spec z E szero HE) as H.
destruct z; [now rewrite H| |]; eapply rounding_well_formed; eassumption.
Qed.

Lemma Math_floor_well_formed x : x <> NaN -> well_formed (Math_floor x).
Proof.
destruct x as [s|s| |s m e]; simpl; try easy.
intros _. now apply binary_normalize_well_formed.
Qed.

(** Integers below [2^53] are numbers. *)
Lemma of_Z_safe z :
0 < z < 2 ^ 53 ->
exists m e, of_Z z = S754_finite false m e /\ canonical (of_Z z) /\
            Zpos m * 2 ^ (e + 1074) = z * 2 ^ 1074.
Proof.
intros Hz. destruct z as [|p|p]; try lia.
pose proof (binary_normalize_spec (Zpos p) 0 false ltac:(lia)) as Hr.
change (binary_normalize prec emax (Zpos p) 0 false) with (of_Z (Zpos p)) in Hr.
pose proof (digits_bounds p) as Hd.
assert (Hd53 : Zpos (digits2_pos p) <= 53).
{ destruct (Z_le_gt_dec (Zpos (digits2_pos p)) 53) as [|Hgt]; [assumption|].
  assert (2 ^ 53 <= 2 ^ (Zpos (digits2_pos p) - 1)) by (apply Z.pow_le_mono_r; lia).
  lia. }
remember (of_Z (Zpos p)) as r eqn:Er. clear Er.
destruct Hr as [Ho|m e Hc He H52 Hlo Hhi Hex].
- rewrite fexp_eq in Ho. lia.
- exists m, e. split; [reflexivity|]. split; [exact Hc|].
  rewrite Hex by (rewrite fexp_eq; lia). f_equal.
Qed.

Lemma units_of_Z z : 0 <= z < 2 ^ 53 -> units (of_Z z) = z * 2 ^ 1074.
Proof.
intros Hz. destruct (Z.eq_dec z 0) as [->|Hn]; [reflexivity|].
destruct (of_Z_safe z ltac:(lia)) as (m & e & -> & _ & Hu). exact Hu.
Qed.

Lemma of_Z_finite_or_zero z : 0 <= z < 2 ^ 53 -> finite_or_zero (of_Z z).
Proof.
intros Hz. destruct (Z.eq_dec z 0) as [->|Hn]; [exact I|].
destruct (of_Z_safe z ltac:(lia)) as (m & e & E & Hc & _).
rewrite E in *. exact Hc.
Qed.

Lemma round_at_least z E v :
-1074 <= E -> 1 <= v <= 2 ^ 53 -> v * 2 ^ 1074 <= z * 2 ^ (E + 1074) ->
at_least v (binary_normalize prec emax z E false).
Proof.
intros HE Hv Hle.
pose proof (pow2_pos 1074 ltac:(lia)). pose proof (pow2_pos (E + 1074) ltac:(lia)).
pose proof (binary_normalize_spec z E false HE) as Hr.
destruct z as [|p|p]; [nia| |nia].
destruct (rounding_ge _ _ _ _ v Hr HE Hv Hle) as [->|(m & e & Er & Hc & Hm)].
- now left.
- right. exists m, e. rewrite Er in *. auto.
Qed.

Lemma round_bounded z E K :
-1074 <= E -> K <= 1023 -> 0 < z -> z * 2 ^ (E + 1074) < 2 ^ (K + 1074) ->
exists m e, binary_normalize prec emax z E false = S754_finite false m e /\
            canonical (S754_finite false m e) /\
            e <= Z.max (K - 53) (-1074) + 1 /\
            Zpos m * 2 ^ (e + 1074)
            <= z * 2 ^ (E + 1074) + 2 ^ (Z.max (K - 53) (-1074) + 1074).
Proof.
intros HE HK Hz Hlt.
pose proof (binary_normalize_spec z E false HE) as Hr.
destruct z as [|p|p]; try lia.
destruct (rounding_bounded _ _ _ _ K Hr HE HK Hlt) as (m & e & Er & Hc & He & Hu).
exists m, e. rewrite Er in *. auto.
Qed.

Lemma at_least_mono v w x : w <= v -> at_least v x -> at_least w x.
Proof.
intros Hw [->|(m & e & -> & Hc & Hm)]; [now left|right].
exists m, e. split; [reflexivity|]. split; [exact Hc|].
pose proof (pow2_pos 1074 ltac:(lia)). nia.
Qed.

Lemma at_least_well_formed v x : at_least v x -> well_formed x.
Proof. now intros [->|(m & e & -> & Hc & _)]. Qed.

(** The floor of the fee. *)
Lemma floor_fee_at_least b :
0 <= b < 2 ^ 53 ->
exists m e,
  add (of_Z b) (of_Z (30 * 10 ^ 9)) = S754_finite false m e /\
  canonical (S754_finite false m e) /\
  (b + 1) * 2 ^ 1074 <= Zpos m * 2 ^ (e + 1074).
Proof.
intros Hb.
destruct (of_Z_safe (30 * 10 ^ 9) ltac:(simpl; lia)) as (mc & ec & Ec & Hcc & Huc).
rewrite Ec in Hcc. destruct (canonical_inv _ _ _ Hcc) as (Hec & _).
pose proof (pow2_pos 1074 ltac:(lia)) as HU.
destruct (Z.eq_dec b 0) as [->|Hn].
- exists mc, ec. rewrite Ec. split; [reflexivity|]. split; [exact Hcc|].
  rewrite Huc. simpl (30 * 10 ^ 9). lia.
- destruct (of_Z_safe b ltac:(lia)) as (mb & eb & Eb & Hcb & Hub).
  rewrite Eb in Hcb. destruct (canonical_inv _ _ _ Hcb) as (Heb & _).
  rewrite Eb, Ec.
  destruct (SFadd_finite false mb eb false mc ec ltac:(lia) ltac:(lia))
    as (z & -> & Hz).
  unfold units, cond_Zopp in Hz. rewrite Hub, Huc in Hz.
  set (E := Z.min eb ec) in *.
  pose proof (pow2_pos (E + 1074) ltac:(lia)) as HE.
  assert (Hsum : z * 2 ^ (E + 1074) = (b + 30 * 10 ^ 9) * 2 ^ 1074) by lia.
  assert (Hz0 : 0 < z) by nia.
  assert (Hlt : z * 2 ^ (E + 1074) < 2 ^ (54 + 1074)).
  { rewrite Hsum, (pow2_split 54) by lia.
    apply Z.mul_lt_mono_pos_r; [lia|]. simpl. simpl in Hb. lia. }
  destruct (round_bounded z E 54 ltac:(lia) ltac:(lia) Hz0 Hlt)
    as (m & e & Er & Hc & _).
  exists m, e. split; [exact Er|]. split; [exact Hc|].
  assert (Hv : 1 <= b + 1 <= 2 ^ 53) by lia.
  assert (Hle : (b + 1) * 2 ^ 1074 <= z * 2 ^ (E + 1074)).
  { rewrite Hsum. apply Z.mul_le_mono_nonneg_r; [lia|]. simpl. lia. }
  destruct (round_at_least z E (b + 1) ltac:(lia) Hv Hle)
    as [Hinf|(m' & e' & Er' & _ & Hm')].
  + rewrite Er in Hinf. discriminate.
  + rewrite Er in Er'. injection Er' as <- <-. exact Hm'.
Qed.

Lemma add_zero b : 0 <= b < 2 ^ 53 -> add (of_Z b) (of_Z 0) = of_Z b.
Proof.
intros Hb. destruct (Z.eq_dec b 0) as [->|Hn]; [reflexivity|].
destruct (of_Z_safe b ltac:(lia)) as (m & e & -> & _). reflexivity.
Qed.

Lemma lt_units x y :
finite_or_zero x -> finite_or_zero y -> lt x y = (units x <? units y).
Proof.
intros Hx Hy. unfold lt, SFltb. rewrite (SFcompare_units x y Hx Hy).
unfold Z.ltb. now destruct (units x ?= units y).
Qed.

(** The base fee is below the floor. *)
Lemma base_fee_below_floor b :
0 <= b < 2 ^ 53 -> lt (of_Z b) (add (of_Z b) (of_Z (30 * 10 ^ 9))) = true.
Proof.
intros Hb. destruct (floor_fee_at_least b Hb) as (m & e & -> & Hc & Hm).
rewrite lt_units; [|now apply of_Z_finite_or_zero|exact Hc].
rewrite units_of_Z by assumption. apply Z.ltb_lt.
unfold units, cond_Zopp. pose proof (pow2_pos 1074 ltac:(lia)). nia.
Qed.

(** A number that is not below a number that is at least [v] is at
  least [v]. *)
Lemma not_lt_at_least x y v :
well_formed x -> at_least v y -> 1 <= v -> lt x y = false -> at_least v x.
Proof.
intros Hx [->|(m & e & -> & Hc & Hm)] Hv Hlt.
- destruct x as [s|[|]| |s mx ex]; try discriminate; try contradiction.
  now left.
- pose proof (pow2_pos 1074 ltac:(lia)) as HU.
  destruct x as [s|[|]| |s mx ex]; try discriminate; try contradiction.
  + now left.
  + rewrite lt_units in Hlt by (exact Hx || exact Hc).
    apply Z.ltb_ge in Hlt. unfold units, cond_Zopp in Hlt.
    destruct (canonical_inv _ _ _ Hx) as (Hex & _).
    pose proof (pow2_pos (ex + 1074) ltac:(lia)).
    destruct s; [nia|]. right. exists mx, ex. repeat split; auto. lia.
Qed.

Lemma sub_at_least x b :
0 <= b < 2 ^ 53 -> at_least (b + 1) x -> at_least 1 (sub x (of_Z b)).
Proof.
intros Hb [->|(m & e & -> & Hc & Hm)].
- left. destruct (Z.eq_dec b 0) as [->|Hn]; [reflexivity|].
  destruct (of_Z_safe b ltac:(lia)) as (mb & eb & -> & _). reflexivity.
- destruct (Z.eq_dec b 0) as [->|Hn].
  + right. exists m, e. repeat split; auto.
  + destruct (of_Z_safe b ltac:(lia)) as (mb & eb & Eb & Hcb & Hub).
    rewrite Eb in *. destruct (canonical_inv _ _ _ Hcb) as (Heb & _).
    destruct (canonical_inv _ _ _ Hc) as (He & _).
    destruct (SFsub_finite false m e false mb eb ltac:(lia) ltac:(lia))
      as (z & -> & Hz).
    unfold units, cond_Zopp in Hz. rewrite Hub in Hz.
    apply round_at_least; [lia|simpl; lia|]. lia.
Qed.

Lemma sub_one_not_negative x :
at_least 1 x -> not_negative (sub x (of_Z 1)).
Proof.
destruct (of_Z_safe 1 ltac:(simpl; lia)) as (m1 & e1 & E1 & Hc1 & Hu1).
rewrite E1 in *. destruct (canonical_inv _ _ _ Hc1) as (He1 & _).
intros [->|(m & e & -> & Hc & Hm)]; [exact I|].
destruct (canonical_inv _ _ _ Hc) as (He & _).
destruct (SFsub_finite false m e false m1 e1 ltac:(lia) ltac:(lia))
  as (z & -> & Hz).
unfold units, cond_Zopp in Hz. rewrite Hu1 in Hz.
set (E := Z.min e e1) in *.
pose proof (pow2_pos (E + 1074) ltac:(lia)).
pose proof (binary_normalize_spec z E false ltac:(lia)) as Hr.
destruct z as [|p|p]; [now rewrite Hr| |nia].
now destruct Hr.
Qed.

Lemma Math_min_zero x :
not_negative x -> Math_min (S754_zero false) x = S754_zero false.
Proof. destruct x as [[|]|[|]| |[|] m e]; simpl; try easy. Qed.

(** The priority fee of a tip of zero is zero. *)
Lemma zero_priority b cap :
0 <= b < 2 ^ 53 -> well_formed cap ->
lt cap (add (of_Z b) (of_Z (30 * 10 ^ 9))) = false ->
Math_min (of_Z 0) (sub (sub cap (of_Z b)) (of_Z 1)) = of_Z 0.
Proof.
intros Hb Hcap Hlt.
destruct (floor_fee_at_least b Hb) as (m & e & Ef & Hc & Hm).
apply Math_min_zero, sub_one_not_negative, sub_at_least; [exact Hb|].
apply (not_lt_at_least cap _ (b + 1) Hcap) in Hlt; [exact Hlt| |lia].
right. exists m, e. rewrite Ef. auto.
Qed.

(** Rounding a mantissa that is not negative never gives [NaN]. *)
Lemma round_nearest_even_nonneg m l : 0 <= m -> 0 <= round_nearest_even m l.
Proof. intros H. destruct (round_nearest_even_bounds m l); lia. Qed.

Lemma binary_round_aux_not_nan s m e l :
0 <= m -> binary_round_aux prec emax s m e l <> NaN.
Proof.
intros Hm. unfold binary_round_aux, shr_fexp.
pose proof (shr_spec m l e (fexp prec emax (Zdigits2 m + e) - e) Hm) as [Hm1 _].
destruct (shr (shr_record_of_loc m l) e _) as [mrs1 e1]. simpl fst in Hm1.
set (m1 := round_nearest_even (shr_m mrs1) (loc_of_shr_record mrs1)).
assert (H1 : 0 <= m1).
{ apply round_nearest_even_nonneg. rewrite Hm1.
  destruct (0 <? _) eqn:El; [|lia].
  apply Z.ltb_lt in El. apply Z.div_pos; [lia|]. apply Z.pow_pos_nonneg; lia. }
pose proof (shr_spec m1 loc_Exact e1 (fexp prec emax (Zdigits2 m1 + e1) - e1) H1)
  as [Hm2 _].
destruct (shr (shr_record_of_loc m1 loc_Exact) e1 _) as [mrs2 e2]. simpl fst in Hm2.
assert (H2 : 0 <= shr_m mrs2).
{ rewrite Hm2. destruct (0 <? fexp prec emax (Zdigits2 m1 + e1) - e1) eqn:El; [|lia].
  apply Z.ltb_lt in El. apply Z.div_pos; [lia|]. apply Z.pow_pos_nonneg; lia. }
destruct (shr_m mrs2); [discriminate| |lia].
destruct (_ <=? _); discriminate.
Qed.

Lemma div_not_nan x sy my ey :
x <> NaN -> div x (S754_finite sy my ey) <> NaN.
Proof.
destruct x as [s|s| |s m e]; simpl; try easy. intros _.
unfold SFdiv_core_binary.
set (m' := match _ - _ with Z.pos _ => _ | _ => _ end).
assert (Hm' : 0 <= m').
{ unfold m'. destruct (_ - _) eqn:Es; try lia. apply Z.shiftl_nonneg. lia. }
pose proof (Z_div_mod m' (Zpos my) ltac:(lia)) as Hdm.
destruct (Z.div_eucl m' (Zpos my)) as [q r].
apply binary_round_aux_not_nan. nia.
Qed.

(** The gas limit of the transaction is a positive number. *)

Lemma one_tenth_more_is :
one_tenth_more = S754_finite false 4953959590107546 (-52).
Proof. reflexivity. Qed.

Lemma Math_ceil_positive m e :
canonical (S754_finite false m e) -> e <= 900 ->
finite_positive (Math_ceil (S754_finite false m e)).
Proof.
intros Hc He. destruct (canonical_inv _ _ _ Hc) as (Hce & Hm & _).
unfold Math_ceil, integer_below. simpl negb. unfold cond_Zopp.
set (z := - Z.shiftl (- Zpos m) e).
assert (Hz : 1 <= z <= 2 ^ 53 * 2 ^ 900).
{ unfold z. destruct (Z_le_gt_dec 0 e) as [H0|H0].
  - rewrite Z.shiftl_mul_pow2 by lia.
    assert (2 ^ e <= 2 ^ 900) by (apply Z.pow_le_mono_r; lia).
    pose proof (pow2_pos e H0). nia.
  - rewrite <- (Z.opp_involutive e), Z.shiftl_opp_r, Z.shiftr_div_pow2 by lia.
    pose proof (pow2_pos (- e) ltac:(lia)) as Hp.
    pose proof (pow2_pos 900 ltac:(lia)).
    pose proof (Z.div_mod (- Zpos m) (2 ^ (- e)) ltac:(lia)) as Hdm.
    pose proof (Z.mod_pos_bound (- Zpos m) (2 ^ (- e)) Hp) as Hmod.
    split; nia. }
assert (Hlt : z * 2 ^ (0 + 1074) < 2 ^ (954 + 1074)).
{ rewrite (pow2_split 954) by lia. apply Z.mul_lt_mono_pos_r; [apply pow2_pos; lia|].
  change (2 ^ 954) with (2 ^ 54 * 2 ^ 900). pose proof (pow2_pos 900 ltac:(lia)).
  change (2 ^ 54) with (2 * 2 ^ 53). pose proof (pow2_pos 53 ltac:(lia)). nia. }
destruct (round_bounded z 0 954 ltac:(lia) ltac:(lia) ltac:(lia) Hlt)
  as (m' & e' & Er & Hc' & _).
exists m', e'. rewrite Er. auto.
Qed.

Lemma gas_with_margin_positive g :
0 <= g < 2 ^ 53 -> finite_positive (gas_with_margin (of_Z g)).
Proof.
intros Hg. unfold gas_with_margin.
destruct (of_Z_safe 1000 ltac:(simpl; lia)) as (mk & ek & Ek & Hck & Huk).
rewrite Ek in Hck. destruct (canonical_inv _ _ _ Hck) as (Hek & _).
pose proof (pow2_pos 1074 ltac:(lia)) as HU.
destruct (Z.eq_dec g 0) as [->|Hn].
- vm_compute. eexists _, _. split; reflexivity.
- destruct (of_Z_safe g ltac:(lia)) as (mg & eg & Eg & Hcg & Hug).
  rewrite Eg in Hcg. rewrite Eg. destruct (canonical_inv _ _ _ Hcg) as (Heg & Hmg & Hmg').
  (* the exponent of an integer is not below -52 *)
  assert (Heg52 : -52 <= eg).
  { destruct (Z_le_gt_dec (-52) eg) as [|Hlow]; [assumption|exfalso].
    assert (2 ^ (eg + 1074) <= 2 ^ (1074 - 53)) by (apply Z.pow_le_mono_r; lia).
    assert (Hs : 2 ^ 1074 = 2 ^ 53 * 2 ^ (1074 - 53)) by (rewrite <- pow2_split by lia; reflexivity).
    pose proof (pow2_pos (eg + 1074) ltac:(lia)).
    assert (Zpos mg * 2 ^ (eg + 1074) < 2 ^ 53 * 2 ^ (1074 - 53)).
    { apply Z.le_lt_trans with (Zpos mg * 2 ^ (1074 - 53)).
      - apply Z.mul_le_mono_nonneg_l; lia.
      - apply Z.mul_lt_mono_pos_r; [apply pow2_pos; lia|lia]. }
    nia. }
  specialize (Hmg' ltac:(lia)).
  assert (Heg0 : eg <= 0).
  { destruct (Z_le_gt_dec eg 0) as [|Hhigh]; [assumption|exfalso].
    assert (2 ^ (1 + 1074) <= 2 ^ (eg + 1074)) by (apply Z.pow_le_mono_r; lia).
    change (2 ^ (1 + 1074)) with (2 * 2 ^ 1074) in H.
    assert (2 ^ 52 * (2 * 2 ^ 1074) <= Zpos mg * 2 ^ (eg + 1074))
      by (apply Z.mul_le_mono_nonneg; lia).
    change (2 ^ 53) with (2 ^ 52 * 2) in Hg. nia. }
  (* the product *)
  unfold mul, SFmul. rewrite one_tenth_more_is. simpl xorb.
  set (M := (mg * 4953959590107546)%positive). set (E := eg + -52).
  assert (HM : 2 ^ 104 <= Zpos M < 2 ^ 106).
  { unfold M. rewrite Pos2Z.inj_mul. change (2 ^ 104) with (2 ^ 52 * 2 ^ 52).
    change (2 ^ 106) with (2 ^ 53 * 2 ^ 53). simpl in Hmg, Hmg'. nia. }
  assert (Hd : 105 <= Zpos (digits2_pos M)).
  { pose proof (digits_bounds M) as Hd.
    destruct (Z_le_gt_dec 105 (Zpos (digits2_pos M))) as [|Hs]; [assumption|].
    assert (2 ^ Zpos (digits2_pos M) <= 2 ^ 104) by (apply Z.pow_le_mono_r; lia). lia. }
  assert (HEf : E <= fexp prec emax (Zpos (digits2_pos M) + E))
    by (rewrite fexp_eq; lia).
  assert (HE0 : -1074 <= E) by (unfold E; lia).
  pose proof (binary_round_aux_rounding false M E HE0 HEf) as Hr.
  assert (HE : 0 <= E + 1074) by (unfold E; lia).
  assert (Hexact : Zpos M * 2 ^ (E + 1074) < 2 ^ (55 + 1074)).
  { assert (2 ^ (E + 1074) <= 2 ^ (-52 + 1074)) by (apply Z.pow_le_mono_r; unfold E; lia).
    change (2 ^ (55 + 1074)) with (2 ^ 107 * 2 ^ (-52 + 1074)).
    pose proof (pow2_pos (-52 + 1074) ltac:(lia)). pose proof (pow2_pos (E + 1074) HE).
    apply Z.le_lt_trans with (Zpos M * 2 ^ (-52 + 1074)).
    - apply Z.mul_le_mono_nonneg_l; lia.
    - apply Z.mul_lt_mono_pos_r; [lia|]. change (2 ^ 107) with (2 * 2 ^ 106). lia. }
  destruct (rounding_bounded _ _ _ _ 55 Hr ltac:(unfold E; lia) ltac:(lia) Hexact)
    as (m1 & e1 & -> & Hc1 & He1 & Hu1).
  destruct (canonical_inv _ _ _ Hc1) as (Hce1 & _).
  (* the sum *)
  rewrite Ek.
  destruct (SFadd_finite false m1 e1 false mk ek ltac:(lia) ltac:(lia)) as (z & -> & Hz).
  unfold units, cond_Zopp in Hz. rewrite Huk in Hz.
  set (E2 := Z.min e1 ek) in *.
  pose proof (pow2_pos (E2 + 1074) ltac:(lia)).
  pose proof (pow2_pos (e1 + 1074) ltac:(lia)).
  assert (Hz0 : 0 < z) by nia.
  assert (Hlt2 : z * 2 ^ (E2 + 1074) < 2 ^ (57 + 1074)).
  { rewrite Hz. change (Z.max (55 - 53) (-1074)) with 2 in Hu1.
    change (2 ^ (57 + 1074)) with (4 * 2 ^ (55 + 1074)).
    change (2 ^ (2 + 1074)) with (4 * 2 ^ 1074) in Hu1.
    assert (2 ^ 1074 * 2 ^ 55 = 2 ^ (55 + 1074)) by reflexivity.
    pose proof (pow2_pos (55 + 1074) ltac:(lia)). nia. }
  destruct (round_bounded z E2 57 ltac:(lia) ltac:(lia) Hz0 Hlt2)
    as (m2 & e2 & -> & Hc2 & He2 & _).
  apply Math_ceil_positive; [exact Hc2|]. change (Z.max (57 - 53) (-1074)) with 4 in He2.
  lia.
Qed.

(** *** Order and minimum *)

Lemma SFcompare_antisym x y :
SFcompare y x = option_map CompOpp (SFcompare x y).
Proof.
destruct x as [[]|[]| |[] mx ex], y as [[]|[]| |[] my ey]; try reflexivity;
  unfold SFcompare;
  change (Pcompare my mx Eq) with (my ?= mx)%positive;
  change (Pcompare mx my Eq) with (mx ?= my)%positive;
  rewrite (Z.compare_antisym ex ey), (Pos.compare_antisym mx my);
  destruct (ex ?= ey); destruct (mx ?= my)%positive; reflexivity.
Qed.

Lemma SFcompare_refl x : SFcompare x x = None \/ SFcompare x x = Some Eq.
Proof.
destruct x as [[]|[]| |[] m e]; auto; unfold SFcompare;
  change (Pcompare m m Eq) with (m ?= m)%positive;
  rewrite Z.compare_refl, Pos.compare_refl; auto.
Qed.

Lemma lt_irrefl x : lt x x = false.
Proof. unfold lt, SFltb. now destruct (SFcompare_refl x) as [-> | ->]. Qed.

(** The minimum of two numbers is above neither. *)
Lemma Math_min_le_l x y : lt x (Math_min x y) = false.
Proof.
unfold Math_min. destruct (SFcompare x y) as [[]|] eqn:E.
- destruct x as [sx|sx| |sx mx ex], y as [sy|sy| |sy my ey];
    try apply lt_irrefl; try discriminate. reflexivity.
- apply lt_irrefl.
- unfold lt, SFltb. now rewrite E.
- unfold lt, SFltb. now destruct x as [[]|[]| |[] m e].
Qed.

Lemma Math_min_le_r x y : lt y (Math_min x y) = false.
Proof.
unfold Math_min. pose proof (SFcompare_antisym x y) as Ha.
destruct (SFcompare x y) as [[]|] eqn:E; simpl in Ha.
- destruct x as [sx|sx| |sx mx ex], y as [sy|sy| |sy my ey];
    try (unfold lt, SFltb; now rewrite Ha); try discriminate. reflexivity.
- unfold lt, SFltb. now rewrite Ha.
- apply lt_irrefl.
- unfold lt, SFltb. now destruct y as [[]|[]| |[] m e].
Qed.

Lemma Math_min_not_negative x y :
not_negative x -> not_negative y -> not_negative (Math_min x y).
Proof.
intros Hx Hy. unfold Math_min.
destruct x as [[]|[]| |[] mx ex], y as [[]|[]| |[] my ey];
  simpl in Hx, Hy; try contradiction; try exact I.
unfold SFcompare. destruct (ex ?= ey); try exact I.
destruct (Pcompare mx my Eq); exact I.
Qed.

(** A number that is at least [b + 1] is above [b]. *)
Lemma lt_at_least b x :
0 <= b < 2 ^ 53 -> at_least (b + 1) x -> lt (of_Z b) x = true.
Proof.
intros Hb [->|(m & e & -> & Hc & Hv)].
- pose proof (of_Z_finite_or_zero b Hb) as Hf. unfold lt, SFltb.
  destruct (of_Z b) as [[]|[]| |[] mb eb]; simpl in Hf; try contradiction;
    reflexivity.
- rewrite lt_units; [|now apply of_Z_finite_or_zero|exact Hc].
  rewrite units_of_Z by assumption. apply Z.ltb_lt.
  unfold units, cond_Zopp.
  assert (0 < 2 ^ 1074) by (apply Z.pow_pos_nonneg; lia). nia.
Qed.

(** The sum of a quantity of the node and a double is not [NaN]. *)
Lemma add_well_formed b d :
0 <= b < 2 ^ 53 -> canonical d -> d <> NaN -> well_formed (add (of_Z b) d).
Proof.
intros Hb Hd Hn.
pose proof (of_Z_finite_or_zero b Hb) as Hf.
destruct (of_Z b) as [sb|sb| |sb mb eb] eqn:Eb; simpl in Hf; try contradiction.
- destruct d as [sd|sd| |sd md ed]; try (now exfalso; apply Hn).
  + destruct sb, sd; exact I.
  + exact I.
  + exact Hd.
- destruct d as [sd|sd| |sd md ed]; try (now exfalso; apply Hn).
  + exact Hf.
  + exact I.
  + destruct (canonical_inv _ _ _ Hf) as (He & _).
    destruct (canonical_inv _ _ _ Hd) as (He' & _).
    destruct (SFadd_finite sb mb eb sd md ed ltac:(lia) ltac:(lia)) as (z & -> & _).
    apply binary_normalize_well_formed. lia.
Qed.

End JsNumberFacts.

(** ** Fee computation and dispatch of [callSmartContract] *)

Section CallFacts.
Import Call Decl.

Variable value : Type.
Variable receipt : Type.
Variable prototype_value : string -> value.
Variable encodeFunctionCall : FunctionAbi -> list value -> string.
Variable account_address : string.
Variable getTransactionCount : string -> Z.
Variable estimateGas : TransactionConfig -> JsNumber.safe_integer.
Variable baseFeePerGas : JsNumber.safe_integer.
Variable eth_call : TransactionConfig -> string.
Variable sendTransaction : TransactionConfig -> receipt.

Let call := callSmartContract value receipt prototype_value encodeFunctionCall
              account_address getTransactionCount estimateGas baseFeePerGas
              eth_call sendTransaction.
Let draft_of := draft value encodeFunctionCall account_address getTransactionCount.
Let baseFee := JsNumber.of_safe baseFeePerGas.
Let floor := JsNumber.add baseFee (JsNumber.of_Z (30 * 10 ^ 9)).
Let gas_of (txConfig : TransactionConfig) : JsNumber.number :=
  JsNumber.gas_with_margin (JsNumber.of_safe (estimateGas txConfig)).

Lemma safe_bounds (n : JsNumber.safe_integer) :
  0 <= JsNumber.safe_value n < 2 ^ 53.
Proof.
  pose proof (JsNumber.safe_range n) as H. unfold JsNumber.is_safe in H.
  apply andb_true_iff in H as [H1 H2]. lia.
Qed.

Lemma gas_of_finite txConfig :
  exists m e, gas_of txConfig = S754_finite false m e.
Proof.
  destruct (JsNumberFacts.gas_with_margin_positive
              (JsNumber.safe_value (estimateGas txConfig)) (safe_bounds _))
    as (m & e & E & _).
  now exists m, e.
Qed.

Lemma insufficient_throws {A} budget needed :
  throws (@insufficient A budget needed).
Proof.
  unfold insufficient.
  destruct (negb (printable budget)); [exact I|].
  destruct (negb (JsNumber.plain_integer needed)); exact I.
Qed.

Lemma call_unfold fields functionInfo paramArray budget tip :
  reaches_fees value prototype_value fields functionInfo paramArray budget tip ->
  call fields =
    (let txConfig := draft_of fields functionInfo paramArray in
     fees ← compute_fees baseFee (gas_of txConfig) budget tip;
     let txConfig' := priced txConfig (gas_of txConfig) fees in
     if read_only functionInfo || dryRun fields
     then Return (EthCall txConfig',
                  Simulated (eth_call txConfig')
                            (JsNumber.of_safe (estimateGas txConfig)) (minFee fees))
     else Return (EthSendTransaction txConfig', Sent (sendTransaction txConfig'))).
Proof.
  intros (Hp & Hc & Hg & (m & Hm) & Ht).
  unfold call, callSmartContract.
  rewrite Hp; simpl. rewrite Hc; simpl. rewrite Hg; simpl.
  rewrite Hm; simpl. rewrite Ht; simpl. reflexivity.
Qed.

Lemma normalise_tip f w :
  normalise f = Return w ->
  Number (if truthy w then w else WString default_tip) = desired_tip_of f.
Proof.
  destruct f as [|x|s]; simpl.
  - intros [= <-]; reflexivity.
  - intros [= <-]; simpl. destruct (JsNumber.truthy x); reflexivity.
  - destruct (toWei s ether) as [wei|e]; simpl; [|discriminate].
    intros [= <-]; reflexivity.
Qed.

Lemma normalise_cap f w gas desired :
  normalise f = Return w ->
  (if truthy w then JsNumber.Math_floor (JsNumber.div (Number w) gas)
   else JsNumber.add baseFee desired)
  = cap_of baseFee f gas desired.
Proof.
  destruct f as [|x|s]; simpl.
  - intros [= <-]; reflexivity.
  - intros [= <-]; simpl. destruct (JsNumber.truthy x); reflexivity.
  - destruct (toWei s ether) as [wei|e]; simpl; [|discriminate].
    intros [= <-]; reflexivity.
Qed.

(** The invocation from the fee check on, with the desired tip and the
    cap read off the input fields. *)
Lemma call_fees fields functionInfo paramArray budget tip :
  reaches_fees value prototype_value fields functionInfo paramArray budget tip ->
  let txConfig := draft_of fields functionInfo paramArray in
  let gas := gas_of txConfig in
  let desired := desired_tip_of (f_maxPriorityFeePerGas fields) in
  let cap := cap_of baseFee (gasLimit fields) gas desired in
  call fields =
    if JsNumber.lt cap floor
    then insufficient budget (JsNumber.mul floor gas)
    else
      let fees := {| minFee := floor;
                     maxFeePerGas := cap;
                     maxPriorityFeePerGas :=
                       JsNumber.Math_min
                         desired
                         (JsNumber.sub (JsNumber.sub cap baseFee)
                                       (JsNumber.of_Z 1)) |} in
      let txConfig' := priced txConfig gas fees in
      if read_only functionInfo || dryRun fields
      then Return (EthCall txConfig',
                   Simulated (eth_call txConfig')
                             (JsNumber.of_safe (estimateGas txConfig)) (minFee fees))
      else Return (EthSendTransaction txConfig', Sent (sendTransaction txConfig')).
Proof.
  intros Hr txConfig gas desired cap.
  pose proof (call_unfold _ _ _ _ _ Hr) as Hcall. cbv zeta in Hcall.
  fold txConfig in Hcall. fold gas in Hcall.
  destruct Hr as (_ & _ & Hg & _ & Ht).
  pose proof (normalise_tip _ _ Ht) as Htip. fold desired in Htip.
  pose proof (normalise_cap _ _ gas desired Hg) as Hcap.
  fold cap in Hcap.
  unfold compute_fees in Hcall. rewrite Htip, Hcap in Hcall.
  rewrite Hcall.
  change (JsNumber.add baseFee (JsNumber.of_Z floor_tip)) with floor.
  destruct (JsNumber.lt cap floor); [|reflexivity].
  unfold insufficient. destruct (negb (printable budget)); [reflexivity|].
  destruct (negb (JsNumber.plain_integer _)); reflexivity.
Qed.

(** C1 (as amended).  For an invocation that reaches the fee
    computation, all amounts being doubles: the floor is
    [baseFee + 30 gwei]; the desired tip is the supplied
    [maxPriorityFeePerGas] (a string being converted from ether to wei
    and then to the nearest double), or 75 gwei when the field is
    missing or is a number that is zero or [NaN]; the cap is
    [Math.floor] of the quotient of the budget by the final gas limit
    when [gasLimit] is supplied and is not such a number, and
    [baseFee + desired tip] otherwise.  The error of the fee check is
    thrown exactly when the cap is below the floor and the two amounts
    of its message can be written out, which for the budget means a
    string or a number printed as an integer; it holds the budget and
    [floor * gas].  A call whose cap is below the floor makes no
    request; a call whose cap is not below the floor makes one that
    carries the cap as [maxFeePerGas] and
    [Math.min(desired tip, cap - baseFee - 1)] as
    [maxPriorityFeePerGas].  With a base fee of 100 gwei, no tip and no
    budget these are 175 gwei and 75 gwei less one wei. *)
Theorem fee_bounds fields functionInfo paramArray budget tip :
  reaches_fees value prototype_value fields functionInfo paramArray budget tip ->
  let gas := gas_of (draft_of fields functionInfo paramArray) in
  let desired := desired_tip_of (f_maxPriorityFeePerGas fields) in
  let cap := cap_of baseFee (gasLimit fields) gas desired in
  let priority :=
    JsNumber.Math_min desired
      (JsNumber.sub (JsNumber.sub cap baseFee) (JsNumber.of_Z 1)) in
  ((exists g n, call fields = Throw (GasLimitTooLow g n)) <->
   JsNumber.lt cap floor = true /\ printable budget = true /\
   JsNumber.plain_integer (JsNumber.mul floor gas) = true) /\
  (forall g n, call fields = Throw (GasLimitTooLow g n) ->
               g = budget /\ n = JsNumber.mul floor gas) /\
  (JsNumber.lt cap floor = true -> throws (call fields)) /\
  (JsNumber.lt cap floor = false ->
   exists r p, call fields = Return (r, p) /\
     tx_gas (config_of r) = Some gas /\
     tx_maxFeePerGas (config_of r) = Some cap /\
     tx_maxPriorityFeePerGas (config_of r) = Some priority) /\
  (JsNumber.safe_value baseFeePerGas = 100 * 10 ^ 9 ->
   f_maxPriorityFeePerGas fields = Absent -> gasLimit fields = Absent ->
   cap = JsNumber.of_Z (175 * 10 ^ 9) /\
   priority = JsNumber.of_Z (75 * 10 ^ 9 - 1)).
Proof.
  intros Hr gas desired cap priority.
  pose proof (call_fees _ _ _ _ _ Hr) as Hcall. cbv zeta in Hcall.
  fold gas in Hcall. fold desired in Hcall. fold cap in Hcall.
  fold priority in Hcall.
  assert (Hlow : JsNumber.lt cap floor = true ->
                 call fields = insufficient budget (JsNumber.mul floor gas)).
  { intros Hlt. now rewrite Hcall, Hlt. }
  assert (Hok : JsNumber.lt cap floor = false ->
     exists r p, call fields = Return (r, p) /\
     tx_gas (config_of r) = Some gas /\
     tx_maxFeePerGas (config_of r) = Some cap /\
     tx_maxPriorityFeePerGas (config_of r) = Some priority).
  { intros Hge. rewrite Hge in Hcall.
    destruct (read_only functionInfo || dryRun fields);
      rewrite Hcall; eexists _, _; (split; [reflexivity|]); simpl; auto. }
  assert (Herr : forall g n, call fields = Throw (GasLimitTooLow g n) ->
            JsNumber.lt cap floor = true /\ printable budget = true /\
            JsNumber.plain_integer (JsNumber.mul floor gas) = true /\
            g = budget /\ n = JsNumber.mul floor gas).
  { intros g n He. destruct (JsNumber.lt cap floor) eqn:Hlt.
    - rewrite (Hlow eq_refl) in He. unfold insufficient in He.
      destruct (printable budget); simpl in He; [|discriminate].
      destruct (JsNumber.plain_integer (JsNumber.mul floor gas));
        simpl in He; [|discriminate].
      now injection He as <- <-.
    - destruct (Hok eq_refl) as (r & p & E & _). congruence. }
  refine (conj _ (conj _ (conj _ (conj Hok _)))).
  - split.
    + intros (g & n & He). destruct (Herr g n He) as (H1 & H2 & H3 & _). auto.
    + intros (H1 & H2 & H3). exists budget, (JsNumber.mul floor gas).
      rewrite (Hlow H1). unfold insufficient. now rewrite H2, H3.
  - intros g n He. destruct (Herr g n He) as (_ & _ & _ & H). exact H.
  - intros Hlt. rewrite (Hlow Hlt). apply insufficient_throws.
  - intros Hb Hf Hl. unfold priority, cap, desired, baseFee, JsNumber.of_safe.
    rewrite Hf, Hl, Hb. split; vm_compute; reflexivity.
Qed.

(** *** The tip given as zero *)

Lemma compute_fees_zero_number gas budget :
  compute_fees baseFee gas budget (WNum (JsNumber.of_Z 0))
  = compute_fees baseFee gas budget WAbsent.
Proof. reflexivity. Qed.

Lemma of_Z_not_NaN z : JsNumber.of_Z z <> JsNumber.NaN.
Proof.
  pose proof (JsNumberFacts.binary_normalize_well_formed z 0 false ltac:(lia)) as H.
  unfold JsNumber.of_Z. intros E. rewrite E in H. exact H.
Qed.

Lemma truthy_not_NaN x : JsNumber.truthy x = true -> x <> JsNumber.NaN.
Proof. intros H ->. discriminate. Qed.

Lemma base_fee_alone_is_low gas :
  JsNumber.lt (cap_of baseFee Absent gas (JsNumber.of_Z 0)) floor = true.
Proof.
  unfold cap_of, floor, baseFee, JsNumber.of_safe.
  rewrite JsNumberFacts.add_zero by apply safe_bounds.
  apply JsNumberFacts.base_fee_below_floor, safe_bounds.
Qed.

Lemma cap_well_formed budget txConfig desired :
  cap_of baseFee budget (gas_of txConfig) desired
  = JsNumber.add baseFee desired \/
  JsNumber.well_formed (cap_of baseFee budget (gas_of txConfig) desired).
Proof.
  destruct (gas_of_finite txConfig) as (m & e & Eg). rewrite Eg.
  destruct budget as [|x|s]; simpl.
  - now left.
  - destruct (JsNumber.truthy x) eqn:Ex; [right|now left].
    apply JsNumberFacts.Math_floor_well_formed, JsNumberFacts.div_not_nan.
    now apply truthy_not_NaN.
  - right.
    apply JsNumberFacts.Math_floor_well_formed, JsNumberFacts.div_not_nan.
    apply of_Z_not_NaN.
Qed.

(** C10 (as amended).  A [maxPriorityFeePerGas] that is the number 0
    gives the same result as a missing one, the default tip of 75 gwei
    being used.  The string ["0"] does not: it is converted to the
    string of zero wei, which is true as a condition, so the desired
    tip is 0; the call then throws when no budget is given, and the
    request it makes otherwise carries a priority fee of 0. *)
Theorem zero_tip (fields : InputFields value) :
  call (with_tip (Num (JsNumber.of_Z 0)) fields) = call (with_tip Absent fields) /\
  normalise (Str "0") = Return (WString 0) /\
  truthy (WString 0) = true /\
  desired_tip_of (Str "0") = JsNumber.of_Z 0 /\
  (forall functionInfo paramArray budget tip,
      reaches_fees value prototype_value (with_tip (Str "0") fields)
                   functionInfo paramArray budget tip ->
      (gasLimit fields = Absent -> throws (call (with_tip (Str "0") fields))) /\
      (forall r p,
          call (with_tip (Str "0") fields) = Return (r, p) ->
          tx_maxPriorityFeePerGas (config_of r) = Some (JsNumber.of_Z 0))).
Proof.
  split; [|split; [|split; [|split]]]; try reflexivity.
  (* the number 0 is read like a missing field: both sides compute alike *)
  intros functionInfo paramArray budget tip Hr.
  pose proof (call_fees _ _ _ _ _ Hr) as Hcall. cbv zeta in Hcall.
  change (f_maxPriorityFeePerGas (with_tip (Str "0") fields)) with (Str "0") in Hcall.
  change (gasLimit (with_tip (Str "0") fields)) with (gasLimit fields) in Hcall.
  change (desired_tip_of (Str "0")) with (JsNumber.of_Z 0) in Hcall.
  set (txConfig := draft_of (with_tip (Str "0") fields) functionInfo paramArray) in Hcall.
  set (cap := cap_of baseFee (gasLimit fields) (gas_of txConfig) (JsNumber.of_Z 0))
    in Hcall.
  assert (Hlow : cap = JsNumber.add baseFee (JsNumber.of_Z 0) ->
                 JsNumber.lt cap floor = true).
  { intros ->. apply (base_fee_alone_is_low (gas_of txConfig)). }
  split.
  - intros Habs. rewrite Hcall. rewrite Hlow.
    + apply insufficient_throws.
    + unfold cap. now rewrite Habs.
  - intros r p Hret. rewrite Hcall in Hret.
    destruct (JsNumber.lt cap floor) eqn:Hlt.
    + pose proof (insufficient_throws (A := request * payload receipt)
                    budget (JsNumber.mul floor (gas_of txConfig))) as Ht.
      rewrite Hret in Ht. destruct Ht.
    + assert (Hzero : JsNumber.Math_min (JsNumber.of_Z 0)
                        (JsNumber.sub (JsNumber.sub cap baseFee) (JsNumber.of_Z 1))
                      = JsNumber.of_Z 0).
      { apply JsNumberFacts.zero_priority; [apply safe_bounds| |exact Hlt].
        destruct (cap_well_formed (gasLimit fields) txConfig (JsNumber.of_Z 0))
          as [E|Hw]; [|exact Hw].
        fold cap in E. specialize (Hlow E). discriminate. }
      cbv zeta in Hret.
      destruct (read_only functionInfo || dryRun (with_tip (Str "0") fields));
        injection Hret as <- <-;
        exact (f_equal Some Hzero).
Qed.

(** *** Dispatch *)





End CallFacts.
(** ** Concrete runs *)

Section Runs.
Import Decl Call.

Example floor_tip_is : toWei "30" gwei = Return floor_tip.
Proof. reflexivity. Qed.

Example default_tip_is : toWei "75" gwei = Return default_tip.
Proof. reflexivity. Qed.

(** The margin on the estimated gas, on doubles: the product with
    [1.1] is above the exact one for these estimates and the ceiling
    moves to the next integer. *)
Example gas_with_margin_is :
  JsNumber.gas_with_margin (JsNumber.of_Z 50000) = JsNumber.of_Z 56001 /\
  JsNumber.gas_with_margin (JsNumber.of_Z 21000) = JsNumber.of_Z 24101 /\
  JsNumber.gas_with_margin (JsNumber.of_Z 100000) = JsNumber.of_Z 111001 /\
  JsNumber.div (JsNumber.of_Z 11) (JsNumber.of_Z 10) = JsNumber.one_tenth_more.
Proof. repeat split; vm_compute; reflexivity. Qed.

Example parse_transfer :
  parseEventDeclaration
    "event Transfer(address indexed from, address indexed to, uint256 value);"
  = Return {| ev_name := "Transfer"; ev_inputs := Sample.transfer_inputs |}.
Proof. vm_compute. reflexivity. Qed.

(** The declaration of [Transfer] has three parameters between its
    commas, and the descriptor has one input for each. *)
Lemma parseEventDeclaration_spec_witness :
  exists name params pieces,
    event_shape
      (JsString.chars
         "event Transfer(address indexed from, address indexed to, uint256 value);")
      name params /\
    comma_separated params pieces /\
    pieces = [ JsString.chars "address indexed from";
               JsString.chars " address indexed to";
               JsString.chars " uint256 value" ] /\
    Forall2 describes pieces Sample.transfer_inputs.
Proof.
  destruct (parseEventDeclaration_spec
              "event Transfer(address indexed from, address indexed to, uint256 value);")
    as (_ & _ & Hret).
  destruct (Hret _ parse_transfer) as (name & params & pieces & Hs & Hc & _ & Hd).
  exists name, params, pieces. split; [exact Hs|]. split; [exact Hc|].
  split; [|exact Hd].
  apply DeclFacts.exec_event_re_spec in Hs. vm_compute in Hs. injection Hs as <- <-.
  apply comma_separated_split in Hc. rewrite Hc. vm_compute. reflexivity.
Defined.

Example parse_keyword_as_name :
  parseEventDeclaration "event (uint256 x)"
  = Return {| ev_name := "event";
              ev_inputs := [ {| in_indexed := false; in_type := "uint256";
                                in_name := "x" |} ] |}.
Proof. vm_compute. reflexivity. Qed.

Example parse_bad_middle :
  parseEventDeclaration "Transfer(address index from)"
  = Throw (InvalidEventParameter "address index from").
Proof. vm_compute. reflexivity. Qed.

Example sample_topics :
  EventTrigger.build_topics string Sample.encodeEventSignature
    Sample.encodeParameter Sample.prototype_value Sample.to_abc
    {| ev_name := "Transfer"; ev_inputs := Sample.transfer_inputs |}
  = [Some "Transfer"; None; Some "0xabc"]%string.
Proof. vm_compute. reflexivity. Qed.

(** An indexed parameter named [toString] and no filter at all: the
    name is not a key of the filters, and its topic is the encoding of
    the function the filters inherit, not null. *)
Lemma inherited_name_topic :
  (∅ : gmap string string) !! "toString"%string = None /\
  EventTrigger.build_topics string Sample.encodeEventSignature
    Sample.encodeParameter Sample.prototype_value ∅
    {| ev_name := "Set"; ev_inputs := Sample.toString_inputs |}
  = [Some "Set"; Some "[tostring]"]%string /\
  EventTrigger.build_topics string Sample.encodeEventSignature
    Sample.encodeParameter Sample.prototype_value ∅
    {| ev_name := "Set"; ev_inputs := Sample.toString_inputs |}
  <> Some "Set"%string
     :: map (fun input =>
               match (∅ : gmap string string) !! in_name input with
               | Some v => Some (Sample.encodeParameter (in_type input) v)
               | None => None
               end) (List.filter in_indexed Sample.toString_inputs).
Proof.
  split; [reflexivity|]. split; [vm_compute; reflexivity|].
  vm_compute. discriminate.
Qed.

Lemma sample_reaches_fees :
  reaches_fees string Sample.prototype_value Sample.fields Sample.transfer_info
               ["0xabc"; "10"]%string WAbsent WAbsent.
Proof.
  unfold reaches_fees. repeat split; try (exists WAbsent); vm_compute; reflexivity.
Defined.

(** With a base fee of 100 gwei, an estimate of 50000, no tip and no
    budget, the request has a gas limit of 56001 and is priced at
    175 gwei with a priority fee of 75 gwei less one wei. *)
Lemma fee_bounds_witness :
  reaches_fees string Sample.prototype_value Sample.fields Sample.transfer_info
               ["0xabc"; "10"]%string WAbsent WAbsent /\
  exists r p,
    Sample.call (100 * 10 ^ 9) Sample.fields = Return (r, p) /\
    tx_gas (config_of r) = Some (JsNumber.of_Z 56001) /\
    tx_maxFeePerGas (config_of r) = Some (JsNumber.of_Z (175 * 10 ^ 9)) /\
    tx_maxPriorityFeePerGas (config_of r) = Some (JsNumber.of_Z (75 * 10 ^ 9 - 1)).
Proof.
  split; [exact sample_reaches_fees|].
  destruct (fee_bounds string string Sample.prototype_value
              Sample.encodeFunctionCall "0x51"
              (fun _ => 7) (fun _ => Sample.safe_of 50000)
              (Sample.safe_of (100 * 10 ^ 9))
              (fun _ => "0x01"%string) (fun _ => "0x7a"%string)
              Sample.fields Sample.transfer_info ["0xabc"; "10"]%string
              WAbsent WAbsent sample_reaches_fees)
    as (_ & _ & _ & Hok & _).
  destruct Hok as (r & p & E & Hg & Hc & Hp); [vm_compute; reflexivity|].
  exists r, p. split; [exact E|].
  split; [exact Hg|]. split; [exact Hc|exact Hp].
Defined.

(** C1 fails on the code as it is stated.  The figures of its example:
    neither with a base fee of 100 wei nor with one of 100 gwei is the
    request priced at 175 gwei with a priority fee of 74 gwei.  A tip
    supplied as the number 0 is replaced by the default.  A budget of
    0.014430129999999999 ether for 111001 units of gas is worth
    129999999999 wei a unit, one less than the floor of 130 gwei, and
    yet the transaction is sent, capped at 130 gwei: the budget is
    rounded to a double before it is divided.  With a tip of 10 gwei
    and no budget the cap is below the floor and the error is the one
    of the conversion of [undefined], not the one of the fee check;
    so it is with a budget of 1.5 wei given as a number, which does
    not print as an integer, and with a budget of one ether when the
    amount needed, here 1101000 units of gas at a base fee of
    9000000 gwei, is printed with an exponent. *)
Lemma fee_example_refuted :
  Sample.call 100 Sample.fields
  = Return (EthSendTransaction
              {| tx_from := "0x51"; tx_to := "0xc0ffee";
                 tx_data := "transfer,0xabc,10"; tx_nonce := 7;
                 tx_gas := Some (JsNumber.of_Z 56001);
                 tx_maxFeePerGas := Some (JsNumber.of_Z 75000000100);
                 tx_maxPriorityFeePerGas := Some (JsNumber.of_Z 74999999999) |},
            Sent "0x7a"%string) /\
  Sample.call (100 * 10 ^ 9) Sample.fields
  = Return (EthSendTransaction
              {| tx_from := "0x51"; tx_to := "0xc0ffee";
                 tx_data := "transfer,0xabc,10"; tx_nonce := 7;
                 tx_gas := Some (JsNumber.of_Z 56001);
                 tx_maxFeePerGas := Some (JsNumber.of_Z 175000000000);
                 tx_maxPriorityFeePerGas := Some (JsNumber.of_Z 74999999999) |},
            Sent "0x7a"%string) /\
  JsNumber.of_Z 74999999999 <> JsNumber.of_Z (74 * 10 ^ 9) /\
  JsNumber.of_Z 75000000100 <> JsNumber.of_Z (175 * 10 ^ 9) /\
  Sample.call (100 * 10 ^ 9) (with_tip (Num (JsNumber.of_Z 0)) Sample.fields)
  = Sample.call (100 * 10 ^ 9) Sample.fields /\
  toWei "0.014430129999999999" ether = Return 14430129999999999 /\
  14430129999999999 / 111001 < 100 * 10 ^ 9 + 30 * 10 ^ 9 /\
  Sample.call_with 100000 (100 * 10 ^ 9) Sample.fields_tight
  = Return (EthSendTransaction
              {| tx_from := "0x51"; tx_to := "0xc0ffee";
                 tx_data := "transfer,0xabc,10"; tx_nonce := 7;
                 tx_gas := Some (JsNumber.of_Z 111001);
                 tx_maxFeePerGas := Some (JsNumber.of_Z 130000000000);
                 tx_maxPriorityFeePerGas := Some (JsNumber.of_Z 29999999999) |},
            Sent "0x7a"%string) /\
  Sample.call (100 * 10 ^ 9) (with_tip (Str "0.00000001") Sample.fields)
  = Throw (InvalidWeiValue WAbsent) /\
  Sample.call (100 * 10 ^ 9) (Sample.budgeted (Num Sample.one_and_a_half))
  = Throw (InvalidWeiValue (WNum Sample.one_and_a_half)) /\
  Sample.call_with 1000000 (9 * 10 ^ 15) (Sample.budgeted (Str "1"))
  = Throw (InvalidWeiValue
             (WNum (JsNumber.mul (JsNumber.of_Z (9 * 10 ^ 15 + 30 * 10 ^ 9))
                                 (JsNumber.of_Z 1101000)))) /\
  10 ^ 21 <= (9 * 10 ^ 15 + 30 * 10 ^ 9) * 1101000.
Proof. repeat split; vm_compute; (reflexivity || discriminate). Qed.

(** A tip given as the string ["0"] is not read like a missing tip.
    With a budget of 0.01 ether both calls are sent, the first with a
    priority fee of 0 and the second with the default of 75 gwei; with
    no budget the first throws and the second is sent. *)
Lemma zero_string_tip_differs :
  normalise (Str "0") = Return (WString 0) /\
  (exists r p,
      Sample.call (100 * 10 ^ 9) (with_tip (Str "0") Sample.fields_budget)
      = Return (r, p) /\
      tx_maxPriorityFeePerGas (config_of r) = Some (JsNumber.of_Z 0)) /\
  (exists r p,
      Sample.call (100 * 10 ^ 9) (with_tip Absent Sample.fields_budget)
      = Return (r, p) /\
      tx_maxPriorityFeePerGas (config_of r) = Some (JsNumber.of_Z (75 * 10 ^ 9))) /\
  throws (Sample.call (100 * 10 ^ 9) (with_tip (Str "0") Sample.fields)) /\
  Sample.call (100 * 10 ^ 9) (with_tip Absent Sample.fields)
  = Return (EthSendTransaction Sample.sent_config, Sent "0x7a"%string).
Proof.
  split; [reflexivity|]. split; [|split; [|split]].
  - eexists _, _. split; [vm_compute; reflexivity|]. vm_compute. reflexivity.
  - eexists _, _. split; [vm_compute; reflexivity|]. vm_compute. reflexivity.
  - vm_compute. exact I.
  - vm_compute. reflexivity.
Qed.



Import EventTrigger.

(** C2, on the code.  The caller filters the transfers of [Transfer]
    on their amount, which is not indexed: the topics of the
    subscription are the signature and two wildcards, and the node
    delivers the transfers of every amount.  The buffer holds a transfer of 8
    in block 10 and a transfer of 9 in block 12, and the header of
    block 12 arrives: the first entry is confirmed and fails the
    filter, and the second, still inside the window, is not put back;
    the buffer is left empty, in whichever order the two entries
    were. *)
Theorem pass_loses_pending_entry :
  build_topics string Sample.encodeEventSignature Sample.encodeParameter
               Sample.prototype_value Sample.value_9
               {| ev_name := "Transfer"; ev_inputs := Sample.transfer_inputs |}
  = [Some "Transfer"%string; None; None] /\
  12 - blockNumber Sample.log_abc_12 < 2 /\
  12 - blockNumber Sample.log_abc_10 >= 2 /\
  Sample.process Sample.value_9 Sample.transfer_inputs Sample.log_abc_10
  = (["value"%string], None) /\
  Sample.pass Sample.value_9 Sample.transfer_inputs
              [Sample.log_abc_10; Sample.log_abc_12] 12 = ([], []) /\
  Sample.pass Sample.value_9 Sample.transfer_inputs
              [Sample.log_abc_12; Sample.log_abc_10] 12 = ([], []).
Proof. repeat split; vm_compute; (reflexivity || discriminate). Qed.

(** An event with a parameter named [_rawEvent] that the caller filters
    on: the notification holds the decoded value under that name and the
    raw log under no name.  An event with a parameter named [valueOf]
    and no filter at all: the name is not a key of the filters, and yet
    the parameter is compared, with the function the filters inherit,
    and nothing is sent. *)
Lemma raw_event_overridden :
  snd (Sample.process Sample.raw_is_5 Sample.stored_inputs Sample.log_stored)
  = Some {[ "_rawEvent"%string := Decoded "5"%string ]} /\
  ({[ "_rawEvent"%string := Decoded "5"%string ]} : gmap string (field string))
    !! "_rawEvent"%string
  <> Some (RawEvent Sample.log_stored) /\
  (∅ : gmap string string) !! "valueOf"%string = None /\
  Sample.process ∅ Sample.valueOf_inputs Sample.log_set
  = (["valueOf"%string], None).
Proof.
  split; [vm_compute; reflexivity|]. split.
  - rewrite lookup_singleton_eq. discriminate.
  - split; [reflexivity|]. vm_compute. reflexivity.
Qed.

(** With a filter on the amount, a transfer of 9 is sent with the raw
    log and the amount; a transfer of 8 stops at [value]. *)
Lemma process_entry_spec_witness :
  Sample.process Sample.value_9 Sample.transfer_inputs Sample.log_abc_10
  = (["value"%string], None) /\
  exists n,
    Sample.process Sample.value_9 Sample.transfer_inputs Sample.log_nine_10
    = (["value"%string], Some n) /\
    n !! "value"%string = Some (Decoded "9"%string) /\
    n !! "_rawEvent"%string = Some (RawEvent Sample.log_nine_10) /\
    n !! "to"%string = None.
Proof.
  destruct (process_entry_spec string Sample.encodeParameter Sample.decodeLog
              Sample.prototype_value Sample.value_9 Sample.transfer_inputs
              Sample.log_abc_10) as [Hmis _].
  destruct (process_entry_spec string Sample.encodeParameter Sample.decodeLog
              Sample.prototype_value Sample.value_9 Sample.transfer_inputs
              Sample.log_nine_10) as [_ Hall].
  split.
  - apply (Hmis [ {| in_indexed := true; in_type := "address"; in_name := "from" |};
                  {| in_indexed := true; in_type := "address"; in_name := "to" |} ]
                {| in_indexed := false; in_type := "uint256"; in_name := "value" |}
                []).
    + reflexivity.
    + repeat constructor; intros [Hin _]; vm_compute in Hin; exact Hin.
    + split; [vm_compute; left; reflexivity|]. vm_compute. discriminate.
  - destruct Hall as (n & Hn & Hk).
    + repeat constructor; intros [Hin Hne]; vm_compute in Hin;
        try exact Hin. apply Hne. vm_compute. reflexivity.
    + exists n. split; [exact Hn|].
      rewrite !Hk. vm_compute. repeat split; reflexivity.
Defined.

(** The header of block 12 sends the transfer of block 10 and keeps the
    one of block 12. *)
Lemma confirmation_lag_witness :
  notification string Sample.log_abc_10 {[ "to"%string := "0xabc"%string ]}
  ∈ snd (Sample.pass Sample.to_abc Sample.transfer_inputs
                      [Sample.log_abc_12; Sample.log_abc_10] 12) /\
  exists number logEntry,
    HeaderData 12 = HeaderData number /\
    logEntry ∈ [Sample.log_abc_12; Sample.log_abc_10] /\
    number - blockNumber logEntry >= 2 /\
    snd (Sample.process Sample.to_abc Sample.transfer_inputs logEntry)
    = Some (notification string Sample.log_abc_10
                         {[ "to"%string := "0xabc"%string ]}).
Proof.
  assert (Hin : notification string Sample.log_abc_10
                             {[ "to"%string := "0xabc"%string ]}
                ∈ snd (Sample.pass Sample.to_abc Sample.transfer_inputs
                                    [Sample.log_abc_12; Sample.log_abc_10] 12)).
  { vm_compute. apply list_elem_of_singleton. reflexivity. }
  split; [exact Hin|].
  exact (proj1 (confirmation_lag string Sample.encodeParameter Sample.decodeLog
                  Sample.prototype_value Sample.to_abc Sample.transfer_inputs
                  [Sample.log_abc_12; Sample.log_abc_10]) (HeaderData 12) _ Hin).
Defined.

(** Block [0xb10] is reported removed while one of its logs waits. *)
Lemma reorg_purge_witness :
  removed Sample.removed_b10 = true /\
  forall x,
    x ∈ fst (deliver string Sample.encodeParameter Sample.decodeLog
                     Sample.prototype_value Sample.to_abc
                     Sample.transfer_inputs
                     [Sample.log_abc_10; Sample.log_abc_12]
                     (LogData Sample.removed_b10)) <->
    x ∈ [Sample.log_abc_10; Sample.log_abc_12] /\
    blockHash x <> blockHash Sample.removed_b10.
Proof.
  split; [reflexivity|].
  exact (proj1 (reorg_purge string Sample.encodeParameter Sample.decodeLog
                  Sample.prototype_value Sample.to_abc Sample.transfer_inputs
                  [Sample.log_abc_10; Sample.log_abc_12]
                  Sample.removed_b10 eq_refl)).
Defined.

Example purge_then_header :
  deliver_all string Sample.encodeParameter Sample.decodeLog
              Sample.prototype_value Sample.to_abc
              Sample.transfer_inputs [Sample.log_abc_10; Sample.log_abc_12]
              [LogData Sample.removed_b10; HeaderData 12; HeaderData 14]
  = ([], [notification string Sample.log_abc_12 {[ "to"%string := "0xabc"%string ]}]).
Proof. vm_compute. reflexivity. Qed.

Import TxTrigger.

(** Anchored at block 9, the trigger receives the header of block 15:
    blocks 10, 11 and 12 are fetched, block 12 has no transaction list
    and ends the cycle, block 13 is left for the next header.  The
    sender [0xAbC] passes the filter [0xabc]; the sender [ABC] does not
    pass the filter [abc], which has no [0x] in front. *)
Lemma transaction_trigger_witness :
  run Sample.getBlock Sample.from_abc [0; 9]
  = {| lastBlock := 9; fetched := []; notified := [] |} /\
  fetched (on_header Sample.getBlock Sample.from_abc 9 15) = [10; 11; 12] /\
  lastBlock (on_header Sample.getBlock Sample.from_abc 9 15) = 12 /\
  map tx_hash (notified (on_header Sample.getBlock Sample.from_abc 9 15))
  = ["0x01"; "0x01"]%string /\
  same_value (Some "0xAbC"%string) "0xabc" /\
  ~ same_value (Some "0x123"%string) "0xabc" /\
  forwarded Sample.from_plain
            {| tx_hash := "0x03"; tx_from := "ABC"; tx_to := None |} = false /\
  ~ same_value (Some "ABC"%string) "abc" /\
  same_value (Some "abc"%string) "abc".
Proof.
  destruct (transaction_trigger Sample.getBlock Sample.from_abc)
    as (Hfirst & Hnext & Hfwd).
  destruct (transaction_trigger Sample.getBlock Sample.from_plain)
    as (_ & _ & Hplain).
  split; [apply (Hfirst [0] 9); [repeat constructor|discriminate]|].
  destruct (Hnext 9 15 ltac:(reflexivity) ltac:(discriminate))
    as (Hf & Hl & _ & _ & _ & Hs).
  assert (Hlen : length (fetched (on_header Sample.getBlock Sample.from_abc 9 15)) = 3%nat)
    by (vm_compute; reflexivity).
  rewrite Hlen in Hf, Hl. rewrite Hs, Hf, Hl.
  split; [vm_compute; reflexivity|]. split; [vm_compute; reflexivity|].
  split; [vm_compute; reflexivity|].
  split; [|split; [|split; [|split]]].
  - apply (proj1 (proj1 (Hfwd {| tx_hash := "0x01"; tx_from := "0xAbC";
                                 tx_to := Some "0xdef"%string |}) eq_refl)
                 "0xabc"%string eq_refl).
    discriminate.
  - intros H.
    assert (Hno : forwarded Sample.from_abc
                    {| tx_hash := "0x02"; tx_from := "0x123"; tx_to := None |} = false)
      by (vm_compute; reflexivity).
    rewrite (proj2 (Hfwd {| tx_hash := "0x02"; tx_from := "0x123"; tx_to := None |}))
      in Hno; [discriminate|].
    split; [intros f [= <-] _; exact H|intros f [=]].
  - vm_compute. reflexivity.
  - intros H.
    assert (Hno : forwarded Sample.from_plain
                    {| tx_hash := "0x03"; tx_from := "ABC"; tx_to := None |} = false)
      by (vm_compute; reflexivity).
    rewrite (proj2 (Hplain {| tx_hash := "0x03"; tx_from := "ABC"; tx_to := None |}))
      in Hno; [discriminate|].
    split; [intros f [= <-] _; exact H|intros f [=]].
  - apply (proj1 (proj1 (Hplain {| tx_hash := "0x04"; tx_from := "abc";
                                   tx_to := None |}) eq_refl)
                 "abc"%string eq_refl).
    discriminate.
Defined.

End Runs.

(** ** More on [isSameAddress] and on the endpoint *)

Section AddressFacts.
Import JsString JsStringFacts Decl DeclFacts.

Lemma isSameAddress_true a b :
  isSameAddress (Some a) (Some b) = true <->
  a <> EmptyString /\ b <> EmptyString /\
  if has_0x a && has_0x b then toLowerCase a = toLowerCase b else a = b.
Proof.
  unfold isSameAddress, truthy_string.
  destruct (String.eqb_spec a EmptyString) as [->|Ha]; simpl.
  - split; [discriminate|]. now intros [? _].
  - destruct (String.eqb_spec b EmptyString) as [->|Hb]; simpl.
    + split; [discriminate|]. now intros (_ & ? & _).
    + destruct (has_0x a && has_0x b); rewrite String.eqb_eq; tauto.
Qed.

Lemma lower_char_idempotent : forall c, lower_char (lower_char c) = lower_char c.
Proof. by_enumeration. Qed.

Lemma toLowerCase_idempotent s : toLowerCase (toLowerCase s) = toLowerCase s.
Proof.
  unfold toLowerCase. rewrite chars_str, map_map. f_equal.
  apply map_ext. intros c. apply lower_char_idempotent.
Qed.

Lemma has_0x_lower s : has_0x s = true -> has_0x (toLowerCase s) = true.
Proof.
  unfold has_0x, toLowerCase. rewrite chars_str.
  destruct (chars s) as [|c0 [|c1 r]]; simpl; try discriminate.
  intros H. apply andb_true_iff in H as [H0 H1].
  apply Ascii.eqb_eq in H0, H1. now subst.
Qed.

Lemma has_0x_nonempty s : has_0x s = true -> s <> EmptyString.
Proof. now intros H ->. Qed.

Lemma toLowerCase_nonempty s : s <> EmptyString -> toLowerCase s <> EmptyString.
Proof.
  intros H E. apply H. rewrite <- (str_chars s). unfold toLowerCase in E.
  destruct (chars s); [reflexivity|discriminate].
Qed.

(** X1.  [isSameAddress] is symmetric and transitive, and a value is
    the same address as itself exactly when it is a non-empty string:
    [null] and the empty string are the same as nothing. *)
Theorem isSameAddress_partial_equivalence :
  (forall a b, isSameAddress a b = isSameAddress b a) /\
  (forall a b c, isSameAddress a b = true -> isSameAddress b c = true ->
                 isSameAddress a c = true) /\
  (forall a, isSameAddress a a = true <-> exists s, a = Some s /\ s <> EmptyString).
Proof.
  split; [|split].
  - intros [a|] [b|]; try reflexivity. unfold isSameAddress.
    rewrite (orb_comm (negb (truthy_string a))), (andb_comm (has_0x a)).
    now rewrite (String.eqb_sym a b), (String.eqb_sym (toLowerCase a)).
  - intros [a|] [b|] [c|]; try discriminate.
    rewrite !isSameAddress_true. intros (Ha & Hb & Hab) (_ & Hc & Hbc).
    split; [assumption|split; [assumption|]].
    destruct (has_0x a) eqn:Xa, (has_0x b) eqn:Xb, (has_0x c) eqn:Xc;
      simpl in *; subst; congruence.
  - intros [a|]; [|split; [discriminate|now intros (s & [=] & _)]].
    rewrite isSameAddress_true. split.
    + intros (Ha & _). eauto.
    + intros (s & [= <-] & Hs). split; [assumption|split; [assumption|]].
      now destruct (has_0x a && has_0x a).
Qed.

(** X2.  Lowering the letters of a string that starts with [0x] does
    not change what it is the same address as. *)
Theorem isSameAddress_lower a b :
  has_0x a = true ->
  isSameAddress (Some (toLowerCase a)) b = isSameAddress (Some a) b.
Proof.
  intros Hx. destruct b as [b|]; [|reflexivity].
  pose proof (has_0x_nonempty _ Hx) as Ha.
  pose proof (toLowerCase_nonempty _ Ha) as Hl.
  pose proof (has_0x_lower _ Hx) as Hxl.
  apply eq_true_iff_eq. rewrite !isSameAddress_true, Hx, Hxl, toLowerCase_idempotent.
  simpl. destruct (has_0x b) eqn:Xb.
  - tauto.
  - split; intros (_ & Hb & E); exfalso; subst b; congruence.
Qed.

End AddressFacts.

Section EndpointFacts.
Import JsString Endpoint.

Lemma mapping_In table chain mapped :
  mapping table chain = Some mapped -> In mapped (map snd table).
Proof.
  induction table as [|[k v] rest IH]; simpl; [discriminate|].
  destruct (String.eqb k chain); [intros [= <-]; now left|auto].
Qed.

Lemma mapped_values chain mapped :
  mapping CHAIN_MAPPING chain = Some mapped ->
  mapped <> EmptyString /\
  (includes_text (chars "://") (chars mapped) = true ->
   String.prefix "wss://" mapped = true).
Proof.
  intros H. apply mapping_In in H. revert mapped H. apply List.Forall_forall.
  repeat constructor; try discriminate; vm_compute; congruence.
Qed.

Lemma mapped_names_are_free mapped :
  In mapped (map snd CHAIN_MAPPING) ->
  includes_text (chars "://") (chars mapped) = false ->
  mapping CHAIN_MAPPING mapped = None /\ inherited mapped = false.
Proof.
  revert mapped.
  apply (proj1 (List.Forall_forall
                  (fun x => includes_text (chars "://") (chars x) = false ->
                            mapping CHAIN_MAPPING x = None /\ inherited x = false) _)).
  repeat constructor; vm_compute; congruence.
Qed.

Lemma inherited_In chain : inherited chain = true <-> In chain Object_prototype.
Proof.
  unfold inherited. rewrite existsb_exists. split.
  - intros (x & Hx & E). apply String.eqb_eq in E. now subst.
  - intros H. exists chain. split; [exact H|apply String.eqb_refl].
Qed.

Lemma inherited_unmapped chain :
  inherited chain = true -> mapping CHAIN_MAPPING chain = None.
Proof.
  intros H. apply inherited_In in H. revert chain H. apply List.Forall_forall.
  repeat constructor.
Qed.

(** X18.  [getWeb3] fails before it connects exactly when the chain is
    the name of a property that the table inherits from
    [Object.prototype], such as [constructor] or [toString]; for every
    other chain it connects to a [wss://] address.  A chain that is
    neither a key of the table nor such a name is placed as it is in
    the path of the Ankr address, followed by the key; and a chain
    given by its identifier connects where the chain given by its name
    in the table does, when that name is not itself an address. *)
Theorem url_is_secure_websocket chain ankr_key :
  (url chain ankr_key = None <-> In (default "eth"%string chain) Object_prototype) /\
  (forall u, url chain ankr_key = Some u -> String.prefix "wss://" u = true) /\
  (mapping CHAIN_MAPPING (default "eth"%string chain) = None ->
   ~ In (default "eth"%string chain) Object_prototype ->
   url chain ankr_key
   = Some ("wss://rpc.ankr.com/" ++ default "eth" chain ++ "/ws/" ++ ankr_key)%string) /\
  (forall id mapped,
      chain = Some id -> mapping CHAIN_MAPPING id = Some mapped ->
      includes_text (chars "://") (chars mapped) = false ->
      url chain ankr_key = url (Some mapped) ankr_key).
Proof.
  unfold url. refine (conj _ (conj _ (conj _ _))).
  - rewrite <- inherited_In.
    destruct (inherited (default "eth"%string chain)) eqn:I.
    + rewrite (inherited_unmapped _ I). tauto.
    + destruct (mapping CHAIN_MAPPING (default "eth"%string chain));
        split; discriminate.
  - intros u.
    destruct (mapping CHAIN_MAPPING (default "eth"%string chain)) as [mapped|] eqn:E.
    + destruct (mapped_values _ _ E) as [_ Hp]. intros [= <-].
      destruct (includes_text _ (chars mapped)); [now apply Hp|reflexivity].
    + destruct (inherited (default "eth"%string chain)); [discriminate|].
      now intros [= <-].
  - intros -> Hn. rewrite <- inherited_In in Hn.
    now destruct (inherited (default "eth"%string chain)).
  - intros id mapped -> Hm Hi.
    change (default "eth"%string (Some id)) with id.
    change (default "eth"%string (Some mapped)) with mapped. rewrite Hm, Hi.
    destruct (mapped_values _ _ Hm) as [Hne _].
    rewrite (proj2 (String.eqb_neq mapped EmptyString) Hne).
    destruct (mapped_names_are_free mapped (mapping_In _ _ _ Hm) Hi) as [-> ->].
    reflexivity.
Qed.
End EndpointFacts.

(** ** [parseFunctionDeclaration] and the descriptors of both parsers *)

Section ParseFacts.
Import JsString JsStringFacts Decl DeclFacts FunctionDecl.

Lemma function_tail_spec rest suffix :
  function_tail rest = Some suffix <-> function_end rest suffix.
Proof.
  unfold function_tail, function_end. split.
  - destruct (forallb _ _) eqn:E; [|discriminate]. intros [= <-].
    exists (take_while is_space rest). repeat split.
    + apply take_while_all.
    + symmetry. apply take_drop_while.
    + apply drop_while_stops.
    + rewrite forallb_forall in E. apply List.Forall_forall. intros c Hc.
      apply E in Hc. now apply negb_true_iff in Hc.
  - intros (ws & Hw & -> & Hs & Hl).
    rewrite (drop_while_app is_space ws suffix Hw Hs).
    assert (E : forallb (fun c => negb (is_line_terminator c)) suffix = true).
    { apply forallb_forall. intros c Hc. rewrite List.Forall_forall in Hl.
      now rewrite (Hl c Hc). }
    now rewrite E.
Qed.

Lemma exec_function_re_spec s name params suffix :
  exec_function_re s = Some (name, params, suffix)
  <-> function_shape (chars s) name params suffix.
Proof.
  unfold exec_function_re, function_shape. split.
  - intros H. apply exec_decl_sound in H.
    destruct H as (ws0 & k & t & rest & E & H0 & Hk & Hh & Ht).
    exists ws0, k, t, rest. repeat split; auto. now apply function_tail_spec.
  - intros (ws0 & k & t & rest & E & H0 & Hk & Hh & Ht).
    apply exec_decl_complete; [apply function_kw|].
    exists ws0, k, t, rest. repeat split; auto. now apply function_tail_spec.
Qed.

Lemma nth_last {A} (l : list A) d : nth (length l - 1) l d = List.last l d.
Proof.
  induction l as [|x l IH]; [reflexivity|].
  destruct l as [|y l]; [reflexivity|].
  change (List.last (x :: y :: l) d) with (List.last (y :: l) d).
  rewrite <- IH. cbn [length].
  replace (S (S (length l)) - 1)%nat with (S (length l)) by lia.
  replace (S (length l) - 1)%nat with (length l) by lia.
  reflexivity.
Qed.

Lemma function_parameter_throws q :
  throws (function_parameter q) <-> short_parameter q.
Proof.
  unfold function_parameter, short_parameter. rewrite parts_tokens.
  destruct (tokens q) as [|t0 [|t1 ts]]; simpl; intuition lia.
Qed.

Lemma function_parameter_Return q input :
  function_parameter q = Return input -> describes_function q input.
Proof.
  unfold function_parameter, describes_function. rewrite parts_tokens.
  destruct (tokens q) as [|t0 [|t1 ts]]; try (simpl; discriminate).
  cbv beta iota zeta. remember (t0 :: t1 :: ts) as l eqn:El.
  destruct (length l <? 2)%nat; [discriminate|].
  intros [= <-]. cbn [fin_type fin_name]. unfold nth_part. split.
  - now subst l.
  - now rewrite nth_last.
Qed.

Lemma includes_In (w : string) ts :
  includes w ts = true <-> In (chars w) ts.
Proof.
  unfold includes. rewrite existsb_exists. split.
  - intros (t & Hin & Ht). apply String.eqb_eq in Ht. subst w. now rewrite chars_str.
  - intros Hin. exists (chars w). split; [assumption|].
    apply String.eqb_eq. apply str_chars.
Qed.

Lemma includes_parts (w : string) suffix :
  w <> EmptyString ->
  includes w (split_ws (trim suffix)) = true <-> In (chars w) (tokens suffix).
Proof.
  intros Hw. rewrite includes_In, parts_tokens.
  destruct (tokens suffix) as [|t ts]; [|reflexivity].
  split; [|intros []]. intros [H|[]]. destruct w; [congruence|discriminate].
Qed.

(** X3.  [parseFunctionDeclaration] throws exactly when the text is not
    of the function shape (optional [function] keyword, name,
    parenthesised comma-separated parameters, then modifiers on the
    same line), or some parameter has fewer than two tokens; a returned
    descriptor has the declared name and one input for each parameter,
    in order, whose type is the first token of the parameter and whose
    name is the last one, so that the middle tokens of a longer
    parameter are in neither. *)
Theorem parseFunctionDeclaration_spec (s : string) :
  (throws (parseFunctionDeclaration s) <->
     (~ exists name params suffix, function_shape (chars s) name params suffix) \/
     (exists name params suffix pieces q,
         function_shape (chars s) name params suffix /\
         comma_separated params pieces /\
         In q pieces /\ short_parameter q)) /\
  (forall e, parseFunctionDeclaration s = Throw e ->
     e = InvalidFunctionDeclaration \/ exists p, e = InvalidFunctionParameter p) /\
  (forall abi, parseFunctionDeclaration s = Return abi ->
     exists name params suffix pieces,
       function_shape (chars s) name params suffix /\
       comma_separated params pieces /\
       fn_name abi = str name /\
       Forall2 describes_function pieces (fn_inputs abi)).
Proof.
  unfold parseFunctionDeclaration.
  destruct (exec_function_re s) as [[[name params] suffix]|] eqn:E.
  - pose proof (proj1 (exec_function_re_spec _ _ _ _) E) as Hshape.
    assert (Huniq : forall n p x, function_shape (chars s) n p x ->
                                  n = name /\ p = params /\ x = suffix).
    { intros n p x H. apply exec_function_re_spec in H. rewrite E in H.
      now injection H. }
    split; [|split].
    + rewrite throws_bind, map_throwing_throws, List.Exists_exists. split.
      * intros [(q & Hin & Hq)|(a & _ & [])].
        right. exists name, params, suffix, (split_on "," params), q.
        split; [assumption|]. split; [now apply comma_separated_split|].
        split; [assumption|]. now apply function_parameter_throws.
      * intros [Hno|(n & p & x & pieces & q & Hs & Hc & Hin & Hq)].
        { exfalso. apply Hno. eauto. }
        destruct (Huniq _ _ _ Hs) as (-> & -> & ->).
        apply comma_separated_split in Hc. subst pieces.
        left. exists q. split; [assumption|]. now apply function_parameter_throws.
    + intros e He. apply bind_Throw in He as [He|(a & _ & He)]; [|discriminate].
      apply map_throwing_first in He as (_ & q & _ & _ & He & _).
      right. unfold function_parameter in He.
      destruct (_ <? _)%nat in He; [|discriminate]. injection He as <-. eauto.
    + intros abi H. apply bind_Return in H as (inputs & Hi & H).
      injection H as <-. exists name, params, suffix, (split_on "," params).
      split; [assumption|]. split; [now apply comma_separated_split|].
      split; [reflexivity|].
      apply map_throwing_Return in Hi.
      eapply Forall2_impl; [exact Hi|]. intros q i. apply function_parameter_Return.
  - split; [|split].
    + split; [|easy]. intros _. left. intros (n & p & x & H).
      apply exec_function_re_spec in H. congruence.
    + intros e [= <-]. now left.
    + discriminate.
Qed.

(** X4.  In a returned function descriptor, [constant] is set exactly
    when [view] is among the modifiers and [payable] exactly when
    [payable] is; the mutability is [pure] when [pure] is a modifier,
    else [view] when [view] is, else [payable] when [payable] is, else
    [nonpayable]: with both [view] and [pure] the descriptor is
    constant and of mutability [pure]. *)
Theorem parseFunctionDeclaration_mutability (s : string) (abi : FunctionAbi) :
  parseFunctionDeclaration s = Return abi ->
  exists name params suffix,
    function_shape (chars s) name params suffix /\
    (fn_constant abi = true <-> In (chars "view") (tokens suffix)) /\
    (fn_payable abi = true <-> In (chars "payable") (tokens suffix)) /\
    mutability_of (tokens suffix) (fn_stateMutability abi).
Proof.
  unfold parseFunctionDeclaration.
  destruct (exec_function_re s) as [[[name params] suffix]|] eqn:E; [|discriminate].
  intros H. apply bind_Return in H as (inputs & _ & H). injection H as <-.
  exists name, params, suffix. cbn [fn_constant fn_payable fn_stateMutability].
  split; [now apply exec_function_re_spec|].
  pose proof (includes_parts "pure" suffix ltac:(discriminate)) as Hpure.
  pose proof (includes_parts "view" suffix ltac:(discriminate)) as Hview.
  pose proof (includes_parts "payable" suffix ltac:(discriminate)) as Hpay.
  split; [exact Hview|split; [exact Hpay|]].
  destruct (includes "pure" _) eqn:Ep; [now apply Hpure|].
  assert (Np : ~ In (chars "pure") (tokens suffix))
    by (intros Hin; apply Hpure in Hin; discriminate).
  destruct (includes "view" _) eqn:Ev; [split; [now apply Hview|exact Np]|].
  assert (Nv : ~ In (chars "view") (tokens suffix))
    by (intros Hin; apply Hview in Hin; discriminate).
  destruct (includes "payable" _) eqn:Ey; [repeat split; auto; now apply Hpay|].
  repeat split; auto. intros Hin. apply Hpay in Hin. discriminate.
Qed.

(** *** Well-formed descriptors *)

Lemma tokens_from_clean (R : ascii -> Prop) l : forall cur,
  Forall R l -> Forall R cur -> Forall (fun c => is_space c = false) cur ->
  Forall (fun t => t <> [] /\ Forall (fun c => is_space c = false /\ R c) t)
         (tokens_from cur l).
Proof.
  assert (Hrev : forall cur, Forall R cur -> Forall (fun c => is_space c = false) cur ->
                 cur <> [] ->
                 rev cur <> [] /\ Forall (fun c => is_space c = false /\ R c) (rev cur)).
  { intros cur HR HS Hne. split.
    - intros E. apply Hne. apply (f_equal (@rev ascii)) in E.
      now rewrite rev_involutive in E.
    - apply List.Forall_rev. rewrite List.Forall_forall in *. auto. }
  induction l as [|c l IH]; intros cur Hl HR HS; simpl.
  - destruct cur as [|x cur]; constructor; [|constructor].
    now apply Hrev.
  - inversion Hl as [|? ? Hc Hl']; subst.
    destruct (is_space c) eqn:Ec.
    + destruct cur as [|x cur].
      * apply IH; auto.
      * constructor; [now apply Hrev|]. apply IH; auto.
    + apply IH; auto.
Qed.

Lemma tokens_clean (R : ascii -> Prop) l :
  Forall R l ->
  Forall (fun t => t <> [] /\ Forall (fun c => is_space c = false /\ R c) t) (tokens l).
Proof. intros H. apply tokens_from_clean; auto. Qed.

Lemma split_on_pieces (R : ascii -> Prop) sep l :
  Forall R l ->
  Forall (fun q => Forall (fun c => R c /\ c <> sep) q) (split_on sep l).
Proof.
  induction 1 as [|c l Hc Hl IH]; simpl.
  - repeat constructor.
  - destruct (Ascii.eqb_spec c sep) as [->|Hne].
    + constructor; [constructor|exact IH].
    + destruct (split_on sep l) as [|h t]; [repeat constructor; auto|].
      inversion IH; subst. constructor; [constructor; auto|assumption].
Qed.

Lemma split_on_length sep l :
  length (split_on sep l) = S (occurrences sep l).
Proof.
  unfold occurrences. induction l as [|c l IH]; simpl; [reflexivity|].
  rewrite (Ascii.eqb_sym sep c). destruct (Ascii.eqb c sep); simpl.
  - now rewrite IH.
  - destruct (split_on sep l); simpl in *; [discriminate|exact IH].
Qed.

Lemma hd_In {A} (l : list A) d : l <> [] -> In (hd d l) l.
Proof. destruct l; [congruence|now left]. Qed.

Lemma last_In {A} (l : list A) d : l <> [] -> In (List.last l d) l.
Proof.
  induction l as [|x [|y l] IH]; [congruence|now left|].
  intros _. right. apply IH. discriminate.
Qed.

Lemma token_clean (R : ascii -> Prop) q t :
  (forall c, R c -> c <> ","%char /\ c <> ")"%char) ->
  Forall R q -> In t (tokens q) -> clean (str t).
Proof.
  intros HR Hq Hin. pose proof (tokens_clean R q Hq) as H.
  rewrite List.Forall_forall in H. destruct (H t Hin) as [Hne Hall].
  unfold clean. rewrite chars_str. split; [assumption|].
  eapply Forall_impl; [exact Hall|]. intros c [Hs Hc]. split; [assumption|].
  now apply HR.
Qed.

Lemma piece_chars params :
  param_chars params ->
  Forall (fun q => Forall (fun c => c <> ")"%char /\ c <> ","%char) q)
         (split_on "," params).
Proof.
  intros [_ Hp]. apply split_on_pieces.
  eapply Forall_impl; [exact Hp|]. intros c Hc ->. discriminate.
Qed.

Lemma shape_params s name params :
  event_shape s name params -> word_chars name /\ param_chars params.
Proof. intros (? & ? & ? & ? & _ & _ & _ & (? & _ & ? & ? & _) & _). auto. Qed.

Lemma function_shape_params s name params suffix :
  function_shape s name params suffix -> word_chars name /\ param_chars params.
Proof. intros (? & ? & ? & ? & _ & _ & _ & (? & _ & ? & ? & _) & _). auto. Qed.

(** X5.  A descriptor returned by [parseEventDeclaration] has a name
    made of letters, digits and underscores, and one input more than
    there are commas between the parentheses, hence at least one: an
    event without parameters cannot be declared.  The type and the
    name of each input are non-empty and free of white space, commas
    and closing parentheses. *)
Theorem parseEventDeclaration_wellformed (s : string) (abi : EventAbi) :
  parseEventDeclaration s = Return abi ->
  word_chars (chars (ev_name abi)) /\
  (exists name params,
      event_shape (chars s) name params /\
      length (ev_inputs abi) = S (occurrences "," params)) /\
  ev_inputs abi <> [] /\
  Forall (fun input => clean (in_type input) /\ clean (in_name input))
         (ev_inputs abi).
Proof.
  unfold parseEventDeclaration.
  destruct (exec_event_re s) as [[name params]|] eqn:E; [|discriminate].
  apply exec_event_re_spec in E. destruct (shape_params _ _ _ E) as [Hn Hp].
  intros H. apply bind_Return in H as (inputs & Hi & H). injection H as <-.
  cbn [ev_name ev_inputs]. apply map_throwing_Return in Hi.
  assert (Hlen : length inputs = S (occurrences "," params)).
  { rewrite <- split_on_length. symmetry. eapply Forall2_length. exact Hi. }
  split; [now rewrite chars_str|]. split; [eauto|]. split.
  - intros ->. discriminate.
  - pose proof (piece_chars params Hp) as Hq. clear Hlen E Hp. revert Hq.
    induction Hi as [|q i qs ins Hqi _ IH]; intros Hq; [constructor|].
    inversion Hq as [|? ? Hq0 Hqs]; subst. constructor; [|now apply IH].
    assert (Hgood : ~ bad_parameter q).
    { intros Hb. apply event_parameter_throws in Hb. now rewrite Hqi in Hb. }
    assert (Hts : tokens q <> []).
    { intros E0. apply Hgood. left. rewrite E0. simpl. lia. }
    destruct (event_parameter_Return q i Hqi) as (Ht & Hname & _).
    rewrite Ht, Hname. split.
    + apply (token_clean (fun c => c <> ")"%char /\ c <> ","%char) q);
        [tauto|exact Hq0|now apply hd_In].
    + apply (token_clean (fun c => c <> ")"%char /\ c <> ","%char) q);
        [tauto|exact Hq0|now apply last_In].
Qed.

(** X6.  A descriptor returned by [parseFunctionDeclaration] has a name
    made of letters, digits and underscores, and one input more than
    there are commas between the parentheses, hence at least one: a
    function without parameters cannot be declared, and so cannot be
    called.  The type and the name of each input are non-empty and free
    of white space, commas and closing parentheses. *)
Theorem parseFunctionDeclaration_wellformed (s : string) (abi : FunctionAbi) :
  parseFunctionDeclaration s = Return abi ->
  word_chars (chars (fn_name abi)) /\
  (exists name params suffix,
      function_shape (chars s) name params suffix /\
      length (fn_inputs abi) = S (occurrences "," params)) /\
  fn_inputs abi <> [] /\
  Forall (fun input => clean (fin_type input) /\ clean (fin_name input))
         (fn_inputs abi).
Proof.
  unfold parseFunctionDeclaration.
  destruct (exec_function_re s) as [[[name params] suffix]|] eqn:E; [|discriminate].
  apply exec_function_re_spec in E.
  destruct (function_shape_params _ _ _ _ E) as [Hn Hp].
  intros H. apply bind_Return in H as (inputs & Hi & H). injection H as <-.
  cbn [fn_name fn_inputs]. apply map_throwing_Return in Hi.
  assert (Hlen : length inputs = S (occurrences "," params)).
  { rewrite <- split_on_length. symmetry. eapply Forall2_length. exact Hi. }
  split; [now rewrite chars_str|]. split; [eauto|]. split.
  - intros ->. discriminate.
  - pose proof (piece_chars params Hp) as Hq. clear Hlen E Hp. revert Hq.
    induction Hi as [|q i qs ins Hqi _ IH]; intros Hq; [constructor|].
    inversion Hq as [|? ? Hq0 Hqs]; subst. constructor; [|now apply IH].
    assert (Hts : tokens q <> []).
    { intros E0. assert (Hs : short_parameter q)
        by (unfold short_parameter; rewrite E0; simpl; lia).
      apply function_parameter_throws in Hs. now rewrite Hqi in Hs. }
    destruct (function_parameter_Return q i Hqi) as (Ht & Hname).
    rewrite Ht, Hname. split.
    + apply (token_clean (fun c => c <> ")"%char /\ c <> ","%char) q);
        [tauto|exact Hq0|now apply hd_In].
    + apply (token_clean (fun c => c <> ")"%char /\ c <> ","%char) q);
        [tauto|exact Hq0|now apply last_In].
Qed.

End ParseFacts.

(** ** Runs of [NewTransactionTrigger] *)

Section TxRunFacts.
Import JsString Decl TxTrigger.

Variable getBlock : Z -> BlockWithTransactions.
Variable fields : Fields.

Let forwarded_of (b : Z) : list Transaction :=
  List.filter (forwarded fields) (default [] (blk_transactions (getBlock b))).

Lemma on_header_tracking last number :
  0 < last ->
  let h := on_header getBlock fields last number in
  last <= lastBlock h /\
  fetched h = seqZ (last + 1) (lastBlock h - last) /\
  notified h = concat (map forwarded_of (fetched h)) /\
  ((forall b, blk_transactions (getBlock b) <> None) ->
   number - lastBlock h <= 2 /\ (lastBlock h = last \/ lastBlock h = number - 2)).
Proof.
  intros Hlast h. unfold h, on_header.
  destruct (Z.eqb_spec number 0) as [->|Hn]; simpl.
  - rewrite Z.sub_diag.
    refine (conj _ (conj eq_refl (conj eq_refl (fun _ => conj _ (or_introl eq_refl))))); lia.
  - rewrite (proj2 (Z.leb_gt last 0) Hlast).
    pose proof (catch_up_spec getBlock fields last number) as Hs. cbv zeta in Hs.
    destruct Hs as (Hf & Hl & Hb & _ & Hc & Hnot).
    set (c := catch_up getBlock fields last number) in *.
    refine (conj _ (conj _ (conj Hnot _))).
    + lia.
    + rewrite Hf at 1. f_equal. lia.
    + intros Hall.
      assert (Hle : number - lastBlock c <= 2).
      { assert (~ number - lastBlock c > 2) by (apply Hc; intros b _; apply Hall). lia. }
      split; [exact Hle|].
      destruct (Z.eq_dec (lastBlock c) last) as [E|E]; [now left|right].
      assert (Hin : lastBlock c ∈ fetched c).
      { rewrite Hf. apply elem_of_seqZ. lia. }
      apply Hb in Hin. lia.
Qed.

Lemma run_from_tracking headers : forall last,
  0 < last ->
  let r := run_from getBlock fields last headers in
  last <= lastBlock r /\
  fetched r = seqZ (last + 1) (lastBlock r - last) /\
  notified r = concat (map forwarded_of (fetched r)) /\
  ((forall b, blk_transactions (getBlock b) <> None) ->
   Forall (fun number => number - lastBlock r <= 2) headers /\
   (lastBlock r = last \/ exists number, In number headers /\ lastBlock r = number - 2)).
Proof.
  induction headers as [|number rest IH]; intros last Hlast; simpl.
  - rewrite Z.sub_diag.
    refine (conj _ (conj eq_refl (conj eq_refl
              (fun _ => conj (List.Forall_nil _) (or_introl eq_refl))))); lia.
  - destruct (on_header_tracking last number Hlast) as (H1 & H2 & H3 & H4).
    set (h := on_header getBlock fields last number) in *.
    destruct (IH (lastBlock h) ltac:(lia)) as (I1 & I2 & I3 & I4).
    set (r := run_from getBlock fields (lastBlock h) rest) in *.
    refine (conj _ (conj _ (conj _ _))).
    + lia.
    + rewrite H2, I2.
      replace (lastBlock r - last) with ((lastBlock h - last) + (lastBlock r - lastBlock h))
        by lia.
      rewrite seqZ_app by lia. do 2 f_equal. lia.
    + rewrite H3, I3. now rewrite map_app, concat_app.
    + intros Hall. destruct (H4 Hall) as [Hle Hor]. destruct (I4 Hall) as [Ile Ior].
      split.
      * constructor; [lia|exact Ile].
      * destruct Ior as [E|(n & Hn & E)].
        { rewrite E. destruct Hor as [E'|E']; [now left|].
          right. exists number. split; [now left|exact E']. }
        right. exists n. split; [now right|exact E].
Qed.

Lemma run_anchor a headers :
  a <> 0 ->
  run getBlock fields (a :: headers) = run_from getBlock fields a headers.
Proof.
  intros Ha. unfold run. simpl. unfold on_header.
  apply Z.eqb_neq in Ha. rewrite Ha. simpl.
  now destruct (run_from getBlock fields a headers).
Qed.

(** X7.  Over a run that starts with the header of block [a], whatever
    headers follow and whichever blocks come without their transaction
    list: the blocks fetched are [a + 1], [a + 2], ... up to the last
    value of [lastBlock], each once and in this order; what is
    forwarded is, block after block in that order, the transactions
    that pass the filters, and nothing else. *)
Theorem run_fetches_consecutive_blocks (a : Z) (headers : list Z) :
  0 < a ->
  let r := run getBlock fields (a :: headers) in
  a <= lastBlock r /\
  fetched r = seqZ (a + 1) (lastBlock r - a) /\
  notified r
  = concat (map (fun b => List.filter (forwarded fields)
                            (default [] (blk_transactions (getBlock b))))
                (fetched r)) /\
  Forall (fun t => forwarded fields t = true) (notified r).
Proof.
  intros Ha r. unfold r. rewrite run_anchor by lia.
  destruct (run_from_tracking headers a Ha) as (H1 & H2 & H3 & _).
  refine (conj H1 (conj H2 (conj H3 _))).
  rewrite H3. apply List.Forall_forall. intros t Ht.
  apply in_concat in Ht as (l & Hl & Ht). apply in_map_iff in Hl as (b & <- & _).
  unfold forwarded_of in Ht. now apply List.filter_In in Ht.
Qed.

(** X8.  When the node returns a transaction list for every block, a
    run that starts with the header of block [a] ends caught up: the
    last value of [lastBlock] is within two blocks of every header
    received, and it is [a] or two less than one of these headers, so
    every block from [a + 1] to two below the highest header has been
    fetched. *)
Theorem run_catches_up (a : Z) (headers : list Z) :
  0 < a ->
  (forall b, blk_transactions (getBlock b) <> None) ->
  let r := run getBlock fields (a :: headers) in
  Forall (fun number => number - lastBlock r <= 2) headers /\
  (lastBlock r = a \/ exists number, In number headers /\ lastBlock r = number - 2) /\
  forall number b, In number headers -> a < b <= number - 2 -> b ∈ fetched r.
Proof.
  intros Ha Hall r. unfold r. rewrite run_anchor by lia.
  destruct (run_from_tracking headers a Ha) as (H1 & H2 & _ & H4).
  destruct (H4 Hall) as [Hle Hor]. refine (conj Hle (conj Hor _)).
  intros number b Hin Hb. rewrite H2. apply elem_of_seqZ.
  rewrite List.Forall_forall in Hle. specialize (Hle number Hin). lia.
Qed.

End TxRunFacts.

(** ** More on [NewEventTrigger] *)

Section EventMoreFacts.
Import JsString Decl EventTrigger.

Variable value : Type.
Variable encodeEventSignature : EventAbi -> string.
Variable encodeParameter : string -> value -> string.
Variable decodeLog : list EventInput -> string -> list string -> string -> value.
Variable prototype_value : string -> value.

Section WithFilters.
Variable parameterFilters : gmap string value.

Let process := process_entry value encodeParameter decodeLog prototype_value parameterFilters.
Let header := on_header value encodeParameter decodeLog prototype_value parameterFilters.
Let steps := deliver_all value encodeParameter decodeLog prototype_value parameterFilters.
Let loop := pass_loop value encodeParameter decodeLog prototype_value parameterFilters.

(** The loop over the buffer when no confirmed entry fails its
    filters. *)
Lemma pass_loop_all_match inputs number logs : forall newPending sent0,
  (forall e, In e logs -> number - blockNumber e >= 2 ->
             is_Some (snd (process inputs e))) ->
  loop inputs number logs newPending sent0
  = {| completed := true;
       newPendingLogs :=
         newPending ++ List.filter (fun e => blockNumber e >? number - 2) logs;
       sent :=
         sent0 ++ omap (fun e => snd (process inputs e))
                       (List.filter (fun e => negb (blockNumber e >? number - 2)) logs) |}.
Proof.
  induction logs as [|e rest IH]; intros newPending sent0 Hall; simpl.
  - now rewrite !app_nil_r.
  - assert (Hrest : forall x, In x rest -> number - blockNumber x >= 2 ->
                              is_Some (snd (process inputs x)))
      by (intros x Hx; apply Hall; now right).
    destruct (Z.gtb_spec (blockNumber e) (number - 2)) as [Hin|Hout]; simpl.
    + rewrite (IH _ _ Hrest). now rewrite <- app_assoc.
    + destruct (Hall e (or_introl eq_refl) ltac:(lia)) as [n Hn].
      fold (process inputs e). rewrite Hn.
      rewrite (IH _ _ Hrest). now rewrite <- app_assoc.
Qed.

Lemma pass_loop_kept inputs number logs : forall newPending sent0,
  newPendingLogs value (loop inputs number logs newPending sent0)
  `sublist_of`
  newPending ++ List.filter (fun e => blockNumber e >? number - 2) logs.
Proof.
  induction logs as [|e rest IH]; intros newPending sent0; simpl.
  - now rewrite app_nil_r.
  - destruct (blockNumber e >? number - 2); simpl.
    + specialize (IH (newPending ++ [e]) sent0). now rewrite <- app_assoc in IH.
    + fold (process inputs e). destruct (snd (process inputs e)); simpl.
      * apply IH.
      * now apply sublist_inserts_r.
Qed.

Lemma omap_length_total {A B} (f : A -> option B) (l : list A) :
  (forall x, In x l -> is_Some (f x)) -> length (omap f l) = length l.
Proof.
  induction l as [|x l IH]; intros H; [reflexivity|].
  cbn [omap list_omap]. destruct (H x (or_introl eq_refl)) as [y ->].
  simpl. f_equal. apply IH. intros z Hz. apply H. now right.
Qed.

Lemma filter_sublist {A} (f : A -> bool) (l : list A) :
  List.filter f l `sublist_of` l.
Proof.
  induction l as [|x l IH]; simpl; [constructor|].
  destruct (f x); [now constructor|now apply sublist_cons].
Qed.

Lemma header_sublist inputs pending number :
  number <> 0 ->
  fst (header inputs pending number)
  `sublist_of` List.filter (fun e => blockNumber e >? number - 2) pending.
Proof.
  intros Hn. unfold header, on_header. apply Z.eqb_neq in Hn. rewrite Hn.
  fold (loop inputs number pending [] []).
  destruct (completed value (loop inputs number pending [] [])); simpl.
  - apply (pass_loop_kept inputs number pending [] []).
  - apply sublist_nil_l.
Qed.

Lemma header_sublist_pending inputs pending number :
  fst (header inputs pending number) `sublist_of` pending.
Proof.
  destruct (Z.eq_dec number 0) as [->|Hn]; [reflexivity|].
  etransitivity; [now apply header_sublist|apply filter_sublist].
Qed.

(** X9.  After the header of a block with a nonzero number, the
    buffer holds only entries that were in it before and are less
    than two blocks behind that header, in their former order; a
    header never puts an entry in the buffer and never leaves a
    confirmed one in it. *)
Theorem header_keeps_window (inputs : list EventInput) (pending : list Log)
        (number : Z) :
  number <> 0 ->
  fst (header inputs pending number)
  `sublist_of` List.filter (fun e => blockNumber e >? number - 2) pending /\
  Forall (fun e => number - blockNumber e < 2) (fst (header inputs pending number)).
Proof.
  intros Hn.
  pose proof (header_sublist inputs pending number Hn) as Hsub.
  split; [exact Hsub|].
  apply List.Forall_forall. intros e He.
  apply list_elem_of_In in He. eapply elem_of_sublist in He; [|exact Hsub].
  apply list_elem_of_In, List.filter_In in He as [_ He].
  apply Z.gtb_lt in He. lia.
Qed.

(** X10.  When every buffered entry that the header confirms passes
    its filters, the pass sends one notification for each of them, in
    the order of the buffer, and leaves in the buffer exactly the
    entries less than two blocks behind the header, in order. *)
Theorem pass_without_mismatch (inputs : list EventInput) (pending : list Log)
        (number : Z) :
  number <> 0 ->
  (forall e, In e pending -> number - blockNumber e >= 2 ->
             is_Some (snd (process inputs e))) ->
  header inputs pending number
  = (List.filter (fun e => blockNumber e >? number - 2) pending,
     omap (fun e => snd (process inputs e))
          (List.filter (fun e => negb (blockNumber e >? number - 2)) pending))
  /\ length (snd (header inputs pending number))
     = length (List.filter (fun e => negb (blockNumber e >? number - 2)) pending).
Proof.
  intros Hn Hall.
  assert (E : header inputs pending number
              = (List.filter (fun e => blockNumber e >? number - 2) pending,
                 omap (fun e => snd (process inputs e))
                      (List.filter (fun e => negb (blockNumber e >? number - 2)) pending))).
  { unfold header, on_header. apply Z.eqb_neq in Hn. rewrite Hn.
    fold (loop inputs number pending [] []).
    now rewrite (pass_loop_all_match inputs number pending [] [] Hall). }
  split; [exact E|]. rewrite E. simpl.
  assert (Hc : forall e, In e (List.filter (fun e => negb (blockNumber e >? number - 2)) pending) ->
                         is_Some (snd (process inputs e))).
  { intros e He. apply List.filter_In in He as [He Hb]. apply Hall; [assumption|].
    apply negb_true_iff in Hb.
    destruct (Z.gtb_spec (blockNumber e) (number - 2)); [discriminate|lia]. }
  now apply omap_length_total.
Qed.

(** X12.  Whatever messages are delivered, the buffer is a selection,
    in order, of the entries it held at first followed by the logs
    that arrived without the removed flag: no entry is buffered twice
    for one arrival, the order of arrival is kept, and a log that
    carries the removed flag is never buffered. *)
Theorem buffer_in_arrival_order (inputs : list EventInput) (ms : list message)
        (pending : list Log) :
  fst (steps inputs pending ms) `sublist_of` pending ++ arrivals ms /\
  (Forall (fun e => removed e = false) pending ->
   Forall (fun e => removed e = false) (fst (steps inputs pending ms))).
Proof.
  assert (Hsub : forall pending,
             fst (steps inputs pending ms) `sublist_of` pending ++ arrivals ms);
    [|split; [apply Hsub|]].
  2: { intros Hp. apply List.Forall_forall. intros e He.
       apply list_elem_of_In in He. eapply elem_of_sublist in He; [|apply Hsub].
       apply elem_of_app in He as [He|He].
       - rewrite List.Forall_forall in Hp. apply Hp. now apply list_elem_of_In.
       - unfold arrivals in He. apply list_elem_of_omap in He as (m & _ & Hm).
         destruct m as [l|]; [|discriminate].
         destruct (removed l) eqn:Er; [discriminate|]. now injection Hm as <-. }
  clear pending.
  induction ms as [|m rest IH]; intros pending.
  - simpl. now rewrite app_nil_r.
  - unfold steps. cbn [deliver_all].
    destruct (deliver value encodeParameter decodeLog prototype_value parameterFilters inputs pending m)
      as [p1 s1] eqn:E.
    specialize (IH p1). unfold steps in IH.
    destruct (deliver_all value encodeParameter decodeLog prototype_value parameterFilters inputs p1 rest)
      as [p2 s2]. cbn [fst] in *.
    etransitivity; [exact IH|].
    destruct m as [logEntry|number]; cbn [deliver] in E.
    + injection E as <- _. unfold on_log, arrivals. cbn [omap list_omap].
      destruct (removed logEntry).
      * apply sublist_app; [apply filter_sublist|reflexivity].
      * now rewrite <- app_assoc.
    + apply sublist_app; [|reflexivity].
      pose proof (header_sublist_pending inputs pending number) as Hs.
      unfold header in Hs. now rewrite E in Hs.
Qed.

End WithFilters.

Lemma check_inputs_no_filter parameterFilters inputs decoded compared event :
  (forall input, In input inputs ->
                 filter_of value prototype_value parameterFilters (in_name input)
                 = None) ->
  check_inputs value encodeParameter prototype_value parameterFilters
               inputs decoded compared event
  = (compared, Some event).
Proof.
  induction inputs as [|input rest IH]; simpl; [reflexivity|].
  intros H. rewrite (H input (or_introl eq_refl)). apply IH.
  intros i Hi. apply H. now right.
Qed.

Lemma process_entry_no_filter parameterFilters inputs logEntry :
  (forall input, In input inputs ->
                 filter_of value prototype_value parameterFilters (in_name input)
                 = None) ->
  process_entry value encodeParameter decodeLog prototype_value parameterFilters
                inputs logEntry
  = ([], Some {[ "_rawEvent"%string := RawEvent logEntry ]}).
Proof.
  intros H. unfold process_entry. rewrite (check_inputs_no_filter _ _ _ _ _ H).
  unfold notification. now rewrite fmap_empty, (left_id_L ∅ (∪)).
Qed.

(** X11.  When no parameter of the event is a key of the parameter
    filters or has one of the names of [Object.prototype], whatever
    else the filters hold, no entry is ever refused and nothing is
    decoded into the notification: the pass of a header with a nonzero
    number sends, for each buffered entry at least two blocks behind it
    and in the order of the buffer, a notification that holds the raw
    log and nothing else, and keeps the other entries. *)
Theorem pass_without_filters (parameterFilters : gmap string value)
        (inputs : list EventInput) (pending : list Log) (number : Z) :
  number <> 0 ->
  (forall input, In input inputs ->
                 parameterFilters !! in_name input = None /\
                 ~ In (in_name input) JsObject.Object_prototype) ->
  on_header value encodeParameter decodeLog prototype_value parameterFilters
            inputs pending number
  = (List.filter (fun e => blockNumber e >? number - 2) pending,
     map (fun e => {[ "_rawEvent"%string := RawEvent e ]})
         (List.filter (fun e => negb (blockNumber e >? number - 2)) pending)).
Proof.
  intros Hn Hnone.
  assert (Hfree : forall input, In input inputs ->
            filter_of value prototype_value parameterFilters (in_name input) = None).
  { intros input Hin. apply JsObjectFacts.get_None. now apply Hnone. }
  unfold on_header. apply Z.eqb_neq in Hn. rewrite Hn.
  rewrite (pass_loop_all_match parameterFilters inputs number pending [] []).
  - simpl. f_equal.
    induction (List.filter (fun e => negb (blockNumber e >? number - 2)) pending)
      as [|e l IH]; [reflexivity|].
    cbn [omap list_omap map]. rewrite (process_entry_no_filter _ _ _ Hfree). simpl.
    f_equal. exact IH.
  - intros e _ _. rewrite (process_entry_no_filter _ _ _ Hfree). simpl. eauto.
Qed.

(** X13.  The topics of the subscription depend on the filters of the
    indexed inputs only: two filter bags that agree on the names of the
    indexed inputs give the same topics, so a filter on an input that is
    not indexed narrows nothing at the node and is applied when the
    entry is confirmed. *)
Theorem topics_ignore_unindexed_filters (filters1 filters2 : gmap string value)
        (eventInfo : EventAbi) :
  (forall input, In input (ev_inputs eventInfo) -> in_indexed input = true ->
                 filters1 !! in_name input = filters2 !! in_name input) ->
  build_topics value encodeEventSignature encodeParameter prototype_value
               filters1 eventInfo
  = build_topics value encodeEventSignature encodeParameter prototype_value
                 filters2 eventInfo.
Proof.
  intros Hagree. unfold build_topics.
  generalize [Some (encodeEventSignature eventInfo)].
  induction (ev_inputs eventInfo) as [|input rest IH]; intros acc; [reflexivity|].
  cbn [fold_left].
  assert (E : push_topic value encodeParameter prototype_value filters1 acc input
              = push_topic value encodeParameter prototype_value filters2 acc input).
  { unfold push_topic, filter_of, JsObject.get.
    destruct (in_indexed input) eqn:Ei; [|reflexivity].
    now rewrite (Hagree input (or_introl eq_refl) Ei). }
  rewrite E. apply IH. intros i Hi. apply Hagree. now right.
Qed.

End EventMoreFacts.

(** ** More on [callSmartContract] *)

Section CallMoreFacts.
Import Call Decl CallInput.

Variable value : Type.
Variable receipt : Type.
Variable prototype_value : string -> value.
Variable encodeFunctionCall : FunctionAbi -> list value -> string.
Variable account_address : string.
Variable getTransactionCount : string -> Z.
Variable estimateGas : TransactionConfig -> JsNumber.safe_integer.
Variable baseFeePerGas : JsNumber.safe_integer.
Variable eth_call : TransactionConfig -> string.
Variable sendTransaction : TransactionConfig -> receipt.

Let call := callSmartContract value receipt prototype_value encodeFunctionCall
              account_address getTransactionCount estimateGas baseFeePerGas
              eth_call sendTransaction.
Let draft_of := draft value encodeFunctionCall account_address getTransactionCount.
Let baseFee := JsNumber.of_safe baseFeePerGas.
Let floor := JsNumber.add baseFee (JsNumber.of_Z (30 * 10 ^ 9)).

(** A name the parameters have: an own key of the bag or one of the
    names of [Object.prototype]. *)
Let present (fields : InputFields value) (name : string) : Prop :=
  is_Some (parameters fields !! name) \/ In name JsObject.Object_prototype.

Let absent (fields : InputFields value) (name : string) : Prop :=
  parameters fields !! name = None /\ ~ In name JsObject.Object_prototype.

Lemma collect_parameters_missing fields before i after :
  Forall (fun j => present fields (fin_name j)) before ->
  absent fields (fin_name i) ->
  collect_parameters value prototype_value fields (before ++ i :: after)
  = Throw (MissingParameter (fin_name i)).
Proof.
  intros Hb Hi. unfold collect_parameters.
  apply (JsObjectFacts.get_None prototype_value) in Hi.
  induction Hb as [|j before Hj _ IH]; simpl.
  - now rewrite Hi.
  - apply (JsObjectFacts.get_is_Some prototype_value) in Hj as [v Hj].
    rewrite Hj. simpl. now rewrite IH.
Qed.

Lemma collect_parameters_Throw fields inputs e :
  collect_parameters value prototype_value fields inputs = Throw e ->
  exists before i after,
    inputs = before ++ i :: after /\
    Forall (fun j => present fields (fin_name j)) before /\
    absent fields (fin_name i) /\ e = MissingParameter (fin_name i).
Proof.
  unfold collect_parameters. intros H.
  apply map_throwing_first in H as (before & i & after & -> & Hi & Hb).
  exists before, i, after. split; [reflexivity|].
  destruct (JsObject.get prototype_value (parameters fields) (fin_name i)) eqn:E;
    [discriminate|].
  injection Hi as <-. split; [|split; [|reflexivity]].
  - eapply Forall_impl; [exact Hb|]. intros j Hj. simpl in Hj.
    apply (JsObjectFacts.get_is_Some prototype_value).
    destruct (JsObject.get prototype_value (parameters fields) (fin_name j));
      [eauto|]. now exfalso; apply Hj.
  - now apply (JsObjectFacts.get_None prototype_value).
Qed.

Lemma toWei_Throw s decimals e :
  toWei s decimals = Throw e -> e = InvalidNumberValue s.
Proof.
  unfold toWei.
  match goal with |- context [let '(_, _) := ?p in _] => destruct p as [negative body] end.
  destruct (_ || _); [now intros [= <-]|].
  destruct (bool_decide _); [now intros [= <-]|].
  destruct (JsString.split_on "." body) as [|whole more]; [now intros [= <-]|].
  destruct more as [|f0 [|f1 more]]; try (now intros [= <-]);
    destruct (_ <? _)%nat; (now intros [= <-]) || discriminate.
Qed.

Lemma normalise_Throw f e : normalise f = Throw e -> exists s, e = InvalidNumberValue s.
Proof.
  destruct f as [|n|s]; simpl; try discriminate.
  destruct (toWei s ether) as [w|e'] eqn:E; simpl; [discriminate|].
  intros [= <-]. apply toWei_Throw in E. eauto.
Qed.

(** X14.  When the declaration parses and some input name is missing
    from the parameters, being neither a key of the bag nor one of the
    names every object inherits from [Object.prototype], the call
    throws the missing-parameter error for the first such name in
    declaration order, whatever the fee fields hold; and the call
    throws a missing-parameter error in no other case. *)
Theorem missing_parameter (fields : InputFields value) :
  (forall functionInfo before i after,
      parseFunctionDeclaration (functionDeclaration fields) = Return functionInfo ->
      fn_inputs functionInfo = before ++ i :: after ->
      Forall (fun j => is_Some (parameters fields !! fin_name j) \/
                       In (fin_name j) JsObject.Object_prototype) before ->
      parameters fields !! fin_name i = None ->
      ~ In (fin_name i) JsObject.Object_prototype ->
      call fields = Throw (MissingParameter (fin_name i))) /\
  (forall name,
      call fields = Throw (MissingParameter name) ->
      exists functionInfo before i after,
        parseFunctionDeclaration (functionDeclaration fields) = Return functionInfo /\
        fn_inputs functionInfo = before ++ i :: after /\
        Forall (fun j => is_Some (parameters fields !! fin_name j) \/
                         In (fin_name j) JsObject.Object_prototype) before /\
        parameters fields !! fin_name i = None /\
        ~ In (fin_name i) JsObject.Object_prototype /\ name = fin_name i).
Proof.
  split.
  - intros functionInfo before i after Hp Hin Hb Hi Hproto.
    unfold call, callSmartContract. rewrite Hp. simpl. rewrite Hin.
    now rewrite (collect_parameters_missing fields before i after Hb (conj Hi Hproto)).
  - intros name H. unfold call, callSmartContract in H.
    destruct (parseFunctionDeclaration (functionDeclaration fields))
      as [functionInfo|e] eqn:Hp; simpl in H.
    2: { injection H as ->. unfold parseFunctionDeclaration in Hp.
         destruct (exec_function_re _) as [[[n p] x]|]; [|discriminate].
         apply bind_Throw in Hp as [Hp|(a & _ & Hp)]; [|discriminate].
         apply map_throwing_first in Hp as (_ & q & _ & _ & Hq & _).
         unfold function_parameter in Hq.
         destruct (_ <? _)%nat in Hq; discriminate. }
    destruct (collect_parameters value prototype_value fields (fn_inputs functionInfo))
      as [paramArray|e] eqn:Hc; simpl in H.
    2: { injection H as ->.
         apply collect_parameters_Throw
           in Hc as (before & i & after & E & Hb & [Hi Hproto] & [= ->]).
         exists functionInfo, before, i, after. auto 10. }
    exfalso.
    destruct (normalise (gasLimit fields)) as [g|e] eqn:Hg; simpl in H.
    2: { injection H as ->. apply normalise_Throw in Hg as (s & [=]). }
    destruct (normalise (f_maxFeePerGas fields)) as [m|e] eqn:Hm; simpl in H.
    2: { injection H as ->. apply normalise_Throw in Hm as (s & [=]). }
    destruct (normalise (f_maxPriorityFeePerGas fields)) as [t|e] eqn:Ht; simpl in H.
    2: { injection H as ->. apply normalise_Throw in Ht as (s & [=]). }
    unfold compute_fees in H.
    destruct (JsNumber.lt _ _) in H.
    + unfold insufficient in H.
      destruct (negb (printable g)) in H; [discriminate|].
      destruct (negb (JsNumber.plain_integer _)) in H; discriminate.
    + cbn [mbind outcome_bind] in H.
      destruct (read_only functionInfo || dryRun fields); discriminate.
Qed.

Lemma collect_parameters_agree fields fields' inputs :
  (forall i, In i inputs ->
             parameters fields' !! fin_name i = parameters fields !! fin_name i) ->
  collect_parameters value prototype_value fields' inputs = collect_parameters value prototype_value fields inputs.
Proof.
  unfold collect_parameters. induction inputs as [|i inputs IH]; intros H; [reflexivity|].
  cbn [map_throwing].
  assert (E : JsObject.get prototype_value (parameters fields') (fin_name i)
              = JsObject.get prototype_value (parameters fields) (fin_name i)).
  { unfold JsObject.get. now rewrite (H i (or_introl eq_refl)). }
  rewrite E, IH; [reflexivity|]. intros j Hj. apply H. now right.
Qed.

(** X15.  The call reads the parameter bag at the names of the declared
    inputs only: replacing the bag by one that agrees with it on these
    names, whatever else either holds, changes nothing in what the call
    does. *)
Theorem parameters_read_at_inputs (fields : InputFields value)
        (ps : gmap string value) :
  (forall functionInfo i,
      parseFunctionDeclaration (functionDeclaration fields) = Return functionInfo ->
      In i (fn_inputs functionInfo) ->
      ps !! fin_name i = parameters fields !! fin_name i) ->
  call (with_parameters ps fields) = call fields.
Proof.
  intros Hagree. unfold call, callSmartContract.
  change (functionDeclaration (with_parameters ps fields))
    with (functionDeclaration fields).
  destruct (parseFunctionDeclaration (functionDeclaration fields))
    as [functionInfo|e] eqn:Hp; [|reflexivity].
  cbn [mbind outcome_bind].
  rewrite (collect_parameters_agree fields (with_parameters ps fields)
             (fn_inputs functionInfo) (fun i Hi => Hagree functionInfo i eq_refl Hi)).
  reflexivity.
Qed.

(** X16.  The [maxFeePerGas] of the input is converted and then never
    read: two values that both convert give the same call, and a string
    that does not convert makes the call throw the conversion error,
    once the declaration has parsed, the parameters are there and
    [gasLimit] has converted. *)
Theorem maxFeePerGas_is_not_read (fields : InputFields value) (m m' : jsfield) :
  (forall w w',
      normalise m = Return w -> normalise m' = Return w' ->
      call (with_maxFee m fields) = call (with_maxFee m' fields)) /\
  (forall e functionInfo paramArray budget,
      parseFunctionDeclaration (functionDeclaration fields) = Return functionInfo ->
      collect_parameters value prototype_value fields (fn_inputs functionInfo) = Return paramArray ->
      normalise (gasLimit fields) = Return budget ->
      normalise m = Throw e ->
      call (with_maxFee m fields) = Throw e /\ exists s, e = InvalidNumberValue s).
Proof.
  split.
  - intros w w' Hm Hm'. unfold call, callSmartContract.
    change (functionDeclaration (with_maxFee m fields))
      with (functionDeclaration (with_maxFee m' fields)).
    destruct (parseFunctionDeclaration (functionDeclaration (with_maxFee m' fields)))
      as [functionInfo|e]; [|reflexivity].
    cbn [mbind outcome_bind].
    change (collect_parameters value prototype_value (with_maxFee m fields) (fn_inputs functionInfo))
      with (collect_parameters value prototype_value (with_maxFee m' fields) (fn_inputs functionInfo)).
    destruct (collect_parameters value prototype_value (with_maxFee m' fields) (fn_inputs functionInfo))
      as [paramArray|e]; [|reflexivity].
    cbn [mbind outcome_bind gasLimit with_maxFee f_maxFeePerGas].
    destruct (normalise (gasLimit fields)) as [g|e]; [|reflexivity].
    rewrite Hm, Hm'. reflexivity.
  - intros e functionInfo paramArray budget Hp Hc Hg Hm.
    split; [|now apply normalise_Throw in Hm].
    unfold call, callSmartContract.
    change (functionDeclaration (with_maxFee m fields))
      with (functionDeclaration fields). rewrite Hp.
    cbn [mbind outcome_bind].
    change (collect_parameters value prototype_value (with_maxFee m fields) (fn_inputs functionInfo))
      with (collect_parameters value prototype_value fields (fn_inputs functionInfo)). rewrite Hc.
    cbn [mbind outcome_bind gasLimit with_maxFee f_maxFeePerGas].
    rewrite Hg. cbn [mbind outcome_bind]. now rewrite Hm.
Qed.

Lemma call_reaches_fees fields r p :
  call fields = Return (r, p) ->
  exists functionInfo paramArray budget tip,
    reaches_fees value prototype_value fields functionInfo paramArray budget tip.
Proof.
  intros H. unfold call, callSmartContract in H.
  apply bind_Return in H as (functionInfo & Hparse & H).
  apply bind_Return in H as (paramArray & Hparams & H). cbv zeta in H.
  apply bind_Return in H as (budget & Hbudget & H).
  apply bind_Return in H as (m & Hm & H).
  apply bind_Return in H as (tip & Htip & H).
  exists functionInfo, paramArray, budget, tip.
  unfold reaches_fees. eauto 10.
Qed.

Lemma well_formed_canonical x :
  JsNumber.well_formed x -> JsNumber.canonical x /\ x <> JsNumber.NaN.
Proof.
  destruct x as [s|s| |s m e]; simpl; intros H; try contradiction;
    (split; [|discriminate]); try reflexivity. exact H.
Qed.

Lemma desired_tip_canonical f :
  (forall x, f = Num x -> JsNumber.canonical x) ->
  JsNumber.canonical (desired_tip_of f) /\ desired_tip_of f <> JsNumber.NaN.
Proof.
  intros Hx. destruct f as [|x|s]; simpl.
  - split; [reflexivity|discriminate].
  - destruct (JsNumber.truthy x) eqn:E.
    + split; [now apply Hx|now apply truthy_not_NaN].
    + split; [reflexivity|discriminate].
  - apply well_formed_canonical.
    apply JsNumberFacts.binary_normalize_well_formed. lia.
Qed.

(** X17.  Every request the call makes is priced within bounds, the
    numbers being doubles and a tip given as a number being one: its
    gas limit is a positive finite number; its [maxFeePerGas] is not
    below the base fee plus 30 gwei and is above the base fee; its
    [maxPriorityFeePerGas] is above neither the desired tip nor
    [maxFeePerGas - baseFee - 1], and is not negative when the desired
    tip is not. *)
Theorem request_is_priced_within_bounds (fields : InputFields value) r p :
  call fields = Return (r, p) ->
  (forall x, f_maxPriorityFeePerGas fields = Num x -> JsNumber.canonical x) ->
  exists gas cap tip,
    tx_gas (config_of r) = Some gas /\
    tx_maxFeePerGas (config_of r) = Some cap /\
    tx_maxPriorityFeePerGas (config_of r) = Some tip /\
    JsNumber.finite_positive gas /\
    JsNumber.lt cap floor = false /\
    JsNumber.lt baseFee cap = true /\
    JsNumber.lt (desired_tip_of (f_maxPriorityFeePerGas fields)) tip = false /\
    JsNumber.lt (JsNumber.sub (JsNumber.sub cap baseFee) (JsNumber.of_Z 1)) tip
    = false /\
    (JsNumber.not_negative (desired_tip_of (f_maxPriorityFeePerGas fields)) ->
     JsNumber.not_negative tip).
Proof.
  intros H Hdouble.
  destruct (call_reaches_fees fields r p H)
    as (functionInfo & paramArray & budget & tip & Hr).
  pose proof (call_fees value receipt prototype_value encodeFunctionCall
                account_address getTransactionCount estimateGas baseFeePerGas
                eth_call sendTransaction fields functionInfo paramArray budget tip Hr)
    as Hcall. cbv zeta in Hcall. fold call in Hcall.
  fold baseFee in Hcall. fold floor in Hcall.
  set (txConfig := draft value encodeFunctionCall account_address
                         getTransactionCount fields functionInfo paramArray) in Hcall.
  set (gas := JsNumber.gas_with_margin (JsNumber.of_safe (estimateGas txConfig)))
    in Hcall.
  set (desired := desired_tip_of (f_maxPriorityFeePerGas fields)) in *.
  set (cap := cap_of baseFee (gasLimit fields) gas desired) in *.
  pose proof (safe_bounds baseFeePerGas) as Hb.
  rewrite Hcall in H.
  destruct (JsNumber.lt cap floor) eqn:Hlt.
  { pose proof (insufficient_throws (A := request * payload receipt)
                  budget (JsNumber.mul floor gas)) as Ht.
    rewrite H in Ht. destruct Ht. }
  set (priority := JsNumber.Math_min desired
                     (JsNumber.sub (JsNumber.sub cap baseFee) (JsNumber.of_Z 1))) in *.
  exists gas, cap, priority.
  assert (Hcfg : tx_gas (config_of r) = Some gas /\
                 tx_maxFeePerGas (config_of r) = Some cap /\
                 tx_maxPriorityFeePerGas (config_of r) = Some priority).
  { cbv zeta in H. destruct (read_only functionInfo || dryRun fields);
      injection H as <- _; repeat split; reflexivity. }
  destruct Hcfg as (H1 & H2 & H3).
  destruct (desired_tip_canonical _ Hdouble) as [Hdc Hdn]. fold desired in Hdc, Hdn.
  assert (Hwf : JsNumber.well_formed cap).
  { destruct (cap_well_formed estimateGas baseFeePerGas (gasLimit fields)
                              txConfig desired) as [E|Hw]; [|exact Hw].
    fold baseFee in E. fold gas in E. fold cap in E. rewrite E.
    now apply JsNumberFacts.add_well_formed. }
  assert (Hfloor : JsNumber.at_least (JsNumber.safe_value baseFeePerGas + 1) floor).
  { destruct (JsNumberFacts.floor_fee_at_least _ Hb) as (m & e & E & Hc & Hv).
    right. exists m, e. unfold floor, baseFee, JsNumber.of_safe.
    rewrite E. auto. }
  assert (Hcap : JsNumber.at_least (JsNumber.safe_value baseFeePerGas + 1) cap).
  { apply (JsNumberFacts.not_lt_at_least cap floor); auto; lia. }
  refine (conj H1 (conj H2 (conj H3 _))).
  split; [apply JsNumberFacts.gas_with_margin_positive, safe_bounds|].
  split; [first [reflexivity|exact Hlt]|].
  split; [now apply JsNumberFacts.lt_at_least|].
  split; [apply JsNumberFacts.Math_min_le_l|].
  split; [apply JsNumberFacts.Math_min_le_r|].
  intros Hd. apply JsNumberFacts.Math_min_not_negative; [exact Hd|].
  apply JsNumberFacts.sub_one_not_negative.
  now apply JsNumberFacts.sub_at_least.
Qed.

End CallMoreFacts.

(** ** More concrete runs *)

Section MoreRuns.
Import JsString Decl FunctionDecl.

Lemma isSameAddress_lower_witness :
  has_0x "0xAbC" = true /\
  isSameAddress (Some (toLowerCase "0xAbC")) (Some "0xabc"%string)
  = isSameAddress (Some "0xAbC"%string) (Some "0xabc"%string).
Proof.
  split; [reflexivity|].
  apply (isSameAddress_lower "0xAbC" (Some "0xabc"%string)). reflexivity.
Defined.

Lemma balanceOf_parses :
  parseFunctionDeclaration MoreSamples.balanceOf_declaration
  = Return MoreSamples.balanceOf_info.
Proof. vm_compute. reflexivity. Defined.

Lemma transfer_event_parses :
  parseEventDeclaration MoreSamples.transfer_event_declaration
  = Return MoreSamples.transfer_event.
Proof. vm_compute. reflexivity. Defined.

Lemma transfer_function_parses :
  parseFunctionDeclaration (Call.functionDeclaration Sample.fields)
  = Return Sample.transfer_info.
Proof. vm_compute. reflexivity. Defined.

Lemma parseFunctionDeclaration_mutability_witness :
  parseFunctionDeclaration MoreSamples.balanceOf_declaration
  = Return MoreSamples.balanceOf_info /\
  exists name params suffix,
    function_shape (chars MoreSamples.balanceOf_declaration) name params suffix /\
    (fn_constant MoreSamples.balanceOf_info = true
     <-> In (chars "view") (tokens suffix)) /\
    (fn_payable MoreSamples.balanceOf_info = true
     <-> In (chars "payable") (tokens suffix)) /\
    mutability_of (tokens suffix) (fn_stateMutability MoreSamples.balanceOf_info).
Proof.
  split; [exact balanceOf_parses|].
  exact (parseFunctionDeclaration_mutability _ _ balanceOf_parses).
Defined.

Lemma parseEventDeclaration_wellformed_witness :
  parseEventDeclaration MoreSamples.transfer_event_declaration
  = Return MoreSamples.transfer_event /\
  ev_inputs MoreSamples.transfer_event <> [] /\
  Forall (fun input => clean (in_type input) /\ clean (in_name input))
         (ev_inputs MoreSamples.transfer_event).
Proof.
  split; [exact transfer_event_parses|].
  destruct (parseEventDeclaration_wellformed _ _ transfer_event_parses)
    as (_ & _ & Hne & Hclean).
  split; [exact Hne|exact Hclean].
Defined.

Lemma parseFunctionDeclaration_wellformed_witness :
  parseFunctionDeclaration (Call.functionDeclaration Sample.fields)
  = Return Sample.transfer_info /\
  fn_inputs Sample.transfer_info <> [] /\
  Forall (fun input => clean (fin_type input) /\ clean (fin_name input))
         (fn_inputs Sample.transfer_info).
Proof.
  split; [exact transfer_function_parses|].
  destruct (parseFunctionDeclaration_wellformed _ _ transfer_function_parses)
    as (_ & _ & Hne & Hclean).
  split; [exact Hne|exact Hclean].
Defined.

Import TxTrigger.

(** Anchored at block 9, with block 12 lacking its list: the headers of
    blocks 15 and 16 make the trigger fetch blocks 10 to 14. *)
Lemma run_fetches_consecutive_blocks_witness :
  0 < 9 /\
  fetched (run Sample.getBlock Sample.from_abc [9; 15; 16])
  = seqZ 10 (lastBlock (run Sample.getBlock Sample.from_abc [9; 15; 16]) - 9) /\
  lastBlock (run Sample.getBlock Sample.from_abc [9; 15; 16]) = 14.
Proof.
  split; [reflexivity|].
  destruct (run_fetches_consecutive_blocks Sample.getBlock Sample.from_abc 9 [15; 16]
              ltac:(reflexivity)) as (_ & Hf & _).
  split; [exact Hf|]. vm_compute. reflexivity.
Defined.

Lemma run_catches_up_witness :
  0 < 9 /\
  (forall b, blk_transactions (MoreSamples.getBlock_full b) <> None) /\
  Forall (fun number =>
            number - lastBlock (run MoreSamples.getBlock_full Sample.from_abc [9; 12; 15])
            <= 2) [12; 15] /\
  13 ∈ fetched (run MoreSamples.getBlock_full Sample.from_abc [9; 12; 15]).
Proof.
  assert (Hfull : forall b, blk_transactions (MoreSamples.getBlock_full b) <> None)
    by (intros b; discriminate).
  split; [reflexivity|]. split; [exact Hfull|].
  destruct (run_catches_up MoreSamples.getBlock_full Sample.from_abc 9 [12; 15]
              ltac:(reflexivity) Hfull) as (Hle & _ & Hin).
  split; [exact Hle|].
  apply (Hin 15 13); [right; left; reflexivity|lia].
Defined.

Import EventTrigger.

Lemma header_keeps_window_witness :
  12 <> 0 /\
  Forall (fun e => 12 - blockNumber e < 2)
         (fst (Sample.pass Sample.to_abc Sample.transfer_inputs
                           [Sample.log_abc_12; Sample.log_abc_10] 12)).
Proof.
  split; [discriminate|].
  exact (proj2 (header_keeps_window string Sample.encodeParameter Sample.decodeLog
                  Sample.prototype_value Sample.to_abc Sample.transfer_inputs
                  [Sample.log_abc_12; Sample.log_abc_10] 12 ltac:(discriminate))).
Defined.

Lemma sample_entries_match :
  forall e, In e [Sample.log_abc_12; Sample.log_abc_10] ->
            12 - blockNumber e >= 2 ->
            is_Some (snd (Sample.process Sample.to_abc Sample.transfer_inputs e)).
Proof.
  intros e [<-|[<-|[]]] H.
  - vm_compute in H. now contradiction H.
  - vm_compute. eauto.
Defined.

Lemma pass_without_mismatch_witness :
  12 <> 0 /\
  (forall e, In e [Sample.log_abc_12; Sample.log_abc_10] ->
             12 - blockNumber e >= 2 ->
             is_Some (snd (Sample.process Sample.to_abc Sample.transfer_inputs e))) /\
  length (snd (Sample.pass Sample.to_abc Sample.transfer_inputs
                           [Sample.log_abc_12; Sample.log_abc_10] 12))
  = 1%nat.
Proof.
  split; [discriminate|]. split; [exact sample_entries_match|].
  exact (proj2 (pass_without_mismatch string Sample.encodeParameter Sample.decodeLog
                  Sample.prototype_value Sample.to_abc Sample.transfer_inputs
                  [Sample.log_abc_12; Sample.log_abc_10] 12
                  ltac:(discriminate) sample_entries_match)).
Defined.

Lemma amount_names_no_input :
  forall input, In input Sample.transfer_inputs ->
                MoreSamples.amount_9 !! in_name input = None /\
                ~ In (in_name input) JsObject.Object_prototype.
Proof.
  intros input [<-|[<-|[<-|[]]]]; (split; [vm_compute; reflexivity|]);
    intros H; apply JsObjectFacts.inherited_spec in H; discriminate.
Defined.

(** With a filter on [amount], which [Transfer] does not declare, the
    transfers are sent whatever their amount. *)
Lemma pass_without_filters_witness :
  12 <> 0 /\
  (forall input, In input Sample.transfer_inputs ->
                 MoreSamples.amount_9 !! in_name input = None /\
                 ~ In (in_name input) JsObject.Object_prototype) /\
  on_header string Sample.encodeParameter Sample.decodeLog Sample.prototype_value
            MoreSamples.amount_9
            Sample.transfer_inputs [Sample.log_def_10; Sample.log_abc_12] 12
  = ([Sample.log_abc_12], [ {[ "_rawEvent"%string := RawEvent Sample.log_def_10 ]} ]).
Proof.
  split; [discriminate|]. split; [exact amount_names_no_input|].
  exact (pass_without_filters string Sample.encodeParameter Sample.decodeLog
           Sample.prototype_value
           MoreSamples.amount_9 Sample.transfer_inputs
           [Sample.log_def_10; Sample.log_abc_12] 12
           ltac:(discriminate) amount_names_no_input).
Defined.

Lemma sample_filters_agree :
  forall input, In input (ev_inputs MoreSamples.transfer_event) ->
                in_indexed input = true ->
                Sample.to_abc !! in_name input
                = MoreSamples.to_abc_value_9 !! in_name input.
Proof.
  intros input [<-|[<-|[<-|[]]]] H; try discriminate; vm_compute; reflexivity.
Defined.

Lemma topics_ignore_unindexed_filters_witness :
  (forall input, In input (ev_inputs MoreSamples.transfer_event) ->
                 in_indexed input = true ->
                 Sample.to_abc !! in_name input
                 = MoreSamples.to_abc_value_9 !! in_name input) /\
  build_topics string Sample.encodeEventSignature Sample.encodeParameter
               Sample.prototype_value Sample.to_abc MoreSamples.transfer_event
  = build_topics string Sample.encodeEventSignature Sample.encodeParameter
                 Sample.prototype_value MoreSamples.to_abc_value_9
                 MoreSamples.transfer_event.
Proof.
  split; [exact sample_filters_agree|].
  exact (topics_ignore_unindexed_filters string Sample.encodeEventSignature
           Sample.encodeParameter Sample.prototype_value
           Sample.to_abc MoreSamples.to_abc_value_9
           MoreSamples.transfer_event sample_filters_agree).
Defined.

Import Call CallInput.

Lemma sample_parameters_agree :
  forall functionInfo i,
    parseFunctionDeclaration (functionDeclaration Sample.fields) = Return functionInfo ->
    In i (fn_inputs functionInfo) ->
    MoreSamples.parameters_with_memo !! fin_name i
    = parameters Sample.fields !! fin_name i.
Proof.
  intros functionInfo i Hp. rewrite transfer_function_parses in Hp.
  injection Hp as <-. intros [<-|[<-|[]]]; vm_compute; reflexivity.
Defined.

Lemma parameters_read_at_inputs_witness :
  (forall functionInfo i,
      parseFunctionDeclaration (functionDeclaration Sample.fields) = Return functionInfo ->
      In i (fn_inputs functionInfo) ->
      MoreSamples.parameters_with_memo !! fin_name i
      = parameters Sample.fields !! fin_name i) /\
  Sample.call (100 * 10 ^ 9) (with_parameters MoreSamples.parameters_with_memo Sample.fields)
  = Sample.call (100 * 10 ^ 9) Sample.fields.
Proof.
  split; [exact sample_parameters_agree|].
  exact (parameters_read_at_inputs string string Sample.prototype_value
           Sample.encodeFunctionCall "0x51"
           (fun _ => 7) (fun _ => Sample.safe_of 50000)
           (Sample.safe_of (100 * 10 ^ 9))
           (fun _ => "0x01"%string) (fun _ => "0x7a"%string)
           Sample.fields MoreSamples.parameters_with_memo sample_parameters_agree).
Defined.

Lemma sample_budget_call_returns :
  Sample.call (100 * 10 ^ 9) Sample.fields_budget
  = Return (EthSendTransaction
              {| tx_from := "0x51"; tx_to := "0xc0ffee";
                 tx_data := "transfer,0xabc,10"; tx_nonce := 7;
                 tx_gas := Some (JsNumber.of_Z 56001);
                 tx_maxFeePerGas := Some (JsNumber.of_Z 178568239852);
                 tx_maxPriorityFeePerGas := Some (JsNumber.of_Z 75000000000) |},
            Sent "0x7a"%string).
Proof. vm_compute. reflexivity. Defined.

Lemma sample_tip_is_double :
  forall x, f_maxPriorityFeePerGas Sample.fields_budget = Num x ->
            JsNumber.canonical x.
Proof. intros x [=]. Defined.

(** With a budget of 0.01 ether and a gas limit of 56001 the request is
    capped at 178568239852 wei per unit, above the base fee of
    100 gwei, with the default tip of 75 gwei. *)
Lemma request_is_priced_within_bounds_witness :
  Sample.call (100 * 10 ^ 9) Sample.fields_budget
  = Return (EthSendTransaction
              {| tx_from := "0x51"; tx_to := "0xc0ffee";
                 tx_data := "transfer,0xabc,10"; tx_nonce := 7;
                 tx_gas := Some (JsNumber.of_Z 56001);
                 tx_maxFeePerGas := Some (JsNumber.of_Z 178568239852);
                 tx_maxPriorityFeePerGas := Some (JsNumber.of_Z 75000000000) |},
            Sent "0x7a"%string) /\
  (forall x, f_maxPriorityFeePerGas Sample.fields_budget = Num x ->
             JsNumber.canonical x) /\
  exists gas cap tip,
    Some (JsNumber.of_Z 56001) = Some gas /\
    Some (JsNumber.of_Z 178568239852) = Some cap /\
    Some (JsNumber.of_Z 75000000000) = Some tip /\
    JsNumber.finite_positive gas /\
    JsNumber.lt cap (JsNumber.of_Z (130 * 10 ^ 9)) = false /\
    JsNumber.lt (JsNumber.of_Z (100 * 10 ^ 9)) cap = true /\
    JsNumber.lt (JsNumber.of_Z (75 * 10 ^ 9)) tip = false /\
    JsNumber.lt (JsNumber.sub (JsNumber.sub cap (JsNumber.of_Z (100 * 10 ^ 9)))
                              (JsNumber.of_Z 1)) tip = false /\
    (JsNumber.not_negative (JsNumber.of_Z (75 * 10 ^ 9)) ->
     JsNumber.not_negative tip).
Proof.
  split; [exact sample_budget_call_returns|].
  split; [exact sample_tip_is_double|].
  exact (request_is_priced_within_bounds string string Sample.prototype_value
           Sample.encodeFunctionCall "0x51"
           (fun _ => 7) (fun _ => Sample.safe_of 50000)
           (Sample.safe_of (100 * 10 ^ 9))
           (fun _ => "0x01"%string) (fun _ => "0x7a"%string)
           Sample.fields_budget _ _ sample_budget_call_returns
           sample_tip_is_double).
Defined.

(** The declaration of [transfer] has two parameters, one on each side
    of its comma, and the descriptor has one input for each. *)
Lemma parseFunctionDeclaration_spec_witness :
  exists name params suffix pieces,
    function_shape (chars (functionDeclaration Sample.fields)) name params suffix /\
    comma_separated params pieces /\
    pieces = [chars "address to"; chars " uint256 amount"] /\
    Forall2 describes_function pieces (fn_inputs Sample.transfer_info).
Proof.
  destruct (parseFunctionDeclaration_spec (functionDeclaration Sample.fields))
    as (_ & _ & Hret).
  destruct (Hret _ transfer_function_parses)
    as (name & params & suffix & pieces & Hs & Hc & _ & Hd).
  exists name, params, suffix, pieces.
  split; [exact Hs|]. split; [exact Hc|]. split; [|exact Hd].
  apply exec_function_re_spec in Hs. vm_compute in Hs. injection Hs as <- <- <-.
  apply comma_separated_split in Hc. rewrite Hc. vm_compute. reflexivity.
Defined.

(** [f(uint256 toString)] called with no parameter at all: the name is
    not missing, the function the parameters inherit is passed. *)
Example inherited_parameter_is_passed :
  collect_parameters string Sample.prototype_value
    (with_parameters ∅ Sample.fields)
    [ {| fin_type := "uint256"; fin_name := "toString" |} ]
  = Return ["[toString]"%string].
Proof. vm_compute. reflexivity. Qed.

End MoreRuns.
